(** * Odin-style token patterns: lexer and recursive-descent parsers

    A shallow embedding of [resilience.py]: the ordered lexical rule table
    [TOKEN_TYPES], the [Lexer], the [TokenConstraintParser] and the
    [TokenPatternParser] that extends it, followed by the properties of the
    lex-then-parse pipeline.

    Conventions of the embedding.
    - A text is a [string]; its characters are read as the code points
      0..255 and the classes [\s], [\w], [\d] are the ones Python's [re]
      uses for [str] patterns on that range.
    - A Python exception is a value of [exn]; a method that may raise
      returns a [result].
    - The parser object ([lexer.tokens] and [current_token]) is the record
      [Parser]; every method takes the parser and returns it updated.
    - Recursion that Python leaves to the call stack and to [while] is
      bounded by a fuel argument; [OutOfFuel] is never produced when the
      fuel is chosen as the entry points choose it (section Totality).
      The interpreter's own bound on the depth of the call stack is not
      part of the embedding: where Python raises RecursionError on a
      pattern nested some hundreds of parentheses deep, the embedding
      goes on to the result the methods compute. *)

From Stdlib Require Import String Ascii List Bool Arith Lia.
Import ListNotations.
Open Scope string_scope.
Open Scope list_scope.
Open Scope nat_scope.

Set Warnings "-register-all".

(* ================================================================== *)
(** ** Characters and character classes *)

Definition code (c : ascii) : nat := nat_of_ascii c.

Definition in_range (lo hi : nat) (c : ascii) : bool :=
  (lo <=? code c) && (code c <=? hi).

(** The double quote, written by its code so that no literal needs it. *)
Definition dquote : ascii := "034"%char.
Definition squote : ascii := "'"%char.
Definition newline : ascii := "010"%char.

(** [\s]: [str.isspace] on code points below 256. *)
Definition is_space (c : ascii) : bool :=
  in_range 9 13 c || in_range 28 32 c
  || (code c =? 133) || (code c =? 160).

(** [\d]: decimal digits; below 256 these are 0..9 only. *)
Definition is_digit (c : ascii) : bool := in_range 48 57 c.

(** [\w]: [str.isalnum] or underscore, on code points below 256. *)
Definition is_word (c : ascii) : bool :=
  in_range 48 57 c || in_range 65 90 c || in_range 97 122 c
  || (code c =? 95)
  || (code c =? 170) || (code c =? 178) || (code c =? 179)
  || (code c =? 181) || (code c =? 185) || (code c =? 186)
  || in_range 188 190 c
  || in_range 192 214 c || in_range 216 246 c || in_range 248 255 c.

(** [.] without DOTALL: anything but a line feed. *)
Definition is_dot (c : ascii) : bool := negb (Ascii.eqb c newline).

(* ================================================================== *)
(** ** Regular expressions, as far as the rule table uses them *)

Inductive charclass : Type := cls_s | cls_w | cls_d | cls_dot.

Definition in_class (k : charclass) (c : ascii) : bool :=
  match k with
  | cls_s => is_space c
  | cls_w => is_word c
  | cls_d => is_digit c
  | cls_dot => is_dot c
  end.

Inductive regex : Type :=
| Lit (s : string)              (* a run of literal characters *)
| Plus (k : charclass)          (* k+   greedy *)
| LazyStar (k : charclass)      (* k*?  lazy *)
| Alt (r1 r2 : regex)           (* r1|r2, ordered *)
| Cat (r1 r2 : regex).          (* r1 r2 *)

(** Backtracking matchers in continuation style: the continuation [k] is
    the rest of the pattern, it receives the text still unread. *)

Fixpoint match_lit (l s : string) : option string :=
  match l with
  | EmptyString => Some s
  | String a l' =>
      match s with
      | String c s' => if Ascii.eqb a c then match_lit l' s' else None
      | EmptyString => None
      end
  end.

Fixpoint star_greedy (p : ascii -> bool) (s : string)
         (k : string -> option string) : option string :=
  match s with
  | String c s' =>
      if p c then
        match star_greedy p s' k with
        | Some r => Some r
        | None => k s
        end
      else k s
  | EmptyString => k s
  end.

Fixpoint star_lazy (p : ascii -> bool) (s : string)
         (k : string -> option string) : option string :=
  match k s with
  | Some r => Some r
  | None =>
      match s with
      | String c s' => if p c then star_lazy p s' k else None
      | EmptyString => None
      end
  end.

Fixpoint rmatch (r : regex) (s : string)
         (k : string -> option string) : option string :=
  match r with
  | Lit l => match match_lit l s with Some s' => k s' | None => None end
  | Plus c =>
      match s with
      | String a s' => if in_class c a then star_greedy (in_class c) s' k else None
      | EmptyString => None
      end
  | LazyStar c => star_lazy (in_class c) s k
  | Alt r1 r2 =>
      match rmatch r1 s k with
      | Some x => Some x
      | None => rmatch r2 s k
      end
  | Cat r1 r2 => rmatch r1 s (fun s' => rmatch r2 s' k)
  end.

(** The text from position [pos] on. *)
Fixpoint string_drop (pos : nat) (s : string) : string :=
  match pos, s with
  | O, _ => s
  | S n, String _ s' => string_drop n s'
  | S _, EmptyString => EmptyString
  end.

(** [pattern.match(text, pos)]: the end position of the match, if any. *)
Definition re_match (r : regex) (text : string) (pos : nat) : option nat :=
  match rmatch r (string_drop pos text) (fun rest => Some rest) with
  | Some rest => Some (String.length text - String.length rest)
  | None => None
  end.

(* ================================================================== *)
(** ** The lexical rule table *)

Inductive TokenType : Type :=
| WHITESPACE | LBRACKET | RBRACKET | LPAREN | RPAREN | AND | OR | NOT
| EQUALS | STAR | PLUS | QUESTION | WORD | STRING | NUMBER | AT | COLON
| CAPTURE_START | CAPTURE_END | START_ASSERT | END_ASSERT
| LOOKAHEAD_START | LOOKAHEAD_END.

Definition TokenType_eqb (a b : TokenType) : bool :=
  match a, b with
  | WHITESPACE, WHITESPACE | LBRACKET, LBRACKET | RBRACKET, RBRACKET
  | LPAREN, LPAREN | RPAREN, RPAREN | AND, AND | OR, OR | NOT, NOT
  | EQUALS, EQUALS | STAR, STAR | PLUS, PLUS | QUESTION, QUESTION
  | WORD, WORD | STRING, STRING | NUMBER, NUMBER | AT, AT | COLON, COLON
  | CAPTURE_START, CAPTURE_START | CAPTURE_END, CAPTURE_END
  | START_ASSERT, START_ASSERT | END_ASSERT, END_ASSERT
  | LOOKAHEAD_START, LOOKAHEAD_START | LOOKAHEAD_END, LOOKAHEAD_END => true
  | _, _ => false
  end.

(** The key of the rule, as Python prints it in messages. *)
Definition type_name (t : TokenType) : string :=
  match t with
  | WHITESPACE => "WHITESPACE" | LBRACKET => "LBRACKET"
  | RBRACKET => "RBRACKET" | LPAREN => "LPAREN" | RPAREN => "RPAREN"
  | AND => "AND" | OR => "OR" | NOT => "NOT" | EQUALS => "EQUALS"
  | STAR => "STAR" | PLUS => "PLUS" | QUESTION => "QUESTION"
  | WORD => "WORD" | STRING => "STRING" | NUMBER => "NUMBER" | AT => "AT"
  | COLON => "COLON" | CAPTURE_START => "CAPTURE_START"
  | CAPTURE_END => "CAPTURE_END" | START_ASSERT => "START_ASSERT"
  | END_ASSERT => "END_ASSERT" | LOOKAHEAD_START => "LOOKAHEAD_START"
  | LOOKAHEAD_END => "LOOKAHEAD_END"
  end.

Definition chr (c : ascii) : string := String c EmptyString.

Definition field_keywords : list string :=
  ["word"; "lemma"; "tag"; "entity"; "chunk"; "incoming"; "outgoing";
   "mention"].

(** [word|lemma|tag|entity|chunk|incoming|outgoing|mention] *)
Definition WORD_re : regex :=
  Alt (Lit "word") (Alt (Lit "lemma") (Alt (Lit "tag") (Alt (Lit "entity")
  (Alt (Lit "chunk") (Alt (Lit "incoming") (Alt (Lit "outgoing")
  (Lit "mention"))))))).

(** A double-quoted run, a single-quoted run (both lazy), or [\w+]. *)
Definition STRING_re : regex :=
  Alt (Cat (Lit (chr dquote)) (Cat (LazyStar cls_dot) (Lit (chr dquote))))
 (Alt (Cat (Lit (chr squote)) (Cat (LazyStar cls_dot) (Lit (chr squote))))
      (Plus cls_w)).

(** [TOKEN_TYPES], in the insertion order of the dictionary. *)
Definition TOKEN_TYPES : list (TokenType * regex) :=
  [ (WHITESPACE, Plus cls_s);
    (LBRACKET, Lit "[");
    (RBRACKET, Lit "]");
    (LPAREN, Lit "(");
    (RPAREN, Lit ")");
    (AND, Lit "&");
    (OR, Lit "|");
    (NOT, Lit "!");
    (EQUALS, Lit "=");
    (STAR, Lit "*");
    (PLUS, Lit "+");
    (QUESTION, Lit "?");
    (WORD, WORD_re);
    (STRING, STRING_re);
    (NUMBER, Plus cls_d);
    (AT, Lit "@");
    (COLON, Lit ":");
    (CAPTURE_START, Lit "(?<");
    (CAPTURE_END, Lit ")");
    (START_ASSERT, Lit "^");
    (END_ASSERT, Lit "$");
    (LOOKAHEAD_START, Alt (Lit "(?=") (Lit "(?!"));
    (LOOKAHEAD_END, Lit ")") ].

(* ================================================================== *)
(** ** Results and exceptions *)

Inductive exn : Type :=
| SyntaxError (msg : string)
| TypeError (msg : string).

Inductive result (A : Type) : Type :=
| Ok (a : A)
| Raise (e : exn)
| OutOfFuel.

Arguments Ok {A} a.
Arguments Raise {A} e.
Arguments OutOfFuel {A}.

(* ================================================================== *)
(** ** Lexer *)

Definition Token : Type := TokenType * string.

(** The [for] loop of [tokenize]: the first rule of the table that matches
    at [pos], with the end of its match. *)
Fixpoint first_match (rules : list (TokenType * regex)) (text : string)
         (pos : nat) : option (TokenType * nat) :=
  match rules with
  | [] => None
  | (token_type, r) :: rules' =>
      match re_match r text pos with
      | Some e => Some (token_type, e)
      | None => first_match rules' text pos
      end
  end.

(** [self.text[pos]], for [pos] inside the text. *)
Definition char_at (text : string) (pos : nat) : string :=
  substring pos 1 text.

(** The [while] loop of [tokenize]; [tokens] is [self.tokens]. *)
Fixpoint tokenize_loop (fuel : nat) (text : string) (pos : nat)
         (tokens : list Token) : result (list Token) :=
  match fuel with
  | O => OutOfFuel
  | S fuel' =>
      if pos <? String.length text then
        match first_match TOKEN_TYPES text pos with
        | Some (token_type, e) =>
            tokenize_loop fuel' text e
              (if TokenType_eqb token_type WHITESPACE then tokens
               else tokens ++ [(token_type, substring pos (e - pos) text)])
        | None =>
            Raise (SyntaxError ("Unknown character: " ++ char_at text pos)%string)
        end
      else Ok tokens
  end.

(** [Lexer(text)]: the token list the constructor leaves in [self.tokens]. *)
Definition tokenize (text : string) : result (list Token) :=
  tokenize_loop (S (String.length text)) text 0 [].

(** [Lexer.next_token]: pop the first token, [None] when none is left. *)
Definition next_token (tokens : list Token) : option Token * list Token :=
  match tokens with
  | t :: rest => (Some t, rest)
  | [] => (None, [])
  end.

(* ================================================================== *)
(** ** Abstract syntax trees *)

(** [ASTNode]: the tagged tuples the parsers build.
    - [PyNone] is Python's [None]: the value of an empty bracket (the
      specification's NoConstraint) and of a mention without matcher;
    - [Or l r] is [('OR', l, r)], [And l r] is [('AND', l, r)],
      [Not x] is [('NOT', x)];
    - [Field name m] is [('FIELD', name, m)], [Exact lit] is
      [('EXACT', lit)];
    - [Seq ps] is [('SEQ', ps)], [Quant a q] is [('QUANT', a, q)];
    - [Mention m] is [('MENTION', m)], [Capture n p] is
      [('CAPTURE', n, p)]. *)
Inductive ASTNode : Type :=
| PyNone
| Or (left right : ASTNode)
| And (left right : ASTNode)
| Not (operand : ASTNode)
| Field (field_name : string) (string_matcher : ASTNode)
| Exact (literal : string)
| Seq (patterns : list ASTNode)
| Quant (atom : ASTNode) (quantifier : string)
| Mention (mention : ASTNode)
| Capture (capture_name : string) (pattern : ASTNode).

(* ================================================================== *)
(** ** Parser state and the parsing monad *)

(** The parser object: [tokens] is [self.lexer.tokens], the tokens not yet
    popped; [current_token] is the one-token look-ahead. *)
Record Parser : Type := mkParser {
  tokens : list Token;
  current_token : option Token
}.

(** A method of the parser: it returns a value and the updated object, or
    raises. *)
Definition M (A : Type) : Type := Parser -> result (A * Parser).

Definition ret {A} (a : A) : M A := fun p => Ok (a, p).

Definition raise {A} (e : exn) : M A := fun _ => Raise e.

Definition out_of_fuel {A} : M A := fun _ => OutOfFuel.

Definition bind {A B} (m : M A) (k : A -> M B) : M B :=
  fun p =>
    match m p with
    | Ok (a, p') => k a p'
    | Raise e => Raise e
    | OutOfFuel => OutOfFuel
    end.

Notation "x <- m ;; k" := (bind m (fun x => k))
  (at level 61, m at next level, right associativity).
Notation "m ;;; k" := (bind m (fun _ => k))
  (at level 61, right associativity).

(** [self.current_token = self.lexer.next_token()] *)
Definition advance (p : Parser) : Parser :=
  let (t, rest) := next_token (tokens p) in
  mkParser rest t.

(** [TokenConstraintParser.__init__]: keep the lexer, pop the first
    token. *)
Definition new_parser (lexer_tokens : list Token) : Parser :=
  advance (mkParser lexer_tokens None).

(** [self.current_token and self.current_token[0] == token_type] *)
Definition current_is (token_type : TokenType) (p : Parser) : bool :=
  match current_token p with
  | Some (ty, _) => TokenType_eqb ty token_type
  | None => false
  end.

(** [self.current_token and self.current_token[0] != token_type] *)
Definition current_is_not (token_type : TokenType) (p : Parser) : bool :=
  match current_token p with
  | Some (ty, _) => negb (TokenType_eqb ty token_type)
  | None => false
  end.

(** [self.current_token and self.current_token[0] in types] *)
Definition current_in (types : list TokenType) (p : Parser) : bool :=
  existsb (fun ty => current_is ty p) types.

(** [self.current_token[1]]; subscripting [None] is a [TypeError]. *)
Definition current_lexeme : M string :=
  fun p =>
    match current_token p with
    | Some (_, lexeme) => Ok (lexeme, p)
    | None => Raise (TypeError "'NoneType' object is not subscriptable")
    end.

(** [self.current_token[0]] *)
Definition current_type : M TokenType :=
  fun p =>
    match current_token p with
    | Some (ty, _) => Ok (ty, p)
    | None => Raise (TypeError "'NoneType' object is not subscriptable")
    end.

(* ================================================================== *)
(** ** TokenConstraintParser *)

Definition eat (token_type : TokenType) : M unit :=
  fun p =>
    if current_is token_type p then Ok (tt, advance p)
    else
      let expected := type_name token_type in
      let got := match current_token p with
                 | Some (ty, _) => type_name ty
                 | None => "EOF"
                 end in
      Raise (SyntaxError ("Expected " ++ expected ++ " but got " ++ got)%string).

(** StringMatcher ::= ExactStringMatcher *)
Definition string_matcher : M ASTNode :=
  fun p =>
    if current_is STRING p then
      (literal <- current_lexeme ;;
       eat STRING ;;;
       ret (Exact literal)) p
    else Raise (SyntaxError "Expected string").

(** FieldConstraint ::= FieldName '=' StringMatcher *)
Definition field_constraint : M ASTNode :=
  field_name <- current_lexeme ;;
  eat WORD ;;;
  eat EQUALS ;;;
  m <- string_matcher ;;
  ret (Field field_name m).

(** The four mutually recursive productions of the constraint grammar.
    Each [while] loop is the function named after its method with the
    suffix [_loop]; it carries the loop variable [left]. *)
Fixpoint disjunctive_constraint (fuel : nat) : M ASTNode :=
  match fuel with
  | O => out_of_fuel
  | S n =>
      left <- conjunctive_constraint n ;;
      disjunctive_constraint_loop n left
  end

with disjunctive_constraint_loop (fuel : nat) (left : ASTNode) : M ASTNode :=
  match fuel with
  | O => out_of_fuel
  | S n => fun p =>
      if current_is OR p then
        (eat OR ;;;
         right <- conjunctive_constraint n ;;
         disjunctive_constraint_loop n (Or left right)) p
      else ret left p
  end

with conjunctive_constraint (fuel : nat) : M ASTNode :=
  match fuel with
  | O => out_of_fuel
  | S n =>
      left <- negated_constraint n ;;
      conjunctive_constraint_loop n left
  end

with conjunctive_constraint_loop (fuel : nat) (left : ASTNode) : M ASTNode :=
  match fuel with
  | O => out_of_fuel
  | S n => fun p =>
      if current_is AND p then
        (eat AND ;;;
         right <- negated_constraint n ;;
         conjunctive_constraint_loop n (And left right)) p
      else ret left p
  end

with negated_constraint (fuel : nat) : M ASTNode :=
  match fuel with
  | O => out_of_fuel
  | S n => fun p =>
      if current_is NOT p then
        (eat NOT ;;;
         a <- atomic_constraint n ;;
         ret (Not a)) p
      else atomic_constraint n p
  end

with atomic_constraint (fuel : nat) : M ASTNode :=
  match fuel with
  | O => out_of_fuel
  | S n => fun p =>
      if current_is WORD p then field_constraint p
      else if current_is LPAREN p then
        (eat LPAREN ;;;
         disjunction <- disjunctive_constraint n ;;
         eat RPAREN ;;;
         ret disjunction) p
      else
        Raise (SyntaxError
                 "Expected FieldConstraint or nested DisjunctiveConstraint")
  end.

(** TokenConstraint ::= '[' [DisjunctiveConstraint] ']' *)
Definition token_constraint (fuel : nat) : M ASTNode :=
  eat LBRACKET ;;;
  constraint <- (fun p =>
                   if current_is_not RBRACKET p
                   then disjunctive_constraint fuel p
                   else ret PyNone p) ;;
  eat RBRACKET ;;;
  ret constraint.

(** [TokenConstraintParser.parse] *)
Definition parse (fuel : nat) : M ASTNode := token_constraint fuel.

(* ================================================================== *)
(** ** TokenPatternParser *)

(** MentionTokenPattern: ['@'] and an optional string matcher. *)
Definition mention_token_pattern : M ASTNode :=
  eat AT ;;;
  mention <- (fun p =>
                if current_is STRING p then string_matcher p
                else ret PyNone p) ;;
  ret (Mention mention).

Definition pattern_starters : list TokenType :=
  [WORD; LPAREN; AT; CAPTURE_START; LBRACKET].

Definition quantifiers : list TokenType := [STAR; PLUS; QUESTION].

(** The last lines of [concatenated_token_pattern]: [patterns[0]] when
    [len(patterns) == 1], the [SEQ] tuple otherwise.  The list is never
    empty, so the default of [hd] is not used. *)
Definition seq_or_single (patterns : list ASTNode) : ASTNode :=
  if List.length patterns =? 1 then hd PyNone patterns else Seq patterns.

Fixpoint disjunctive_token_pattern (fuel : nat) : M ASTNode :=
  match fuel with
  | O => out_of_fuel
  | S n =>
      left <- concatenated_token_pattern n ;;
      disjunctive_token_pattern_loop n left
  end

with disjunctive_token_pattern_loop (fuel : nat) (left : ASTNode)
  : M ASTNode :=
  match fuel with
  | O => out_of_fuel
  | S n => fun p =>
      if current_is OR p then
        (eat OR ;;;
         right <- concatenated_token_pattern n ;;
         disjunctive_token_pattern_loop n (Or left right)) p
      else ret left p
  end

with concatenated_token_pattern (fuel : nat) : M ASTNode :=
  match fuel with
  | O => out_of_fuel
  | S n =>
      first <- quantified_token_pattern n ;;
      patterns <- concatenated_token_pattern_loop n [first] ;;
      ret (seq_or_single patterns)
  end

with concatenated_token_pattern_loop (fuel : nat) (patterns : list ASTNode)
  : M (list ASTNode) :=
  match fuel with
  | O => out_of_fuel
  | S n => fun p =>
      if current_in pattern_starters p then
        (next <- quantified_token_pattern n ;;
         concatenated_token_pattern_loop n (patterns ++ [next])) p
      else ret patterns p
  end

with quantified_token_pattern (fuel : nat) : M ASTNode :=
  match fuel with
  | O => out_of_fuel
  | S n =>
      atom <- atomic_token_pattern n ;;
      fun p =>
        if current_in quantifiers p then
          (quantifier <- current_lexeme ;;
           ty <- current_type ;;
           eat ty ;;;
           ret (Quant atom quantifier)) p
        else ret atom p
  end

with atomic_token_pattern (fuel : nat) : M ASTNode :=
  match fuel with
  | O => out_of_fuel
  | S n => fun p =>
      if current_is WORD p then field_constraint p
      else if current_is LBRACKET p then token_constraint n p
      else if current_is LPAREN p then
        (eat LPAREN ;;;
         pattern <- disjunctive_token_pattern n ;;
         eat RPAREN ;;;
         ret pattern) p
      else if current_is AT p then mention_token_pattern p
      else if current_is CAPTURE_START p then capture_token_pattern n p
      else
        let shown := match current_token p with
                     | Some (_, lexeme) => lexeme
                     | None => "EOF"
                     end in
        Raise (SyntaxError
                 ("Unexpected token '" ++ shown ++ "' in AtomicTokenPattern")%string)
  end

with capture_token_pattern (fuel : nat) : M ASTNode :=
  match fuel with
  | O => out_of_fuel
  | S n =>
      eat CAPTURE_START ;;;
      capture_name <- current_lexeme ;;
      eat STRING ;;;
      eat CAPTURE_END ;;;
      pattern <- disjunctive_token_pattern n ;;
      ret (Capture capture_name pattern)
  end.

(** [TokenPatternParser.parse_token_pattern] *)
Definition parse_token_pattern (fuel : nat) : M ASTNode :=
  disjunctive_token_pattern fuel.

(** ** The pipeline of the module's entry point

    [Lexer(text)], [TokenPatternParser(lexer)], [parse_token_pattern()].
    The fuel is linear in the number of tokens, which bounds the depth of
    the recursion (theorem [parse_tokens_total]). *)

Definition parse_fuel (lexer_tokens : list Token) : nat :=
  4 * List.length lexer_tokens + 5.

Definition parse_tokens (lexer_tokens : list Token) : result ASTNode :=
  match parse_token_pattern (parse_fuel lexer_tokens)
                            (new_parser lexer_tokens) with
  | Ok (ast, _) => Ok ast
  | Raise e => Raise e
  | OutOfFuel => OutOfFuel
  end.

Definition parse_text (text : string) : result ASTNode :=
  match tokenize text with
  | Ok lexer_tokens => parse_tokens lexer_tokens
  | Raise e => Raise e
  | OutOfFuel => OutOfFuel
  end.

(* ================================================================== *)
(** ** Vocabulary of the statements *)

(** [scan_reaches text pos tokens]: the [while] loop of [tokenize] comes to
    the position [pos] having emitted [tokens]. *)
Inductive scan_reaches (text : string) : nat -> list Token -> Prop :=
| scan_start : scan_reaches text 0 []
| scan_next pos tokens token_type e :
    scan_reaches text pos tokens ->
    pos < String.length text ->
    first_match TOKEN_TYPES text pos = Some (token_type, e) ->
    scan_reaches text e
      (if TokenType_eqb token_type WHITESPACE then tokens
       else tokens ++ [(token_type, substring pos (e - pos) text)]).

(** [res_le r1 r2]: [r2] is [r1], unless [r1] ran out of fuel. *)
Definition res_le {A} (r1 r2 : result A) : Prop :=
  r1 = OutOfFuel \/ r1 = r2.

(** A production whose result only improves with fuel. *)
Definition fuel_monotone {A} (f : nat -> M A) : Prop :=
  forall n m p, n <= m -> res_le (f n p) (f m p).

(** [returns f p a p']: with enough fuel, the production [f] called on the
    parser [p] returns [a] and leaves the parser as [p']. *)
Definition returns {A} (f : nat -> M A) (p : Parser) (a : A) (p' : Parser)
  : Prop :=
  exists n, f n p = Ok (a, p').

(** [progresses k l r]: the result [r] of a production started on the
    tokens [l] is not a lack of fuel, and when it is a value the parser is
    left on a list at least [k] tokens shorter. *)
Definition progresses {A} (k : nat) (l : list Token)
           (r : result (A * Parser)) : Prop :=
  match r with
  | OutOfFuel => False
  | Raise _ => True
  | Ok (_, p') =>
      exists l', p' = new_parser l' /\ List.length l' + k <= List.length l
  end.

(** [consumes r]: the expression cannot match the empty string. *)
Fixpoint consumes (r : regex) : bool :=
  match r with
  | Lit l => negb (String.eqb l "")
  | Plus _ => true
  | LazyStar _ => false
  | Alt r1 r2 => consumes r1 && consumes r2
  | Cat r1 r2 => consumes r1 || consumes r2
  end.

(** The [for] loop of [tokenize] on the unread text: the first rule that
    matches, with the text left after its match. *)
Fixpoint first_rule (rules : list (TokenType * regex)) (s : string)
  : option (TokenType * string) :=
  match rules with
  | [] => None
  | (token_type, r) :: rules' =>
      match rmatch r s (fun rest => Some rest) with
      | Some rest => Some (token_type, rest)
      | None => first_rule rules' s
      end
  end.


(** [string_forall p s]: every character of [s] is in the class [p]. *)
Fixpoint string_forall (p : ascii -> bool) (s : string) : bool :=
  match s with
  | EmptyString => true
  | String c s' => p c && string_forall p s'
  end.

(** [starts_with p s]: [s] is not empty and opens with a character of the
    class [p]. *)
Definition starts_with (p : ascii -> bool) (s : string) : bool :=
  match s with
  | String c _ => p c
  | EmptyString => false
  end.

(** [begins_with_keyword w]: one of the field keywords is a prefix of [w]. *)
Definition begins_with_keyword (w : string) : bool :=
  existsb (fun kw => String.prefix kw w) field_keywords.

(** [operands f op l rest l']: from the tokens [l] on, the input goes on
    with the operator [op] and an operand that the production [f] parses,
    as many times as [rest] has elements ([rest] lists the operands in
    source order), and the token at [l'], where this stops, is not [op]. *)
Inductive operands (f : nat -> M ASTNode) (op : TokenType)
  : list Token -> list ASTNode -> list Token -> Prop :=
| operands_done l :
    current_is op (new_parser l) = false -> operands f op l [] l
| operands_next lexeme l right l' rest l'' :
    returns f (new_parser l) right (new_parser l') ->
    operands f op l' rest l'' ->
    operands f op ((op, lexeme) :: l) (right :: rest) l''.

(** [collected l rest l']: from the tokens [l] on, the loop of
    [concatenated_token_pattern] collects the quantified patterns [rest],
    in source order, and stops at [l'], whose first token cannot start a
    pattern. *)
Inductive collected : list Token -> list ASTNode -> list Token -> Prop :=
| collected_stop l :
    current_in pattern_starters (new_parser l) = false -> collected l [] l
| collected_more l next l' rest l'' :
    current_in pattern_starters (new_parser l) = true ->
    returns quantified_token_pattern (new_parser l) next (new_parser l') ->
    collected l' rest l'' ->
    collected l (next :: rest) l''.

(** The three tokens of a field constraint [name=value] with a bare-word
    value, for stating examples. *)
Definition field_tokens (name value : string) : list Token :=
  [(WORD, name); (EQUALS, "="); (STRING, value)].

(** [quoted s]: the text [s] between two double quotes. *)
Definition quoted (s : string) : string :=
  String dquote (s ++ chr dquote).

(** The first concrete scenario of the specification: a bracket with the
    conjunction of [word] equal to a quoted [hello] and [lemma] equal to a
    quoted [greet]. *)
Definition scenario_hello_greet : string :=
  ("[word=" ++ quoted "hello" ++ " & lemma=" ++ quoted "greet" ++ "]")%string.

(** The kinds of token that some production looks for where a pattern may
    go on or end: the operators, the quantifiers, a string literal (after
    the mention sigil) and the tokens that can start a constraint or a
    pattern. *)
Definition continuation_types : list TokenType :=
  [OR; AND; NOT; STAR; PLUS; QUESTION; STRING; WORD; LPAREN; AT;
   CAPTURE_START; LBRACKET].

(** [stray t]: the token [t] is of none of those kinds; a closing bracket
    or parenthesis, an equals sign, a colon and the anchors are stray. *)
Definition stray (t : Token) : bool :=
  negb (existsb (TokenType_eqb (fst t)) continuation_types).

(** [stable_on ext f]: if the method [f] returns on the tokens [l], it
    returns the same value on [l] followed by [ext], and leaves [ext]
    unread. *)
Definition stable_on {A} (ext : list Token) (f : M A) : Prop :=
  forall l a p',
    f (new_parser l) = Ok (a, p') ->
    exists l', p' = new_parser l' /\
               f (new_parser (l ++ ext)) = Ok (a, new_parser (l' ++ ext)).

(* ================================================================== *)
(** ** Vocabulary of the further properties *)

(** [body_then_quote q s]: [s] is a run of characters other than the
    quote [q] and the line feed, followed by [q], and ends there. *)
Fixpoint body_then_quote (q : ascii) (s : string) : bool :=
  match s with
  | EmptyString => false
  | String c r =>
      match r with
      | EmptyString => Ascii.eqb c q
      | String _ _ =>
          is_dot c && negb (Ascii.eqb c q) && body_then_quote q r
      end
  end.

(** [quoted_with q lx]: [lx] opens with the quote [q], closes with it, and
    has neither [q] nor a line feed in between. *)
Definition quoted_with (q : ascii) (lx : string) : bool :=
  match lx with
  | String c r => Ascii.eqb c q && body_then_quote q r
  | EmptyString => false
  end.

(** The lexemes of the string-literal rule: a double-quoted text, a
    single-quoted text, or a non-empty run of word characters. *)
Definition string_lexeme (lx : string) : bool :=
  quoted_with dquote lx || quoted_with squote lx
  || (negb (String.eqb lx "") && string_forall is_word lx).

(** [token_ok t]: the kind and the lexeme of [t] agree as the rule table
    pairs them, and the kind is one that the table can emit. *)
Definition token_ok (t : Token) : bool :=
  let (token_type, lx) := t in
  match token_type with
  | LBRACKET => String.eqb lx "["
  | RBRACKET => String.eqb lx "]"
  | LPAREN => String.eqb lx "("
  | RPAREN => String.eqb lx ")"
  | AND => String.eqb lx "&"
  | OR => String.eqb lx "|"
  | NOT => String.eqb lx "!"
  | EQUALS => String.eqb lx "="
  | STAR => String.eqb lx "*"
  | PLUS => String.eqb lx "+"
  | QUESTION => String.eqb lx "?"
  | AT => String.eqb lx "@"
  | COLON => String.eqb lx ":"
  | START_ASSERT => String.eqb lx "^"
  | END_ASSERT => String.eqb lx "$"
  | WORD => existsb (String.eqb lx) field_keywords
  | STRING => string_lexeme lx
  | WHITESPACE | NUMBER | CAPTURE_START | CAPTURE_END
  | LOOKAHEAD_START | LOOKAHEAD_END => false
  end.

(** [raises f p e]: with enough fuel, the production [f] called on the
    parser [p] raises [e]. *)
Definition raises {A} (f : nat -> M A) (p : Parser) (e : exn) : Prop :=
  exists n, f n p = Raise e.

(** [lexed l]: the tokens of [l] are as the lexer emits them. *)
Definition lexed (l : list Token) : Prop :=
  Forall (fun t => token_ok t = true) l.

(** [is_keyword n]: [n] is one of the eight field keywords. *)
Definition is_keyword (n : string) : bool :=
  existsb (String.eqb n) field_keywords.

(** [is_quantifier q]: [q] is one of the three quantifier symbols. *)
Definition is_quantifier (q : string) : bool :=
  existsb (String.eqb q) ["*"; "+"; "?"].

(** The trees of the constraint grammar: [Or], [And] and [Not] over field
    constraints, each a keyword with an [Exact] matcher whose literal is
    the lexeme of a string token. *)
Fixpoint wf_constraint (a : ASTNode) : bool :=
  match a with
  | Or l r => wf_constraint l && wf_constraint r
  | And l r => wf_constraint l && wf_constraint r
  | Not x => wf_constraint x
  | Field n (Exact lit) => is_keyword n && string_lexeme lit
  | _ => false
  end.

(** The trees of the pattern grammar: the constraint trees, [PyNone] for
    the empty bracket, alternations, sequences of two elements or more,
    quantified patterns with one of the three symbols, and mentions with
    no matcher or an [Exact] one.  No [Capture] node and no bare [Exact]
    node is among them. *)
Fixpoint wf_pattern (a : ASTNode) : bool :=
  match a with
  | PyNone => true
  | Or l r => wf_pattern l && wf_pattern r
  | And _ _ => wf_constraint a
  | Not _ => wf_constraint a
  | Field _ _ => wf_constraint a
  | Exact _ => false
  | Seq ps => (2 <=? List.length ps) && forallb wf_pattern ps
  | Quant x q => wf_pattern x && is_quantifier q
  | Mention PyNone => true
  | Mention (Exact lit) => string_lexeme lit
  | Mention _ => false
  | Capture _ _ => false
  end.

(** [keeps_at Q f l]: started on the tokens [l], the method [f] does not
    raise a TypeError, and when it returns, its value satisfies [Q] and
    the parser is left on a suffix of [l]. *)
Definition keeps_at {A} (Q : A -> Prop) (f : M A) (l : list Token) : Prop :=
  match f (new_parser l) with
  | Ok (a, p') => exists used l', l = used ++ l' /\ p' = new_parser l' /\ Q a
  | Raise (SyntaxError _) => True
  | Raise (TypeError _) => False
  | OutOfFuel => True
  end.

(** The name of the token at the head of [l] as [eat] prints it in its
    message: the kind, or [EOF] at the end of the input. *)
Definition got_name (l : list Token) : string :=
  match l with
  | (ty, _) :: _ => type_name ty
  | [] => "EOF"
  end.

(** The lexeme of the token at the head of [l] as [atomic_token_pattern]
    prints it in its message. *)
Definition shown_lexeme (l : list Token) : string :=
  match l with
  | (_, lexeme) :: _ => lexeme
  | [] => "EOF"
  end.

(** [emit ty lx r]: the result of the scan that emits the token [(ty, lx)],
    or skips it when it is white space, and goes on with the result [r]. *)
Definition emit (ty : TokenType) (lx : string) (r : result (list Token))
  : result (list Token) :=
  match r with
  | Ok toks => Ok (if TokenType_eqb ty WHITESPACE then toks else (ty, lx) :: toks)
  | Raise e => Raise e
  | OutOfFuel => OutOfFuel
  end.

(** [prepend acc r]: the result [r] with the tokens [acc] before its own. *)
Definition prepend (acc : list Token) (r : result (list Token))
  : result (list Token) :=
  match r with
  | Ok toks => Ok (acc ++ toks)
  | Raise e => Raise e
  | OutOfFuel => OutOfFuel
  end.

(** [lexes s r]: the loop of [tokenize], seen from the unread text [s]
    alone: from a position where [s] is what is left of the text, the scan
    ends with the tokens of [r], or with the error of [r]. *)
Inductive lexes : string -> result (list Token) -> Prop :=
| lexes_end : lexes "" (Ok [])
| lexes_fail c s :
    first_rule TOKEN_TYPES (String c s) = None ->
    lexes (String c s)
          (Raise (SyntaxError ("Unknown character: " ++ chr c)%string))
| lexes_step s ty lx rest r :
    s = (lx ++ rest)%string ->
    first_rule TOKEN_TYPES s = Some (ty, rest) ->
    lexes rest r ->
    lexes s (emit ty lx r).

(** [spaced s toks]: the text [s] is the lexemes of [toks], in order, with
    nothing but white space (possibly none) before, between and after
    them. *)
Inductive spaced : string -> list Token -> Prop :=
| spaced_end ws :
    string_forall is_space ws = true -> spaced ws []
| spaced_token ws ty lx rest toks :
    string_forall is_space ws = true ->
    spaced rest toks ->
    spaced (ws ++ lx ++ rest)%string ((ty, lx) :: toks).

(* ================================================================== *)
(** * Properties *)

(** ** Unfolding equations of the recursive productions *)

Lemma disjunctive_constraint_S n :
  disjunctive_constraint (S n) =
  (left <- conjunctive_constraint n ;; disjunctive_constraint_loop n left).
Proof. reflexivity. Qed.

Lemma disjunctive_constraint_loop_S n left :
  disjunctive_constraint_loop (S n) left =
  fun p =>
    if current_is OR p then
      (eat OR ;;;
       right <- conjunctive_constraint n ;;
       disjunctive_constraint_loop n (Or left right)) p
    else ret left p.
Proof. reflexivity. Qed.

Lemma conjunctive_constraint_S n :
  conjunctive_constraint (S n) =
  (left <- negated_constraint n ;; conjunctive_constraint_loop n left).
Proof. reflexivity. Qed.

Lemma conjunctive_constraint_loop_S n left :
  conjunctive_constraint_loop (S n) left =
  fun p =>
    if current_is AND p then
      (eat AND ;;;
       right <- negated_constraint n ;;
       conjunctive_constraint_loop n (And left right)) p
    else ret left p.
Proof. reflexivity. Qed.

Lemma negated_constraint_S n :
  negated_constraint (S n) =
  fun p =>
    if current_is NOT p then
      (eat NOT ;;; a <- atomic_constraint n ;; ret (Not a)) p
    else atomic_constraint n p.
Proof. reflexivity. Qed.

Lemma atomic_constraint_S n :
  atomic_constraint (S n) =
  fun p =>
    if current_is WORD p then field_constraint p
    else if current_is LPAREN p then
      (eat LPAREN ;;;
       disjunction <- disjunctive_constraint n ;;
       eat RPAREN ;;;
       ret disjunction) p
    else
      Raise (SyntaxError
               "Expected FieldConstraint or nested DisjunctiveConstraint").
Proof. reflexivity. Qed.

Lemma disjunctive_token_pattern_S n :
  disjunctive_token_pattern (S n) =
  (left <- concatenated_token_pattern n ;;
   disjunctive_token_pattern_loop n left).
Proof. reflexivity. Qed.

Lemma disjunctive_token_pattern_loop_S n left :
  disjunctive_token_pattern_loop (S n) left =
  fun p =>
    if current_is OR p then
      (eat OR ;;;
       right <- concatenated_token_pattern n ;;
       disjunctive_token_pattern_loop n (Or left right)) p
    else ret left p.
Proof. reflexivity. Qed.

Lemma concatenated_token_pattern_S n :
  concatenated_token_pattern (S n) =
  (first <- quantified_token_pattern n ;;
   patterns <- concatenated_token_pattern_loop n [first] ;;
   ret (seq_or_single patterns)).
Proof. reflexivity. Qed.

Lemma concatenated_token_pattern_loop_S n patterns :
  concatenated_token_pattern_loop (S n) patterns =
  fun p =>
    if current_in pattern_starters p then
      (next <- quantified_token_pattern n ;;
       concatenated_token_pattern_loop n (patterns ++ [next])) p
    else ret patterns p.
Proof. reflexivity. Qed.

Lemma quantified_token_pattern_S n :
  quantified_token_pattern (S n) =
  (atom <- atomic_token_pattern n ;;
   fun p =>
     if current_in quantifiers p then
       (quantifier <- current_lexeme ;;
        ty <- current_type ;;
        eat ty ;;;
        ret (Quant atom quantifier)) p
     else ret atom p).
Proof. reflexivity. Qed.

Lemma atomic_token_pattern_S n :
  atomic_token_pattern (S n) =
  fun p =>
    if current_is WORD p then field_constraint p
    else if current_is LBRACKET p then token_constraint n p
    else if current_is LPAREN p then
      (eat LPAREN ;;;
       pattern <- disjunctive_token_pattern n ;;
       eat RPAREN ;;;
       ret pattern) p
    else if current_is AT p then mention_token_pattern p
    else if current_is CAPTURE_START p then capture_token_pattern n p
    else
      let shown := match current_token p with
                   | Some (_, lexeme) => lexeme
                   | None => "EOF"
                   end in
      Raise (SyntaxError
               ("Unexpected token '" ++ shown ++ "' in AtomicTokenPattern")%string).
Proof. reflexivity. Qed.

Lemma capture_token_pattern_S n :
  capture_token_pattern (S n) =
  (eat CAPTURE_START ;;;
   capture_name <- current_lexeme ;;
   eat STRING ;;;
   eat CAPTURE_END ;;;
   pattern <- disjunctive_token_pattern n ;;
   ret (Capture capture_name pattern)).
Proof. reflexivity. Qed.

(** ** The result never gets worse with more fuel *)

Lemma res_le_refl {A} (r : result A) : res_le r r.
Proof. now right. Qed.

Lemma res_le_trans {A} (r1 r2 r3 : result A) :
  res_le r1 r2 -> res_le r2 r3 -> res_le r1 r3.
Proof.
  intros [H1 | H1] [H2 | H2]; subst; unfold res_le; auto.
Qed.

Lemma res_le_Ok {A} (r : result A) a : res_le (Ok a) r -> r = Ok a.
Proof. intros [H | H]; [discriminate | now symmetry]. Qed.

Lemma res_le_Raise {A} (r : result A) e : res_le (Raise e) r -> r = Raise e.
Proof. intros [H | H]; [discriminate | now symmetry]. Qed.

Lemma bind_le {A B} (m m' : M A) (k k' : A -> M B) p :
  res_le (m p) (m' p) ->
  (forall a q, res_le (k a q) (k' a q)) ->
  res_le (bind m k p) (bind m' k' p).
Proof.
  intros [H | H] Hk; unfold bind.
  - rewrite H. now left.
  - rewrite <- H. destruct (m p) as [[a q] | e |]; auto using res_le_refl.
Qed.

Lemma if_le {A} (c : bool) (r1 r1' r2 r2' : result A) :
  res_le r1 r1' -> res_le r2 r2' ->
  res_le (if c then r1 else r2) (if c then r1' else r2').
Proof. now destruct c. Qed.

Ltac le_step :=
  first [ apply res_le_refl
        | assumption
        | apply if_le
        | apply bind_le; [ | intros ? ? ] ].

Lemma constraint_fuel_succ n :
  (forall p, res_le (disjunctive_constraint n p)
                    (disjunctive_constraint (S n) p)) /\
  (forall l p, res_le (disjunctive_constraint_loop n l p)
                      (disjunctive_constraint_loop (S n) l p)) /\
  (forall p, res_le (conjunctive_constraint n p)
                    (conjunctive_constraint (S n) p)) /\
  (forall l p, res_le (conjunctive_constraint_loop n l p)
                      (conjunctive_constraint_loop (S n) l p)) /\
  (forall p, res_le (negated_constraint n p)
                    (negated_constraint (S n) p)) /\
  (forall p, res_le (atomic_constraint n p)
                    (atomic_constraint (S n) p)).
Proof.
  induction n as [| n (IHd & IHdl & IHc & IHcl & IHn & IHa)].
  - repeat split; intros; now left.
  - repeat split; intros.
    + rewrite !disjunctive_constraint_S. repeat le_step; auto.
    + rewrite !disjunctive_constraint_loop_S. repeat le_step; auto.
    + rewrite !conjunctive_constraint_S. repeat le_step; auto.
    + rewrite !conjunctive_constraint_loop_S. repeat le_step; auto.
    + rewrite !negated_constraint_S. repeat le_step; auto.
    + rewrite !atomic_constraint_S. repeat le_step; auto.
Qed.

Lemma token_constraint_fuel_succ n p :
  res_le (token_constraint n p) (token_constraint (S n) p).
Proof.
  unfold token_constraint. repeat le_step.
  apply (constraint_fuel_succ n).
Qed.

Lemma pattern_fuel_succ n :
  (forall p, res_le (disjunctive_token_pattern n p)
                    (disjunctive_token_pattern (S n) p)) /\
  (forall l p, res_le (disjunctive_token_pattern_loop n l p)
                      (disjunctive_token_pattern_loop (S n) l p)) /\
  (forall p, res_le (concatenated_token_pattern n p)
                    (concatenated_token_pattern (S n) p)) /\
  (forall l p, res_le (concatenated_token_pattern_loop n l p)
                      (concatenated_token_pattern_loop (S n) l p)) /\
  (forall p, res_le (quantified_token_pattern n p)
                    (quantified_token_pattern (S n) p)) /\
  (forall p, res_le (atomic_token_pattern n p)
                    (atomic_token_pattern (S n) p)) /\
  (forall p, res_le (capture_token_pattern n p)
                    (capture_token_pattern (S n) p)).
Proof.
  induction n as [| n (IHd & IHdl & IHc & IHcl & IHq & IHa & IHk)].
  - repeat split; intros; now left.
  - repeat split; intros.
    + rewrite !disjunctive_token_pattern_S. repeat le_step; auto.
    + rewrite !disjunctive_token_pattern_loop_S. repeat le_step; auto.
    + rewrite !concatenated_token_pattern_S. repeat le_step; auto.
    + rewrite !concatenated_token_pattern_loop_S. repeat le_step; auto.
    + rewrite !quantified_token_pattern_S. repeat le_step; auto.
    + rewrite !atomic_token_pattern_S.
      repeat first [apply token_constraint_fuel_succ | le_step]; auto.
    + rewrite !capture_token_pattern_S. repeat le_step; auto.
Qed.

Lemma fuel_monotone_of_succ {A} (f : nat -> M A) :
  (forall n p, res_le (f n p) (f (S n) p)) -> fuel_monotone f.
Proof.
  intros Hs n m p Hle. induction Hle as [| m _ IH].
  - apply res_le_refl.
  - eapply res_le_trans; [exact IH | apply Hs].
Qed.

Lemma mono_disjunctive_constraint : fuel_monotone disjunctive_constraint.
Proof. apply fuel_monotone_of_succ. intros n; apply (constraint_fuel_succ n). Qed.

Lemma mono_conjunctive_constraint : fuel_monotone conjunctive_constraint.
Proof. apply fuel_monotone_of_succ. intros n; apply (constraint_fuel_succ n). Qed.

Lemma mono_negated_constraint : fuel_monotone negated_constraint.
Proof. apply fuel_monotone_of_succ. intros n; apply (constraint_fuel_succ n). Qed.

Lemma mono_atomic_constraint : fuel_monotone atomic_constraint.
Proof. apply fuel_monotone_of_succ. intros n; apply (constraint_fuel_succ n). Qed.

Lemma mono_token_constraint : fuel_monotone token_constraint.
Proof. apply fuel_monotone_of_succ. intros n; apply token_constraint_fuel_succ. Qed.

Lemma mono_disjunctive_token_pattern : fuel_monotone disjunctive_token_pattern.
Proof. apply fuel_monotone_of_succ. intros n; apply (pattern_fuel_succ n). Qed.

Lemma mono_concatenated_token_pattern :
  fuel_monotone concatenated_token_pattern.
Proof. apply fuel_monotone_of_succ. intros n; apply (pattern_fuel_succ n). Qed.

Lemma mono_quantified_token_pattern : fuel_monotone quantified_token_pattern.
Proof. apply fuel_monotone_of_succ. intros n; apply (pattern_fuel_succ n). Qed.

Lemma mono_atomic_token_pattern : fuel_monotone atomic_token_pattern.
Proof. apply fuel_monotone_of_succ. intros n; apply (pattern_fuel_succ n). Qed.

Lemma returns_at {A} (f : nat -> M A) p a p' n m :
  fuel_monotone f -> f n p = Ok (a, p') -> n <= m -> f m p = Ok (a, p').
Proof.
  intros Hm H Hle. specialize (Hm n m p Hle). rewrite H in Hm.
  now apply res_le_Ok in Hm.
Qed.

Lemma returns_deterministic {A} (f : nat -> M A) p a1 p1 a2 p2 :
  fuel_monotone f ->
  returns f p a1 p1 -> returns f p a2 p2 -> a1 = a2 /\ p1 = p2.
Proof.
  intros Hm [n1 H1] [n2 H2].
  apply returns_at with (m := max n1 n2) in H1; [| exact Hm | lia].
  apply returns_at with (m := max n1 n2) in H2; [| exact Hm | lia].
  rewrite H1 in H2. now inversion H2.
Qed.

(** ** The parser as a cursor on the token list *)

(** Every parser state that occurs is [new_parser l] for the list [l] of
    the tokens not yet consumed, look-ahead included. *)

Lemma new_parser_cons t l : new_parser (t :: l) = mkParser l (Some t).
Proof. reflexivity. Qed.

Lemma new_parser_nil : new_parser [] = mkParser [] None.
Proof. reflexivity. Qed.

Lemma advance_new_parser t l : advance (new_parser (t :: l)) = new_parser l.
Proof. reflexivity. Qed.

Lemma new_parser_inj l1 l2 : new_parser l1 = new_parser l2 -> l1 = l2.
Proof.
  destruct l1, l2; cbn; intros H; inversion H; reflexivity.
Qed.

Lemma TokenType_eqb_eq a b : TokenType_eqb a b = true <-> a = b.
Proof.
  split.
  - destruct a, b; cbn; intros H; first [reflexivity | discriminate H].
  - intros ->. now destruct b.
Qed.

Lemma TokenType_eqb_refl a : TokenType_eqb a a = true.
Proof. now apply TokenType_eqb_eq. Qed.

Lemma TokenType_eqb_neq a b : a <> b -> TokenType_eqb a b = false.
Proof.
  intros H. destruct (TokenType_eqb a b) eqn:E; [| reflexivity].
  apply TokenType_eqb_eq in E. contradiction.
Qed.

Lemma current_is_cons ty ty' lx l :
  current_is ty (new_parser ((ty', lx) :: l)) = TokenType_eqb ty' ty.
Proof. reflexivity. Qed.

Lemma current_is_nil ty : current_is ty (new_parser []) = false.
Proof. reflexivity. Qed.

Lemma current_in_cons tys ty' lx l :
  current_in tys (new_parser ((ty', lx) :: l)) =
  existsb (TokenType_eqb ty') tys.
Proof. reflexivity. Qed.

Lemma current_in_nil tys : current_in tys (new_parser []) = false.
Proof. unfold current_in. induction tys; cbn; auto. Qed.

Lemma eat_cons ty lx l : eat ty (new_parser ((ty, lx) :: l)) = Ok (tt, new_parser l).
Proof.
  unfold eat. rewrite current_is_cons, TokenType_eqb_refl. reflexivity.
Qed.

Lemma eat_Ok ty l u p' :
  eat ty (new_parser l) = Ok (u, p') ->
  exists lx l', l = (ty, lx) :: l' /\ p' = new_parser l'.
Proof.
  unfold eat. destruct l as [| [ty' lx] l'].
  - cbn. discriminate.
  - rewrite current_is_cons. destruct (TokenType_eqb ty' ty) eqn:E.
    + apply TokenType_eqb_eq in E. subst. cbn. intros H. inversion H.
      now exists lx, l'.
    + discriminate.
Qed.

(** ** Totality: the fuel of the entry points is enough *)

Lemma progresses_bind {A B} k1 k2 k l (m : M A) (f : A -> M B) :
  progresses k1 l (m (new_parser l)) ->
  (forall a l', List.length l' + k1 <= List.length l ->
                progresses k2 l' (f a (new_parser l'))) ->
  k <= k1 + k2 ->
  progresses k l (bind m f (new_parser l)).
Proof.
  unfold bind, progresses at 1. intros Hm Hf Hk.
  destruct (m (new_parser l)) as [[a p'] | e |]; cbn; auto.
  destruct Hm as (l' & -> & Hlen).
  specialize (Hf a l' Hlen). unfold progresses in *.
  destruct (f a (new_parser l')) as [[b p''] | e |]; auto.
  destruct Hf as (l'' & -> & Hlen'). exists l''. split; [reflexivity | lia].
Qed.

Lemma progresses_ret {A} (a : A) l : progresses 0 l (ret a (new_parser l)).
Proof. cbn. exists l. split; [reflexivity | lia]. Qed.

Lemma progresses_eat ty l : progresses 1 l (eat ty (new_parser l)).
Proof.
  unfold eat. destruct l as [| [ty' lx] l'].
  - cbn. exact I.
  - rewrite current_is_cons. destruct (TokenType_eqb ty' ty); cbn; [| exact I].
    exists l'. split; [reflexivity | lia].
Qed.

Lemma progresses_current_lexeme l :
  progresses 0 l (current_lexeme (new_parser l)).
Proof.
  destruct l as [| [ty lx] l']; cbn; [exact I |].
  exists ((ty, lx) :: l'). split; [reflexivity | cbn; lia].
Qed.

Lemma progresses_current_type l :
  progresses 0 l (current_type (new_parser l)).
Proof.
  destruct l as [| [ty lx] l']; cbn; [exact I |].
  exists ((ty, lx) :: l'). split; [reflexivity | cbn; lia].
Qed.

Lemma progresses_weaken {A} k k' l (r : result (A * Parser)) :
  progresses k l r -> k' <= k -> progresses k' l r.
Proof.
  unfold progresses. destruct r as [[a p] | e |]; auto.
  intros (l' & -> & Hl) Hk. exists l'. split; [reflexivity | lia].
Qed.

Lemma progresses_bind_sub {A B} k1 k l (m : M A) (f : A -> M B) :
  progresses k1 l (m (new_parser l)) ->
  (forall a l', List.length l' + k1 <= List.length l ->
                progresses (k - k1) l' (f a (new_parser l'))) ->
  progresses k l (bind m f (new_parser l)).
Proof.
  intros Hm Hf. eapply progresses_bind with (k1 := k1) (k2 := k - k1).
  - exact Hm.
  - exact Hf.
  - lia.
Qed.

Lemma progresses_if {A} k l (c : bool) (r1 r2 : result (A * Parser)) :
  progresses k l r1 -> progresses k l r2 ->
  progresses k l (if c then r1 else r2).
Proof. now destruct c. Qed.

(** Leaves of a progress proof: the primitive operations, a production
    already treated, or an induction hypothesis. *)
Ltac prog_leaf :=
  first [ apply progresses_ret
        | apply progresses_eat
        | apply progresses_current_lexeme
        | apply progresses_current_type
        | match goal with
          | H : context [progresses] |- _ => solve [apply H; lia]
          end ].

Ltac prog :=
  repeat
    first [ exact I
          | solve [eapply progresses_weaken; [prog_leaf | lia]]
          | progress cbv beta
          | apply progresses_if
          | eapply progresses_bind_sub; [ solve [prog_leaf] | intros ? ? ? ]
          | eapply progresses_bind_sub with (k1 := 0);
              [ solve [prog] | intros ? ? ? ] ].

Lemma progresses_string_matcher l :
  progresses 1 l (string_matcher (new_parser l)).
Proof. unfold string_matcher. prog. Qed.

Lemma progresses_field_constraint l :
  progresses 1 l (field_constraint (new_parser l)).
Proof.
  pose proof progresses_string_matcher. unfold field_constraint. prog.
Qed.

Lemma progresses_mention_token_pattern l :
  progresses 1 l (mention_token_pattern (new_parser l)).
Proof.
  pose proof progresses_string_matcher. unfold mention_token_pattern. prog.
Qed.

Lemma progresses_token_constraint fuel l :
  (forall l', 4 * List.length l' + 4 <= fuel ->
              progresses 1 l' (disjunctive_constraint fuel (new_parser l'))) ->
  4 * List.length l <= fuel ->
  progresses 1 l (token_constraint fuel (new_parser l)).
Proof. intros Hd Hf. unfold token_constraint. prog. Qed.

Lemma constraint_progress fuel :
  (forall l, 4 * List.length l + 4 <= fuel ->
     progresses 1 l (disjunctive_constraint fuel (new_parser l))) /\
  (forall left l, 4 * List.length l + 4 <= fuel ->
     progresses 0 l (disjunctive_constraint_loop fuel left (new_parser l))) /\
  (forall l, 4 * List.length l + 3 <= fuel ->
     progresses 1 l (conjunctive_constraint fuel (new_parser l))) /\
  (forall left l, 4 * List.length l + 3 <= fuel ->
     progresses 0 l (conjunctive_constraint_loop fuel left (new_parser l))) /\
  (forall l, 4 * List.length l + 2 <= fuel ->
     progresses 1 l (negated_constraint fuel (new_parser l))) /\
  (forall l, 4 * List.length l + 1 <= fuel ->
     progresses 1 l (atomic_constraint fuel (new_parser l))).
Proof.
  pose proof progresses_field_constraint as Hfield.
  induction fuel as [| n (IHd & IHdl & IHc & IHcl & IHn & IHa)].
  - repeat split; intros; lia.
  - repeat split; intros.
    + rewrite disjunctive_constraint_S. prog.
    + rewrite disjunctive_constraint_loop_S. prog.
    + rewrite conjunctive_constraint_S. prog.
    + rewrite conjunctive_constraint_loop_S. prog.
    + rewrite negated_constraint_S. prog.
    + rewrite atomic_constraint_S. prog.
Qed.

Lemma pattern_progress fuel :
  (forall l, 4 * List.length l + 5 <= fuel ->
     progresses 1 l (disjunctive_token_pattern fuel (new_parser l))) /\
  (forall left l, 4 * List.length l + 5 <= fuel ->
     progresses 0 l (disjunctive_token_pattern_loop fuel left (new_parser l))) /\
  (forall l, 4 * List.length l + 4 <= fuel ->
     progresses 1 l (concatenated_token_pattern fuel (new_parser l))) /\
  (forall ps l, 4 * List.length l + 4 <= fuel ->
     progresses 0 l (concatenated_token_pattern_loop fuel ps (new_parser l))) /\
  (forall l, 4 * List.length l + 3 <= fuel ->
     progresses 1 l (quantified_token_pattern fuel (new_parser l))) /\
  (forall l, 4 * List.length l + 2 <= fuel ->
     progresses 1 l (atomic_token_pattern fuel (new_parser l))) /\
  (forall l, 4 * List.length l + 1 <= fuel ->
     progresses 1 l (capture_token_pattern fuel (new_parser l))).
Proof.
  pose proof progresses_field_constraint as Hfield.
  pose proof progresses_mention_token_pattern as Hmention.
  induction fuel as [| n (IHd & IHdl & IHc & IHcl & IHq & IHa & IHk)].
  - repeat split; intros; lia.
  - assert (Htc : forall l, 4 * List.length l <= n ->
                progresses 1 l (token_constraint n (new_parser l))).
    { intros. apply progresses_token_constraint; [| assumption].
      apply (constraint_progress n). }
    repeat split; intros.
    + rewrite disjunctive_token_pattern_S. prog.
    + rewrite disjunctive_token_pattern_loop_S. prog.
    + rewrite concatenated_token_pattern_S. prog.
    + rewrite concatenated_token_pattern_loop_S. prog.
    + rewrite quantified_token_pattern_S. prog.
    + rewrite atomic_token_pattern_S. prog.
    + rewrite capture_token_pattern_S. prog.
Qed.

(** The pattern parser, run with [parse_fuel], always returns or raises. *)
Theorem parse_tokens_total lexer_tokens :
  parse_tokens lexer_tokens <> OutOfFuel.
Proof.
  unfold parse_tokens, parse_token_pattern, parse_fuel.
  pose proof (proj1 (pattern_progress (4 * List.length lexer_tokens + 5))
                lexer_tokens (le_n _)) as H.
  destruct (disjunctive_token_pattern _ _) as [[a p] | e |];
    [discriminate | discriminate | destruct H].
Qed.

(** ** The lexer seen from the text still unread *)

Lemma string_drop_length pos s :
  String.length (string_drop pos s) = String.length s - pos.
Proof.
  revert s. induction pos as [| n IH]; intros s; cbn.
  - lia.
  - destruct s as [| c s']; cbn; [reflexivity | apply IH].
Qed.

Lemma string_drop_app pre s :
  string_drop (String.length pre) (pre ++ s)%string = s.
Proof. induction pre as [| c pre IH]; cbn; auto. Qed.

Lemma string_drop_add n m s :
  string_drop (n + m) s = string_drop m (string_drop n s).
Proof.
  revert s. induction n as [| n IH]; intros s; cbn; [reflexivity |].
  destruct s as [| c s']; [| apply IH].
  destruct m; reflexivity.
Qed.

Lemma substring_drop pos n s :
  substring pos n s = substring 0 n (string_drop pos s).
Proof.
  revert s. induction pos as [| p IH]; intros s; cbn; [reflexivity |].
  destruct s as [| c s']; cbn.
  - destruct n; reflexivity.
  - apply IH.
Qed.

Lemma substring_prefix pre s :
  substring 0 (String.length pre) (pre ++ s)%string = pre.
Proof.
  induction pre as [| c pre IH]; cbn.
  - destruct s; reflexivity.
  - now rewrite IH.
Qed.

Lemma app_length_string (a b : string) :
  String.length (a ++ b)%string = String.length a + String.length b.
Proof. induction a as [| c a IH]; cbn; auto. Qed.

Lemma app_assoc_string (a b c : string) :
  ((a ++ b) ++ c = a ++ (b ++ c))%string.
Proof. induction a as [| x a IH]; cbn; [reflexivity | now rewrite IH]. Qed.

Lemma match_lit_split l s s' :
  match_lit l s = Some s' -> s = (l ++ s')%string.
Proof.
  revert s. induction l as [| a l IH]; intros s; cbn.
  - now intros [= ->].
  - destruct s as [| c s0]; [discriminate |].
    destruct (Ascii.eqb a c) eqn:E; [| discriminate].
    apply Ascii.eqb_eq in E. subst. intros H. apply IH in H. now subst.
Qed.

Lemma match_lit_app l s : match_lit l (l ++ s)%string = Some s.
Proof.
  induction l as [| a l IH]; cbn; [reflexivity |].
  now rewrite Ascii.eqb_refl.
Qed.

Lemma star_greedy_split p s k x :
  star_greedy p s k = Some x ->
  exists pre s', s = (pre ++ s')%string /\ k s' = Some x.
Proof.
  revert x. induction s as [| c s IH]; intros x; cbn.
  - intros H. now exists ""%string, ""%string.
  - destruct (p c).
    + destruct (star_greedy p s k) as [r |] eqn:E.
      * intros [= ->]. destruct (IH x eq_refl) as (pre & s' & -> & Hk).
        now exists (String c pre), s'.
      * intros H. now exists ""%string, (String c s).
    + intros H. now exists ""%string, (String c s).
Qed.

Lemma star_lazy_split p s k x :
  star_lazy p s k = Some x ->
  exists pre s', s = (pre ++ s')%string /\ k s' = Some x.
Proof.
  revert x. induction s as [| c s IH]; intros x; cbn.
  - destruct (k ""%string) eqn:E; [| discriminate].
    intros [= ->]. now exists ""%string, ""%string.
  - destruct (k (String c s)) eqn:E.
    + intros [= ->]. now exists ""%string, (String c s).
    + destruct (p c); [| discriminate].
      intros H. destruct (IH x H) as (pre & s' & -> & Hk).
      now exists (String c pre), s'.
Qed.

(** A match hands to its continuation a suffix of the text, a proper one
    when the expression consumes. *)
Lemma rmatch_split r : forall s k x,
  rmatch r s k = Some x ->
  exists pre s', s = (pre ++ s')%string /\ k s' = Some x /\
                 (consumes r = true -> pre <> ""%string).
Proof.
  induction r as [l | c | c | r1 IH1 r2 IH2 | r1 IH1 r2 IH2];
    intros s k x; cbn.
  - destruct (match_lit l s) as [s' |] eqn:E; [| discriminate].
    intros Hk. apply match_lit_split in E. exists l, s'.
    repeat split; auto. destruct l; cbn; [discriminate | intros _; discriminate].
  - destruct s as [| a s]; [discriminate |].
    destruct (in_class c a); [| discriminate].
    intros H. apply star_greedy_split in H as (pre & s' & -> & Hk).
    exists (String a pre), s'. repeat split; auto. discriminate.
  - intros H. apply star_lazy_split in H as (pre & s' & -> & Hk).
    exists pre, s'. repeat split; auto. discriminate.
  - destruct (rmatch r1 s k) as [y |] eqn:E.
    + intros [= ->]. destruct (IH1 _ _ _ E) as (pre & s' & -> & Hk & Hc).
      exists pre, s'. repeat split; auto.
      intros H. apply andb_true_iff in H. tauto.
    + intros H. destruct (IH2 _ _ _ H) as (pre & s' & -> & Hk & Hc).
      exists pre, s'. repeat split; auto.
      intros H'. apply andb_true_iff in H'. tauto.
  - intros H. destruct (IH1 _ _ _ H) as (pre1 & s1 & -> & Hk1 & Hc1).
    destruct (IH2 _ _ _ Hk1) as (pre2 & s2 & -> & Hk2 & Hc2).
    exists (pre1 ++ pre2)%string, s2. repeat split; auto.
    + now rewrite app_assoc_string.
    + intros H'. apply orb_true_iff in H'.
      destruct pre1; cbn; [| discriminate]. destruct H' as [H' | H']; auto.
      now specialize (Hc1 H').
Qed.

Lemma first_match_first_rule rules text pos :
  first_match rules text pos =
  match first_rule rules (string_drop pos text) with
  | Some (ty, rest) => Some (ty, String.length text - String.length rest)
  | None => None
  end.
Proof.
  induction rules as [| [ty r] rules IH]; cbn; [reflexivity |].
  unfold re_match.
  destruct (rmatch r (string_drop pos text) _); [reflexivity | apply IH].
Qed.

Lemma first_rule_split rules s ty rest :
  forallb (fun tr => consumes (snd tr)) rules = true ->
  first_rule rules s = Some (ty, rest) ->
  exists pre, s = (pre ++ rest)%string /\ pre <> ""%string.
Proof.
  induction rules as [| [ty' r] rules IH]; cbn; [discriminate |].
  intros Hall. apply andb_true_iff in Hall as [Hr Hall].
  destruct (rmatch r s _) as [x |] eqn:E.
  - intros [= -> ->]. apply rmatch_split in E as (pre & s' & -> & Hk & Hc).
    inversion Hk; subst. exists pre. auto.
  - now apply IH.
Qed.

Lemma TOKEN_TYPES_consume :
  forallb (fun tr => consumes (snd tr)) TOKEN_TYPES = true.
Proof. reflexivity. Qed.

(** One turn of the [while] loop, on the unread text: a rule matches the
    non-empty [lexeme] and the scan goes on after it. *)
Lemma first_match_step text pos ty lexeme rest :
  string_drop pos text = (lexeme ++ rest)%string ->
  first_rule TOKEN_TYPES (lexeme ++ rest)%string = Some (ty, rest) ->
  lexeme <> ""%string /\
  pos < String.length text /\
  first_match TOKEN_TYPES text pos = Some (ty, pos + String.length lexeme) /\
  substring pos (pos + String.length lexeme - pos) text = lexeme /\
  string_drop (pos + String.length lexeme) text = rest.
Proof.
  intros E H.
  destruct (first_rule_split _ _ _ _ TOKEN_TYPES_consume H) as (pre & E' & Hne).
  assert (Hpre : String.length pre = String.length lexeme).
  { apply (f_equal String.length) in E'. rewrite !app_length_string in E'. lia. }
  assert (Hlx : lexeme <> ""%string).
  { destruct lexeme; [| discriminate]. destruct pre; [contradiction | discriminate]. }
  assert (Hlen : String.length text - pos = String.length lexeme + String.length rest).
  { rewrite <- string_drop_length, E. apply app_length_string. }
  assert (Hpos : pos < String.length text).
  { destruct lexeme; [contradiction | cbn in Hlen; lia]. }
  repeat split; auto.
  - rewrite first_match_first_rule, E, H. f_equal. f_equal. lia.
  - replace (pos + String.length lexeme - pos) with (String.length lexeme) by lia.
    rewrite substring_drop, E. apply substring_prefix.
  - rewrite string_drop_add, E. apply string_drop_app.
Qed.

Lemma first_match_None text pos :
  first_rule TOKEN_TYPES (string_drop pos text) = None ->
  first_match TOKEN_TYPES text pos = None.
Proof. intros H. now rewrite first_match_first_rule, H. Qed.

Lemma first_match_inv text pos ty e :
  first_match TOKEN_TYPES text pos = Some (ty, e) ->
  exists lexeme rest,
    first_rule TOKEN_TYPES (string_drop pos text) = Some (ty, rest) /\
    string_drop pos text = (lexeme ++ rest)%string /\
    lexeme <> ""%string /\
    pos < String.length text /\
    e = pos + String.length lexeme /\
    substring pos (e - pos) text = lexeme /\
    string_drop e text = rest.
Proof.
  intros H. pose proof H as H0. rewrite first_match_first_rule in H.
  destruct (first_rule TOKEN_TYPES (string_drop pos text)) as [[ty' rest] |] eqn:E;
    [| discriminate].
  assert (ty' = ty) by congruence. subst ty'. clear H.
  destruct (first_rule_split _ _ _ _ TOKEN_TYPES_consume E) as (lx & E1 & _).
  rewrite E1 in E.
  destruct (first_match_step _ _ _ _ _ E1 E) as (Hne & Hpos & Hfm & Hsub & Hdrop).
  rewrite Hfm in H0. assert (He : e = pos + String.length lx) by congruence.
  subst e. exists lx, rest. rewrite E1. repeat split; auto.
Qed.

(** One turn of [tokenize_loop] that emits or skips a lexeme. *)
Lemma tokenize_loop_step text pos ty lexeme rest fuel acc :
  string_drop pos text = (lexeme ++ rest)%string ->
  first_rule TOKEN_TYPES (lexeme ++ rest)%string = Some (ty, rest) ->
  tokenize_loop (S fuel) text pos acc =
  tokenize_loop fuel text (pos + String.length lexeme)
    (if TokenType_eqb ty WHITESPACE then acc else acc ++ [(ty, lexeme)]).
Proof.
  intros E H.
  destruct (first_match_step _ _ _ _ _ E H) as (Hne & Hpos & Hfm & Hsub & Hdrop).
  cbn [tokenize_loop]. apply Nat.ltb_lt in Hpos. rewrite Hpos, Hfm, Hsub.
  reflexivity.
Qed.

Lemma char_at_drop text pos c rest :
  string_drop pos text = String c rest -> char_at text pos = chr c.
Proof.
  intros E. unfold char_at. rewrite substring_drop, E. cbn.
  destruct rest; reflexivity.
Qed.

(** The turn of [tokenize_loop] that raises. *)
Lemma tokenize_loop_fail text pos c rest fuel acc :
  string_drop pos text = String c rest ->
  first_rule TOKEN_TYPES (String c rest) = None ->
  tokenize_loop (S fuel) text pos acc =
  Raise (SyntaxError ("Unknown character: " ++ chr c)%string).
Proof.
  intros E H. cbn [tokenize_loop].
  assert (Hpos : pos < String.length text).
  { pose proof (string_drop_length pos text) as Hl. rewrite E in Hl.
    cbn in Hl. lia. }
  apply Nat.ltb_lt in Hpos. rewrite Hpos.
  rewrite first_match_None by (now rewrite E).
  now rewrite (char_at_drop _ _ _ _ E).
Qed.

(** ** Totality of the lexer *)

Lemma tokenize_loop_total text : forall fuel pos acc,
  String.length text - pos < fuel ->
  tokenize_loop fuel text pos acc <> OutOfFuel.
Proof.
  induction fuel as [| n IH]; intros pos acc Hf; [lia |].
  cbn [tokenize_loop].
  destruct (pos <? String.length text) eqn:Hlt; [| discriminate].
  apply Nat.ltb_lt in Hlt.
  destruct (first_match TOKEN_TYPES text pos) as [[ty e] |] eqn:E;
    [| discriminate].
  apply first_match_inv in E as (lx & rest & _ & _ & Hne & _ & -> & _ & _).
  apply IH. destruct lx; [contradiction | cbn; lia].
Qed.

Theorem tokenize_total text : tokenize text <> OutOfFuel.
Proof. apply tokenize_loop_total. lia. Qed.

Theorem parse_text_total text : parse_text text <> OutOfFuel.
Proof.
  unfold parse_text. pose proof (tokenize_total text) as H.
  destruct (tokenize text); [apply parse_tokens_total | discriminate | contradiction].
Qed.

(** ** Rules shadowed by an earlier rule of the table *)

Lemma star_greedy_Some p s : exists rest, star_greedy p s (fun r => Some r) = Some rest.
Proof.
  induction s as [| c s [rest IH]]; cbn; [now eexists |].
  destruct (p c); [rewrite IH |]; now eexists.
Qed.

Lemma is_digit_is_word c : is_digit c = true -> is_word c = true.
Proof. unfold is_digit, is_word. now intros ->. Qed.

(** Where [\d+] matches, so does the string-literal rule. *)
Lemma digits_match_STRING s k x :
  rmatch (Plus cls_d) s k = Some x ->
  rmatch STRING_re s (fun r => Some r) <> None.
Proof.
  destruct s as [| c s]; cbn [rmatch]; [discriminate |].
  cbn [in_class]. destruct (is_digit c) eqn:Hd; [| discriminate].
  intros _. apply is_digit_is_word in Hd. unfold STRING_re. cbn [rmatch].
  destruct (match_lit (chr dquote) (String c s)); [destruct (star_lazy _ _ _) |];
    try discriminate;
    (destruct (match_lit (chr squote) (String c s)); [destruct (star_lazy _ _ _) |];
     try discriminate);
    cbn [in_class]; rewrite Hd;
    destruct (star_greedy_Some (in_class cls_w) s) as [r ->]; discriminate.
Qed.

(** Where a rule that opens with a parenthesis matches, so does [\(]. *)
Lemma paren_openers_match_LPAREN s :
  rmatch (Lit "(") s (fun r => Some r) = None ->
  rmatch (Lit "(?<") s (fun r => Some r) = None /\
  rmatch (Alt (Lit "(?=") (Lit "(?!")) s (fun r => Some r) = None.
Proof.
  destruct s as [| c s]; cbn [rmatch match_lit]; [auto |].
  destruct (Ascii.eqb "(" c); [discriminate | auto].
Qed.

Lemma first_rule_cons_inv ty0 r rules s ty rest :
  first_rule ((ty0, r) :: rules) s = Some (ty, rest) ->
  (rmatch r s (fun x => Some x) = Some rest /\ ty = ty0) \/
  (rmatch r s (fun x => Some x) = None /\
   first_rule rules s = Some (ty, rest)).
Proof.
  cbn [first_rule]. destruct (rmatch r s _) as [x |].
  - intros [= -> ->]. now left.
  - intros H. now right.
Qed.

(** Two hypotheses give the same match both a result and none. *)
Ltac clash :=
  match goal with
  | H1 : ?x = None, H2 : ?x = Some _ |- _ =>
      rewrite H1 in H2; discriminate H2
  end.

(** How a shadowed rule contradicts the failure of the rule before it. *)
Ltac shadowed :=
  exfalso;
  first [ eapply digits_match_STRING; eassumption
        | clash
        | match goal with
          | H : rmatch (Lit "(") _ _ = None |- _ =>
              apply paren_openers_match_LPAREN in H; destruct H; clash
          end ].

(** The rule that wins is never one of the five rules that an earlier rule
    of the table shadows. *)
Lemma first_rule_reachable s ty rest :
  first_rule TOKEN_TYPES s = Some (ty, rest) ->
  ty <> NUMBER /\ ty <> CAPTURE_START /\ ty <> CAPTURE_END /\
  ty <> LOOKAHEAD_START /\ ty <> LOOKAHEAD_END.
Proof.
  intros H. unfold TOKEN_TYPES in H.
  repeat (let E := fresh "E" in
          apply first_rule_cons_inv in H as [[E ->] | [E H]];
          [ first [ solve [repeat split; discriminate] | solve [shadowed] ] | ]).
  discriminate H.
Qed.

(** ** Scan positions *)

Lemma scan_reaches_loop text pos toks :
  scan_reaches text pos toks ->
  exists fuel,
    String.length text - pos < fuel /\
    tokenize text = tokenize_loop fuel text pos toks.
Proof.
  induction 1 as [| pos toks ty e _ (fuel & Hf & IH) Hpos Hfm].
  - exists (S (String.length text)). split; [lia | reflexivity].
  - destruct fuel as [| fuel]; [lia |]. exists fuel.
    pose proof Hfm as Hinv.
    apply first_match_inv in Hinv as (lx & rest & _ & _ & Hne & _ & -> & _ & _).
    split.
    + destruct lx; [contradiction | cbn; lia].
    + rewrite IH. cbn [tokenize_loop]. apply Nat.ltb_lt in Hpos.
      now rewrite Hpos, Hfm.
Qed.

(** Every token the loop adds comes from a rule that is not shadowed. *)
Lemma tokenize_loop_types (P : TokenType -> Prop) text :
  (forall pos ty e, first_match TOKEN_TYPES text pos = Some (ty, e) -> P ty) ->
  forall fuel pos acc toks,
    Forall (fun t => P (fst t)) acc ->
    tokenize_loop fuel text pos acc = Ok toks ->
    Forall (fun t => P (fst t)) toks.
Proof.
  intros HP. induction fuel as [| n IH]; intros pos acc toks Hacc; cbn [tokenize_loop];
    [discriminate |].
  destruct (pos <? String.length text).
  - destruct (first_match TOKEN_TYPES text pos) as [[ty e] |] eqn:E; [| discriminate].
    apply IH. destruct (TokenType_eqb ty WHITESPACE); [assumption |].
    apply Forall_app. split; [assumption |].
    constructor; [| constructor]. cbn. eapply HP; eauto.
  - now intros [= <-].
Qed.

Lemma first_match_reachable text pos ty e :
  first_match TOKEN_TYPES text pos = Some (ty, e) ->
  ty <> NUMBER /\ ty <> CAPTURE_START /\ ty <> CAPTURE_END /\
  ty <> LOOKAHEAD_START /\ ty <> LOOKAHEAD_END.
Proof.
  intros H. apply first_match_inv in H as (lx & rest & H & _).
  now apply first_rule_reachable in H.
Qed.

(** ** Texts that open with a word character *)

(** A word character is no white space and none of the one-character
    lexemes or quotes that the rules before [\w+] look for. *)
Lemma word_char_other_rules c :
  is_word c = true ->
  is_space c = false /\
  Ascii.eqb "[" c = false /\ Ascii.eqb "]" c = false /\
  Ascii.eqb "(" c = false /\ Ascii.eqb ")" c = false /\
  Ascii.eqb "&" c = false /\ Ascii.eqb "|" c = false /\
  Ascii.eqb "!" c = false /\ Ascii.eqb "=" c = false /\
  Ascii.eqb "*" c = false /\ Ascii.eqb "+" c = false /\
  Ascii.eqb "?" c = false /\
  Ascii.eqb dquote c = false /\ Ascii.eqb squote c = false.
Proof.
  destruct c as [[] [] [] [] [] [] [] []]; vm_compute; intros H;
    first [discriminate H | repeat split].
Qed.

Lemma first_rule_word_start c s :
  is_word c = true ->
  rmatch WORD_re (String c s) (fun r => Some r) = None ->
  first_rule TOKEN_TYPES (String c s) =
  match star_greedy (in_class cls_w) s (fun r => Some r) with
  | Some rest => Some (STRING, rest)
  | None => None
  end.
Proof.
  intros Hw Hkw.
  destruct (word_char_other_rules c Hw)
    as (H0 & H1 & H2 & H3 & H4 & H5 & H6 & H7 & H8 & H9 & H10 & H11 & H12 & H13).
  unfold TOKEN_TYPES. cbn [first_rule].
  rewrite Hkw. unfold STRING_re.
  cbn [rmatch match_lit in_class chr].
  rewrite H0, H1, H2, H3, H4, H5, H6, H7, H8, H9, H10, H11, H12, H13, Hw.
  now destruct (star_greedy_Some (in_class cls_w) s) as [r ->].
Qed.

(** No field keyword starts with a digit. *)
Lemma digit_not_keyword c s k :
  is_digit c = true -> rmatch WORD_re (String c s) k = None.
Proof.
  destruct c as [[] [] [] [] [] [] [] []]; intros H; vm_compute in H;
    first [discriminate H | reflexivity].
Qed.

Lemma star_greedy_longer (p q : ascii -> bool) s rp rq :
  (forall c, p c = true -> q c = true) ->
  star_greedy p s (fun r => Some r) = Some rp ->
  star_greedy q s (fun r => Some r) = Some rq ->
  String.length rq <= String.length rp.
Proof.
  intros Hpq. revert rp rq. induction s as [| c s IH]; intros rp rq; cbn.
  - intros [= <-] [= <-]. lia.
  - destruct (p c) eqn:Hp.
    + rewrite (Hpq c Hp).
      destruct (star_greedy_Some p s) as [x Hx].
      destruct (star_greedy_Some q s) as [y Hy].
      rewrite Hx, Hy. intros [= <-] [= <-]. now apply IH.
    + intros [= <-]. destruct (q c).
      * destruct (star_greedy_Some q s) as [y Hy]. rewrite Hy.
        intros [= <-].
        apply star_greedy_split in Hy as (pre & s' & -> & [= <-]).
        cbn. rewrite app_length_string. lia.
      * intros [= <-]. lia.
Qed.

(** C10. The lexer never emits a NUMBER token: no turn of the scan is won
    by the NUMBER rule, so no token list that [tokenize] returns holds a
    NUMBER token; and wherever the digit rule [\d+] matches, the rule that
    wins is the string-literal rule, whose match reaches at least as far. *)
Theorem number_token_unreachable (text : string) :
  (forall pos e, first_match TOKEN_TYPES text pos <> Some (NUMBER, e)) /\
  (forall toks, tokenize text = Ok toks ->
                Forall (fun t => fst t <> NUMBER) toks) /\
  (forall pos e, re_match (Plus cls_d) text pos = Some e ->
     exists e', first_match TOKEN_TYPES text pos = Some (STRING, e') /\
                e <= e').
Proof.
  split; [| split].
  - intros pos e H. apply first_match_reachable in H. tauto.
  - intros toks H.
    apply (tokenize_loop_types (fun ty => ty <> NUMBER) text) in H; auto.
    intros pos ty e Hfm. now apply first_match_reachable in Hfm.
  - intros pos e. unfold re_match.
    destruct (string_drop pos text) as [| c s] eqn:E; cbn [rmatch]; [discriminate |].
    cbn [in_class]. destruct (is_digit c) eqn:Hd; [| discriminate].
    destruct (star_greedy (in_class cls_d) s _) as [rd |] eqn:Ed; [| discriminate].
    intros [= <-].
    pose proof (first_rule_word_start c s (is_digit_is_word c Hd)
                  (digit_not_keyword c s _ Hd)) as Hfr.
    destruct (star_greedy_Some (in_class cls_w) s) as [rw Ew].
    rewrite Ew in Hfr. rewrite first_match_first_rule, E, Hfr.
    eexists. split; [reflexivity |].
    assert (String.length rw <= String.length rd).
    { eapply star_greedy_longer; [| exact Ed | exact Ew].
      intros x. apply is_digit_is_word. }
    lia.
Qed.

Lemma number_token_unreachable_witness :
  Forall (fun t => fst t <> NUMBER) [(STRING, "42"); (STRING, "7x")] /\
  exists e', first_match TOKEN_TYPES "a 42" 2 = Some (STRING, e') /\ 4 <= e'.
Proof.
  split.
  - apply (proj1 (proj2 (number_token_unreachable "42 7x"))). reflexivity.
  - apply (proj2 (proj2 (number_token_unreachable "a 42"))). reflexivity.
Defined.

(** ** Lexical errors *)

Lemma string_drop_get text : forall pos,
  pos < String.length text ->
  exists c rest,
    string_drop pos text = String c rest /\ String.get pos text = Some c.
Proof.
  induction text as [| a text IH]; intros pos Hpos; cbn in Hpos; [lia |].
  destruct pos as [| pos]; cbn.
  - now exists a, text.
  - apply IH. lia.
Qed.

(** C4, as amended. Wherever the scan comes to a position at which no rule
    of the table matches, tokenization (and with it the whole pipeline)
    raises a SyntaxError whose message names the character at that
    position; the message carries nothing else. *)
Theorem lex_error_names_character text pos toks :
  scan_reaches text pos toks ->
  pos < String.length text ->
  first_match TOKEN_TYPES text pos = None ->
  exists c,
    String.get pos text = Some c /\
    tokenize text =
      Raise (SyntaxError ("Unknown character: " ++ chr c)%string) /\
    parse_text text =
      Raise (SyntaxError ("Unknown character: " ++ chr c)%string).
Proof.
  intros Hscan Hpos Hnone.
  destruct (string_drop_get text pos Hpos) as (c & rest & Hdrop & Hget).
  exists c. split; [exact Hget |].
  assert (Htok : tokenize text =
                 Raise (SyntaxError ("Unknown character: " ++ chr c)%string)).
  { apply scan_reaches_loop in Hscan as (fuel & Hf & ->).
    destruct fuel as [| fuel]; [lia |].
    apply (tokenize_loop_fail text pos c rest); [exact Hdrop |].
    rewrite first_match_first_rule, Hdrop in Hnone.
    destruct (first_rule TOKEN_TYPES (String c rest)) as [[ty r] |];
      [discriminate | reflexivity]. }
  split; [exact Htok |]. unfold parse_text. now rewrite Htok.
Qed.

Lemma lex_error_names_character_witness :
  exists c,
    String.get 6 "[word=%]" = Some c /\
    tokenize "[word=%]" =
      Raise (SyntaxError ("Unknown character: " ++ chr c)%string) /\
    parse_text "[word=%]" =
      Raise (SyntaxError ("Unknown character: " ++ chr c)%string).
Proof.
  apply (lex_error_names_character "[word=%]" 6
           [(LBRACKET, "["); (WORD, "word"); (EQUALS, "=")]).
  - apply (scan_next "[word=%]" 5 [(LBRACKET, "["); (WORD, "word")] EQUALS 6).
    + apply (scan_next "[word=%]" 1 [(LBRACKET, "[")] WORD 5).
      * apply (scan_next "[word=%]" 0 [] LBRACKET 1).
        -- apply scan_start.
        -- cbn. lia.
        -- reflexivity.
      * cbn. lia.
      * reflexivity.
    + cbn. lia.
    + reflexivity.
  - cbn. lia.
  - reflexivity.
Defined.

(** C4, as stated, fails: the error does not identify the position. The
    same error value is raised for an unmatched character at position 0
    and at position 1, so no reading of the error recovers the position. *)
Lemma lex_error_omits_position :
  tokenize "%" = Raise (SyntaxError "Unknown character: %") /\
  tokenize " %" = Raise (SyntaxError "Unknown character: %") /\
  ~ (exists position_of : exn -> nat,
        forall text pos toks,
          scan_reaches text pos toks ->
          pos < String.length text ->
          first_match TOKEN_TYPES text pos = None ->
          exists e, tokenize text = Raise e /\ position_of e = pos).
Proof.
  split; [reflexivity |]. split; [reflexivity |].
  intros [position_of H].
  destruct (H "%" 0 [] (scan_start "%")) as (e0 & E0 & P0);
    [cbn; lia | reflexivity |].
  assert (S1 : scan_reaches " %" 1 []).
  { apply (scan_next " %" 0 [] WHITESPACE 1);
      [apply scan_start | cbn; lia | reflexivity]. }
  destruct (H " %" 1 [] S1) as (e1 & E1 & P1); [cbn; lia | reflexivity |].
  assert (Heq : e0 = e1).
  { assert (X0 : tokenize "%" = Raise (SyntaxError "Unknown character: %"))
      by reflexivity.
    assert (X1 : tokenize " %" = Raise (SyntaxError "Unknown character: %"))
      by reflexivity.
    rewrite X0 in E0. rewrite X1 in E1.
    inversion E0. inversion E1. reflexivity. }
  subst e1. rewrite P0 in P1. discriminate P1.
Qed.

(** ** The capture and look-ahead openers *)

(** C3. Under first match by table order the lexer never emits a
    capture-opener or a look-ahead-opener token, because the rule of the
    single opening parenthesis comes first; and every text in which the
    scan comes to the capture syntax is rejected by the pipeline: the
    scan reads the parenthesis and the question mark as tokens of
    their own and then finds no rule for the angle bracket. *)
Theorem capture_syntax_unreachable (text : string) :
  (forall pos e,
      first_match TOKEN_TYPES text pos <> Some (CAPTURE_START, e) /\
      first_match TOKEN_TYPES text pos <> Some (LOOKAHEAD_START, e)) /\
  (forall toks,
      tokenize text = Ok toks ->
      Forall (fun t => fst t <> CAPTURE_START /\ fst t <> LOOKAHEAD_START)
             toks) /\
  (forall pos toks rest,
      scan_reaches text pos toks ->
      string_drop pos text = ("(?<" ++ rest)%string ->
      parse_text text = Raise (SyntaxError "Unknown character: <")).
Proof.
  split; [| split].
  - intros pos e. split; intros H; apply first_match_reachable in H; tauto.
  - intros toks H.
    apply (tokenize_loop_types
             (fun ty => ty <> CAPTURE_START /\ ty <> LOOKAHEAD_START) text)
      in H; auto.
    intros pos ty e Hfm. apply first_match_reachable in Hfm. tauto.
  - intros pos toks rest Hscan Hdrop.
    apply scan_reaches_loop in Hscan as (fuel & Hf & Htok).
    assert (Hlen : String.length text - pos = 3 + String.length rest).
    { rewrite <- string_drop_length, Hdrop. reflexivity. }
    destruct fuel as [| [| [| fuel]]]; try lia.
    assert (H1 : first_rule TOKEN_TYPES ("(" ++ ("?<" ++ rest))%string =
                 Some (LPAREN, ("?<" ++ rest)%string)) by reflexivity.
    assert (H2 : first_rule TOKEN_TYPES ("?" ++ ("<" ++ rest))%string =
                 Some (QUESTION, ("<" ++ rest)%string)) by reflexivity.
    assert (H3 : first_rule TOKEN_TYPES (String "<" rest) = None)
      by reflexivity.
    assert (D1 : string_drop (pos + 1) text = ("?" ++ ("<" ++ rest))%string).
    { rewrite string_drop_add, Hdrop. reflexivity. }
    assert (D2 : string_drop (pos + 1 + 1) text = String "<" rest).
    { rewrite string_drop_add, D1. reflexivity. }
    unfold parse_text. rewrite Htok.
    rewrite (tokenize_loop_step text pos LPAREN "(" _ _ _ Hdrop H1).
    rewrite (tokenize_loop_step text (pos + 1) QUESTION "?" _ _ _ D1 H2).
    cbn [String.length].
    rewrite (tokenize_loop_fail text (pos + 1 + 1) "<" rest _ _ D2 H3).
    reflexivity.
Qed.

Lemma capture_syntax_unreachable_witness :
  Forall (fun t => fst t <> CAPTURE_START /\ fst t <> LOOKAHEAD_START)
         [(LPAREN, "("); (QUESTION, "?"); (EQUALS, "="); (WORD, "tag");
          (RPAREN, ")")] /\
  parse_text "@ (?<x>[])" = Raise (SyntaxError "Unknown character: <").
Proof.
  split.
  - apply (proj1 (proj2 (capture_syntax_unreachable "(?=tag)"))).
    reflexivity.
  - apply (proj2 (proj2 (capture_syntax_unreachable "@ (?<x>[])"))
             2 [(AT, "@")] "x>[])").
    + apply (scan_next "@ (?<x>[])" 1 [(AT, "@")] WHITESPACE 2).
      * apply (scan_next "@ (?<x>[])" 0 [] AT 1).
        -- apply scan_start.
        -- cbn. lia.
        -- reflexivity.
      * cbn. lia.
      * reflexivity.
    + reflexivity.
Defined.

(** Inside a quoted literal the same three characters are text, not
    syntax: the scan never comes to them. *)
Example quoted_capture_opener_is_text :
  parse_text "[word='(?<']" = Ok (Field "word" (Exact "'(?<'")).
Proof. reflexivity. Qed.

(** ** Bare words *)

Lemma star_greedy_run p w rest :
  string_forall p w = true ->
  starts_with p rest = false ->
  star_greedy p (w ++ rest)%string (fun r => Some r) = Some rest.
Proof.
  intros Hw Hrest. induction w as [| c w IH]; cbn in *.
  - destruct rest as [| c rest]; cbn in *; [reflexivity |].
    now rewrite Hrest.
  - apply andb_true_iff in Hw as [Hc Hw]. rewrite Hc, (IH Hw). reflexivity.
Qed.

(** A literal made of word characters matches a word followed by something
    else only as a prefix of the word. *)
Lemma match_lit_word_prefix kw : forall w rest,
  string_forall is_word kw = true ->
  starts_with is_word rest = false ->
  String.prefix kw w = false ->
  match_lit kw (w ++ rest)%string = None.
Proof.
  induction kw as [| a kw IH]; intros w rest Hkw Hrest Hpre.
  - destruct w; discriminate Hpre.
  - cbn in Hkw. apply andb_true_iff in Hkw as [Ha Hkw].
    destruct w as [| c w]; cbn [append match_lit].
    + destruct rest as [| c rest]; [reflexivity |].
      destruct (Ascii.eqb a c) eqn:E; [| reflexivity].
      apply Ascii.eqb_eq in E. subst c. cbn in Hrest. congruence.
    + destruct (Ascii.eqb a c) eqn:E; [| reflexivity].
      apply Ascii.eqb_eq in E. subst c. cbn in Hpre.
      destruct (ascii_dec a a) as [_ | N]; [| contradiction].
      now apply IH.
Qed.

Lemma keyword_rule_fails w rest :
  string_forall is_word w = true ->
  starts_with is_word rest = false ->
  begins_with_keyword w = false ->
  rmatch WORD_re (w ++ rest)%string (fun r => Some r) = None.
Proof.
  intros Hw Hrest Hkw. unfold begins_with_keyword, field_keywords in Hkw.
  cbn [existsb] in Hkw.
  repeat (apply orb_false_iff in Hkw; destruct Hkw as [? Hkw]).
  unfold WORD_re. cbn [rmatch].
  repeat (rewrite match_lit_word_prefix; [| reflexivity | assumption | assumption]).
  reflexivity.
Qed.

(** Where the unread text opens with a field keyword, the keyword rule is
    the first rule of the table that matches, and it takes the keyword:
    no rule before it starts on a letter, and no keyword opens another. *)
Lemma keyword_rule_wins kw rest :
  In kw ["word"; "lemma"; "tag"; "entity"; "chunk"; "incoming"; "outgoing";
         "mention"] ->
  first_rule TOKEN_TYPES (kw ++ rest)%string = Some (WORD, rest).
Proof.
  intros Hin. cbn [In] in Hin.
  repeat (destruct Hin as [<- | Hin]; [reflexivity |]).
  contradiction.
Qed.

(** C6, as amended. A bare word that does not begin with a field keyword
    is lexed as one string-literal token whose lexeme is the word: where
    the unread text is the word [w] (a non-empty run of word characters
    that no word character follows), the turn of the scan emits
    [(STRING, w)] and goes on after the word; and [string_matcher]
    accepts that token as the literal [w].  A word that is a field keyword
    is emitted as a field-keyword token instead: where the unread text
    opens with one of the eight keywords, whatever follows it (nothing, a
    delimiter, or more word characters as in [wordy]), the turn of the
    scan emits [(WORD, kw)] and goes on after the keyword; and
    [string_matcher] refuses that token with [Expected string]. *)
Theorem bare_word_is_string_literal :
  (forall text pos w rest fuel acc l,
     string_drop pos text = (w ++ rest)%string ->
     w <> ""%string ->
     string_forall is_word w = true ->
     starts_with is_word rest = false ->
     begins_with_keyword w = false ->
     first_match TOKEN_TYPES text pos = Some (STRING, pos + String.length w) /\
     tokenize_loop (S fuel) text pos acc =
       tokenize_loop fuel text (pos + String.length w) (acc ++ [(STRING, w)]) /\
     string_matcher (new_parser ((STRING, w) :: l)) =
       Ok (Exact w, new_parser l)) /\
  (forall text pos kw rest fuel acc l,
     In kw ["word"; "lemma"; "tag"; "entity"; "chunk"; "incoming"; "outgoing";
            "mention"] ->
     string_drop pos text = (kw ++ rest)%string ->
     first_match TOKEN_TYPES text pos = Some (WORD, pos + String.length kw) /\
     tokenize_loop (S fuel) text pos acc =
       tokenize_loop fuel text (pos + String.length kw) (acc ++ [(WORD, kw)]) /\
     string_matcher (new_parser ((WORD, kw) :: l)) =
       Raise (SyntaxError "Expected string")).
Proof.
  split.
  - intros text pos w rest fuel acc l Hdrop Hne Hw Hrest Hkw.
    assert (Hrule : first_rule TOKEN_TYPES (w ++ rest)%string =
                    Some (STRING, rest)).
    { pose proof (keyword_rule_fails w rest Hw Hrest Hkw) as Hfail.
      destruct w as [| c w']; [contradiction |].
      cbn [append] in *. cbn in Hw. apply andb_true_iff in Hw as [Hc Hw'].
      rewrite (first_rule_word_start c _ Hc Hfail).
      now rewrite (star_greedy_run (in_class cls_w) w' rest Hw' Hrest). }
    split; [| split].
    + apply (first_match_step text pos STRING w rest Hdrop Hrule).
    + apply (tokenize_loop_step text pos STRING w rest fuel acc Hdrop Hrule).
    + reflexivity.
  - intros text pos kw rest fuel acc l Hin Hdrop.
    pose proof (keyword_rule_wins kw rest Hin) as Hrule.
    split; [| split].
    + apply (first_match_step text pos WORD kw rest Hdrop Hrule).
    + apply (tokenize_loop_step text pos WORD kw rest fuel acc Hdrop Hrule).
    + reflexivity.
Qed.

Lemma bare_word_is_string_literal_witness :
  (first_match TOKEN_TYPES "[tag=NNP]" 5 = Some (STRING, 5 + 3) /\
   tokenize_loop 6 "[tag=NNP]" 5
       [(LBRACKET, "["); (WORD, "tag"); (EQUALS, "=")] =
     tokenize_loop 5 "[tag=NNP]" (5 + 3)
       ([(LBRACKET, "["); (WORD, "tag"); (EQUALS, "=")] ++ [(STRING, "NNP")]) /\
   string_matcher (new_parser [(STRING, "NNP"); (RBRACKET, "]")]) =
     Ok (Exact "NNP", new_parser [(RBRACKET, "]")])) /\
  (first_match TOKEN_TYPES "[tag=chunky]" 5 = Some (WORD, 5 + 5) /\
   tokenize_loop 8 "[tag=chunky]" 5
       [(LBRACKET, "["); (WORD, "tag"); (EQUALS, "=")] =
     tokenize_loop 7 "[tag=chunky]" (5 + 5)
       ([(LBRACKET, "["); (WORD, "tag"); (EQUALS, "=")] ++ [(WORD, "chunk")]) /\
   string_matcher (new_parser [(WORD, "chunk"); (STRING, "y"); (RBRACKET, "]")]) =
     Raise (SyntaxError "Expected string")).
Proof.
  split.
  - apply (proj1 bare_word_is_string_literal "[tag=NNP]" 5 "NNP" "]" 5
             [(LBRACKET, "["); (WORD, "tag"); (EQUALS, "=")]
             [(RBRACKET, "]")]).
    + reflexivity.
    + discriminate.
    + reflexivity.
    + reflexivity.
    + reflexivity.
  - apply (proj2 bare_word_is_string_literal "[tag=chunky]" 5 "chunk" "y]" 7
             [(LBRACKET, "["); (WORD, "tag"); (EQUALS, "=")]
             [(STRING, "y"); (RBRACKET, "]")]).
    + cbn [In]. tauto.
    + reflexivity.
Defined.

(** C6, as stated, fails for the words it names: the field-keyword rule is
    tried before the string-literal rule, so [mention] is lexed as a
    field-keyword token and [wordy] as a field-keyword token followed by a
    string literal; neither is accepted where a string matcher is
    required. *)
Lemma keyword_word_is_not_string_literal :
  tokenize "mention" = Ok [(WORD, "mention")] /\
  tokenize "wordy" = Ok [(WORD, "word"); (STRING, "y")] /\
  parse_text "[word=mention]" = Raise (SyntaxError "Expected string") /\
  parse_text "[word=wordy]" = Raise (SyntaxError "Expected string").
Proof. repeat split; reflexivity. Qed.

(** ** Operator chains *)

Lemma bind_Ok {A B} (m : M A) (k : A -> M B) p a p' :
  m p = Ok (a, p') -> bind m k p = k a p'.
Proof. unfold bind. now intros ->. Qed.

Section Chain.
(** A production [top] that parses a first operand with [f] and then
    loops on the operator [op], building [mk left right]. *)
Variables (f top : nat -> M ASTNode) (loop : nat -> ASTNode -> M ASTNode).
Variables (op : TokenType) (mk : ASTNode -> ASTNode -> ASTNode).

Hypothesis f_mono : fuel_monotone f.
Hypothesis loop_mono : forall left, fuel_monotone (fun n => loop n left).
Hypothesis top_S : forall n,
  top (S n) = (left <- f n ;; loop n left).
Hypothesis loop_S : forall n left,
  loop (S n) left =
  fun p =>
    if current_is op p then
      (eat op ;;; right <- f n ;; loop n (mk left right)) p
    else ret left p.

Lemma chain_loop l rest l' :
  operands f op l rest l' ->
  forall left,
    returns (fun n => loop n left) (new_parser l)
            (fold_left mk rest left) (new_parser l').
Proof.
  induction 1 as [l Hstop | lexeme l right l' rest l'' [n1 Hf] _ IH];
    intros left.
  - exists 1. rewrite loop_S. now rewrite Hstop.
  - destruct (IH (mk left right)) as [n2 Hloop].
    exists (S (max n1 n2)). rewrite loop_S.
    rewrite current_is_cons, TokenType_eqb_refl.
    rewrite (bind_Ok _ _ _ _ _ (eat_cons op lexeme l)).
    assert (Hf' : f (max n1 n2) (new_parser l) = Ok (right, new_parser l')).
    { eapply returns_at; [exact f_mono | exact Hf | lia]. }
    rewrite (bind_Ok _ _ _ _ _ Hf'). cbn [fold_left].
    eapply (returns_at (fun n => loop n (mk left right)));
      [apply loop_mono | exact Hloop | lia].
Qed.

Lemma chain_top l0 first l1 rest l2 :
  returns f (new_parser l0) first (new_parser l1) ->
  operands f op l1 rest l2 ->
  returns top (new_parser l0) (fold_left mk rest first) (new_parser l2).
Proof.
  intros [n1 Hf] Hops.
  destruct (chain_loop _ _ _ Hops first) as [n2 Hloop].
  exists (S (max n1 n2)). rewrite top_S.
  assert (Hf' : f (max n1 n2) (new_parser l0) = Ok (first, new_parser l1)).
  { eapply returns_at; [exact f_mono | exact Hf | lia]. }
  rewrite (bind_Ok _ _ _ _ _ Hf').
  eapply (returns_at (fun n => loop n first));
    [apply loop_mono | exact Hloop | lia].
Qed.
End Chain.

Lemma mono_conjunctive_constraint_loop left :
  fuel_monotone (fun n => conjunctive_constraint_loop n left).
Proof.
  apply fuel_monotone_of_succ. intros n p. apply (constraint_fuel_succ n).
Qed.

Lemma mono_disjunctive_constraint_loop left :
  fuel_monotone (fun n => disjunctive_constraint_loop n left).
Proof.
  apply fuel_monotone_of_succ. intros n p. apply (constraint_fuel_succ n).
Qed.

Lemma mono_disjunctive_token_pattern_loop left :
  fuel_monotone (fun n => disjunctive_token_pattern_loop n left).
Proof.
  apply fuel_monotone_of_succ. intros n p. apply (pattern_fuel_succ n).
Qed.

Lemma mono_concatenated_token_pattern_loop ps :
  fuel_monotone (fun n => concatenated_token_pattern_loop n ps).
Proof.
  apply fuel_monotone_of_succ. intros n p. apply (pattern_fuel_succ n).
Qed.

Lemma conjunction_chain l0 first l1 rest l2 :
  returns negated_constraint (new_parser l0) first (new_parser l1) ->
  operands negated_constraint AND l1 rest l2 ->
  returns conjunctive_constraint (new_parser l0)
          (fold_left And rest first) (new_parser l2).
Proof.
  apply (chain_top negated_constraint conjunctive_constraint
           conjunctive_constraint_loop AND And
           mono_negated_constraint mono_conjunctive_constraint_loop
           conjunctive_constraint_S conjunctive_constraint_loop_S).
Qed.

Lemma disjunction_chain l0 first l1 rest l2 :
  returns conjunctive_constraint (new_parser l0) first (new_parser l1) ->
  operands conjunctive_constraint OR l1 rest l2 ->
  returns disjunctive_constraint (new_parser l0)
          (fold_left Or rest first) (new_parser l2).
Proof.
  apply (chain_top conjunctive_constraint disjunctive_constraint
           disjunctive_constraint_loop OR Or
           mono_conjunctive_constraint mono_disjunctive_constraint_loop
           disjunctive_constraint_S disjunctive_constraint_loop_S).
Qed.

Lemma alternation_chain l0 first l1 rest l2 :
  returns concatenated_token_pattern (new_parser l0) first (new_parser l1) ->
  operands concatenated_token_pattern OR l1 rest l2 ->
  returns disjunctive_token_pattern (new_parser l0)
          (fold_left Or rest first) (new_parser l2).
Proof.
  apply (chain_top concatenated_token_pattern disjunctive_token_pattern
           disjunctive_token_pattern_loop OR Or
           mono_concatenated_token_pattern mono_disjunctive_token_pattern_loop
           disjunctive_token_pattern_S disjunctive_token_pattern_loop_S).
Qed.

Lemma And_left_neq a : forall b, And a b <> a.
Proof.
  induction a; intros b H; try discriminate H.
  injection H as H1 H2. now apply IHa1 in H1.
Qed.

Lemma Or_left_neq a : forall b, Or a b <> a.
Proof.
  induction a; intros b H; try discriminate H.
  injection H as H1 H2. now apply IHa1 in H1.
Qed.

(** C7. A chain of operands joined by the same operator folds to the
    left, at each of the three levels that have a binary operator: the
    conjunctions and the disjunctions of the constraint grammar and the
    alternation of the pattern grammar.  With [first] the first operand and
    [rest] the operands after it, in source order, the result is
    [fold_left mk rest first]; for three operands [a], [b], [c] this is
    [And (And a b) c], respectively [Or (Or a b) c], which is not the
    right-nested tree. *)
Theorem operator_chains_left_associative :
  (forall l0 first l1 rest l2,
      returns negated_constraint (new_parser l0) first (new_parser l1) ->
      operands negated_constraint AND l1 rest l2 ->
      returns conjunctive_constraint (new_parser l0)
              (fold_left And rest first) (new_parser l2)) /\
  (forall l0 first l1 rest l2,
      returns conjunctive_constraint (new_parser l0) first (new_parser l1) ->
      operands conjunctive_constraint OR l1 rest l2 ->
      returns disjunctive_constraint (new_parser l0)
              (fold_left Or rest first) (new_parser l2)) /\
  (forall l0 first l1 rest l2,
      returns concatenated_token_pattern (new_parser l0) first (new_parser l1) ->
      operands concatenated_token_pattern OR l1 rest l2 ->
      returns disjunctive_token_pattern (new_parser l0)
              (fold_left Or rest first) (new_parser l2)) /\
  (forall a b c,
      fold_left And [b; c] a = And (And a b) c /\
      fold_left Or [b; c] a = Or (Or a b) c /\
      And (And a b) c <> And a (And b c) /\
      Or (Or a b) c <> Or a (Or b c)).
Proof.
  split; [exact conjunction_chain |].
  split; [exact disjunction_chain |].
  split; [exact alternation_chain |].
  intros a b c. repeat split.
  - intros H. injection H as H1 H2. now apply And_left_neq in H1.
  - intros H. injection H as H1 H2. now apply Or_left_neq in H1.
Qed.

Lemma operator_chains_left_associative_witness :
  returns conjunctive_constraint
    (new_parser (field_tokens "word" "a" ++ (AND, "&") :: field_tokens "lemma" "b"
                 ++ (AND, "&") :: field_tokens "tag" "c" ++ [(RBRACKET, "]")]))
    (And (And (Field "word" (Exact "a")) (Field "lemma" (Exact "b")))
         (Field "tag" (Exact "c")))
    (new_parser [(RBRACKET, "]")]) /\
  returns disjunctive_constraint
    (new_parser (field_tokens "word" "a" ++ (OR, "|") :: field_tokens "lemma" "b"
                 ++ (OR, "|") :: field_tokens "tag" "c" ++ [(RBRACKET, "]")]))
    (Or (Or (Field "word" (Exact "a")) (Field "lemma" (Exact "b")))
        (Field "tag" (Exact "c")))
    (new_parser [(RBRACKET, "]")]) /\
  returns disjunctive_token_pattern
    (new_parser ((AT, "@") :: (STRING, "a") :: (OR, "|") :: (AT, "@")
                 :: (STRING, "b") :: (OR, "|") :: (AT, "@")
                 :: [(STRING, "c")]))
    (Or (Or (Mention (Exact "a")) (Mention (Exact "b")))
        (Mention (Exact "c")))
    (new_parser []).
Proof.
  destruct operator_chains_left_associative as (Hand & Hor & Halt & _).
  split; [| split].
  - apply (Hand _ (Field "word" (Exact "a"))
             ((AND, "&") :: field_tokens "lemma" "b"
              ++ (AND, "&") :: field_tokens "tag" "c" ++ [(RBRACKET, "]")])
             [Field "lemma" (Exact "b"); Field "tag" (Exact "c")]).
    + exists 2. reflexivity.
    + apply operands_next with (l' := (AND, "&") :: field_tokens "tag" "c"
                                      ++ [(RBRACKET, "]")]).
      * exists 2. reflexivity.
      * apply operands_next with (l' := [(RBRACKET, "]")]).
        -- exists 2. reflexivity.
        -- apply operands_done. reflexivity.
  - apply (Hor _ (Field "word" (Exact "a"))
             ((OR, "|") :: field_tokens "lemma" "b"
              ++ (OR, "|") :: field_tokens "tag" "c" ++ [(RBRACKET, "]")])
             [Field "lemma" (Exact "b"); Field "tag" (Exact "c")]).
    + exists 4. reflexivity.
    + apply operands_next with (l' := (OR, "|") :: field_tokens "tag" "c"
                                      ++ [(RBRACKET, "]")]).
      * exists 4. reflexivity.
      * apply operands_next with (l' := [(RBRACKET, "]")]).
        -- exists 4. reflexivity.
        -- apply operands_done. reflexivity.
  - apply (Halt _ (Mention (Exact "a"))
             [(OR, "|"); (AT, "@"); (STRING, "b"); (OR, "|"); (AT, "@");
              (STRING, "c")]
             [Mention (Exact "b"); Mention (Exact "c")]).
    + exists 4. reflexivity.
    + apply operands_next with (l' := [(OR, "|"); (AT, "@"); (STRING, "c")]).
      * exists 4. reflexivity.
      * apply operands_next with (l' := []).
        -- exists 4. reflexivity.
        -- apply operands_done. reflexivity.
Defined.

(** ** Negation *)

Lemma atomic_constraint_start n l r :
  atomic_constraint n (new_parser l) = Ok r ->
  current_is NOT (new_parser l) = false.
Proof.
  destruct n as [| n]; [discriminate |]. rewrite atomic_constraint_S.
  destruct l as [| [ty lx] l]; [reflexivity |].
  rewrite !current_is_cons.
  destruct ty; cbn [TokenType_eqb]; try reflexivity. discriminate.
Qed.

Lemma negated_NOT lexeme l a p' :
  returns atomic_constraint (new_parser l) a p' ->
  returns negated_constraint (new_parser ((NOT, lexeme) :: l)) (Not a) p'.
Proof.
  intros [n H]. exists (S n). rewrite negated_constraint_S.
  rewrite current_is_cons. cbn [TokenType_eqb].
  rewrite (bind_Ok _ _ _ _ _ (eat_cons NOT lexeme l)).
  now rewrite (bind_Ok _ _ _ _ _ H).
Qed.

Lemma negated_NOT_inv lexeme l x p' :
  returns negated_constraint (new_parser ((NOT, lexeme) :: l)) x p' ->
  exists a, x = Not a /\ returns atomic_constraint (new_parser l) a p'.
Proof.
  intros [n H]. destruct n as [| n]; [discriminate |].
  rewrite negated_constraint_S in H. rewrite current_is_cons in H.
  cbn [TokenType_eqb] in H.
  rewrite (bind_Ok _ _ _ _ _ (eat_cons NOT lexeme l)) in H.
  unfold bind in H.
  destruct (atomic_constraint n (new_parser l)) as [[a q] | e |] eqn:E;
    try discriminate.
  cbn in H. injection H as <- <-. exists a. split; [reflexivity |].
  now exists n.
Qed.

Lemma negated_plain l a p' :
  returns atomic_constraint (new_parser l) a p' ->
  returns negated_constraint (new_parser l) a p'.
Proof.
  intros [n H]. exists (S n). rewrite negated_constraint_S.
  now rewrite (atomic_constraint_start n l _ H).
Qed.

(** C8. Negation binds tighter than conjunction and disjunction.  The
    operand of a [Not] node is exactly what [atomic_constraint] returns
    on the tokens after the [!]: a field constraint or a parenthesised
    constraint, never the conjunction or disjunction that follows.  So for
    atomic [a] and [b], the constraint [!a & b] is parsed as
    [And (Not a) b], which is not [Not (And a b)]. *)
Theorem negation_binds_tighter :
  (forall lexeme l a p',
      returns atomic_constraint (new_parser l) a p' ->
      returns negated_constraint (new_parser ((NOT, lexeme) :: l)) (Not a) p') /\
  (forall lexeme l x p',
      returns negated_constraint (new_parser ((NOT, lexeme) :: l)) x p' ->
      exists a, x = Not a /\ returns atomic_constraint (new_parser l) a p') /\
  (forall lexeme l0 a lexeme' l1 b l2,
      returns atomic_constraint (new_parser l0) a
              (new_parser ((AND, lexeme') :: l1)) ->
      returns atomic_constraint (new_parser l1) b (new_parser l2) ->
      current_is AND (new_parser l2) = false ->
      returns conjunctive_constraint (new_parser ((NOT, lexeme) :: l0))
              (And (Not a) b) (new_parser l2) /\
      And (Not a) b <> Not (And a b)).
Proof.
  split; [exact negated_NOT |]. split; [exact negated_NOT_inv |].
  intros lexeme l0 a lexeme' l1 b l2 Ha Hb Hstop. split; [| discriminate].
  apply (conjunction_chain _ (Not a) ((AND, lexeme') :: l1) [b] l2).
  - now apply negated_NOT.
  - apply operands_next with (l' := l2).
    + now apply negated_plain.
    + now apply operands_done.
Qed.

Lemma negation_binds_tighter_witness :
  returns negated_constraint
    (new_parser ((NOT, "!") :: field_tokens "tag" "a")) 
    (Not (Field "tag" (Exact "a"))) (new_parser []) /\
  (exists a, Not (Field "tag" (Exact "a")) = Not a /\
             returns atomic_constraint (new_parser (field_tokens "tag" "a"))
                     a (new_parser [])) /\
  returns conjunctive_constraint
    (new_parser ((NOT, "!") :: field_tokens "word" "a" ++ (AND, "&")
                 :: field_tokens "lemma" "b" ++ [(RBRACKET, "]")]))
    (And (Not (Field "word" (Exact "a"))) (Field "lemma" (Exact "b")))
    (new_parser [(RBRACKET, "]")]).
Proof.
  destruct negation_binds_tighter as (H1 & H2 & H3).
  split; [| split].
  - apply H1. exists 1. reflexivity.
  - apply (H2 "!"). exists 2. reflexivity.
  - apply (H3 "!" (field_tokens "word" "a" ++ (AND, "&")
                   :: field_tokens "lemma" "b" ++ [(RBRACKET, "]")])
              (Field "word" (Exact "a")) "&"
              (field_tokens "lemma" "b" ++ [(RBRACKET, "]")])
              (Field "lemma" (Exact "b")) [(RBRACKET, "]")]).
    + exists 1. reflexivity.
    + exists 1. reflexivity.
    + reflexivity.
Defined.

(** ** Concatenation *)

Lemma collected_loop l rest l' :
  collected l rest l' ->
  forall ps,
    returns (fun n => concatenated_token_pattern_loop n ps) (new_parser l)
            (ps ++ rest) (new_parser l').
Proof.
  induction 1 as [l Hstop | l next l' rest l'' Hgo [n1 Hq] _ IH]; intros ps.
  - exists 1. rewrite concatenated_token_pattern_loop_S, Hstop.
    now rewrite app_nil_r.
  - destruct (IH (ps ++ [next])) as [n2 Hloop].
    exists (S (max n1 n2)). rewrite concatenated_token_pattern_loop_S, Hgo.
    assert (Hq' : quantified_token_pattern (max n1 n2) (new_parser l) =
                  Ok (next, new_parser l')).
    { eapply returns_at;
        [exact mono_quantified_token_pattern | exact Hq | lia]. }
    rewrite (bind_Ok _ _ _ _ _ Hq').
    replace (ps ++ next :: rest) with ((ps ++ [next]) ++ rest)
      by (now rewrite <- app_assoc).
    eapply (returns_at (fun n => concatenated_token_pattern_loop n (ps ++ [next])));
      [apply mono_concatenated_token_pattern_loop | exact Hloop | lia].
Qed.

(** C9. The concatenation of quantified patterns: when the loop collects
    nothing after the first pattern, the result is that pattern's node as
    it is, without a [Seq] around it; when it collects one or more, the
    result is the [Seq] node of all of them, the first included, in source
    order. *)
Theorem concatenation_single_or_sequence l0 first l1 rest l2 :
  returns quantified_token_pattern (new_parser l0) first (new_parser l1) ->
  collected l1 rest l2 ->
  returns concatenated_token_pattern (new_parser l0)
          (match rest with
           | [] => first
           | _ :: _ => Seq (first :: rest)
           end)
          (new_parser l2).
Proof.
  intros [n1 Hq] Hcol.
  destruct (collected_loop _ _ _ Hcol [first]) as [n2 Hloop].
  exists (S (max n1 n2)). rewrite concatenated_token_pattern_S.
  assert (Hq' : quantified_token_pattern (max n1 n2) (new_parser l0) =
                Ok (first, new_parser l1)).
  { eapply returns_at; [exact mono_quantified_token_pattern | exact Hq | lia]. }
  rewrite (bind_Ok _ _ _ _ _ Hq').
  assert (Hloop' : concatenated_token_pattern_loop (max n1 n2) [first]
                     (new_parser l1) = Ok ([first] ++ rest, new_parser l2)).
  { eapply (returns_at (fun n => concatenated_token_pattern_loop n [first]));
      [apply mono_concatenated_token_pattern_loop | exact Hloop | lia]. }
  rewrite (bind_Ok _ _ _ _ _ Hloop').
  destruct rest as [| second rest]; reflexivity.
Qed.

Lemma concatenation_single_or_sequence_witness :
  returns concatenated_token_pattern
    (new_parser [(LBRACKET, "["); (RBRACKET, "]"); (OR, "|"); (AT, "@")])
    PyNone (new_parser [(OR, "|"); (AT, "@")]) /\
  returns concatenated_token_pattern
    (new_parser ((AT, "@") :: (STRING, "a") :: (LBRACKET, "[") :: (RBRACKET, "]")
                 :: (PLUS, "+") :: field_tokens "tag" "b"))
    (Seq [Mention (Exact "a"); Quant PyNone "+"; Field "tag" (Exact "b")])
    (new_parser []).
Proof.
  split.
  - apply (concatenation_single_or_sequence _ PyNone [(OR, "|"); (AT, "@")] []).
    + exists 2. reflexivity.
    + apply collected_stop. reflexivity.
  - apply (concatenation_single_or_sequence _ (Mention (Exact "a"))
             ((LBRACKET, "[") :: (RBRACKET, "]") :: (PLUS, "+")
              :: field_tokens "tag" "b")
             [Quant PyNone "+"; Field "tag" (Exact "b")]).
    + exists 2. reflexivity.
    + apply collected_more with (l' := field_tokens "tag" "b").
      * reflexivity.
      * exists 2. reflexivity.
      * apply collected_more with (l' := []).
        -- reflexivity.
        -- exists 2. reflexivity.
        -- apply collected_stop. reflexivity.
Defined.

(** ** Quoted literals *)

(** The class of the characters that may stand inside a double-quoted
    literal: anything but the quote itself and the line feed. *)
Lemma star_lazy_quoted body rest :
  string_forall (fun c => is_dot c && negb (Ascii.eqb c dquote)) body = true ->
  star_lazy (in_class cls_dot) (body ++ String dquote rest)%string
    (fun s' => rmatch (Lit (chr dquote)) s' (fun r => Some r)) = Some rest.
Proof.
  induction body as [| c body IH]; intros H.
  - cbn [append star_lazy rmatch match_lit chr].
    now rewrite Ascii.eqb_refl.
  - cbn in H. apply andb_true_iff in H as [Hc H].
    apply andb_true_iff in Hc as [Hdot Hq].
    cbn [append star_lazy rmatch match_lit chr in_class].
    rewrite Ascii.eqb_sym in Hq. apply negb_true_iff in Hq.
    rewrite Hq, Hdot. now apply IH.
Qed.

Lemma first_rule_dquote s rest :
  star_lazy (in_class cls_dot) s
    (fun s' => rmatch (Lit (chr dquote)) s' (fun r => Some r)) = Some rest ->
  first_rule TOKEN_TYPES (String dquote s) = Some (STRING, rest).
Proof.
  intros H. unfold TOKEN_TYPES, STRING_re, WORD_re.
  cbn [first_rule rmatch].
  change (match_lit (chr dquote) (String dquote s)) with (Some s).
  cbv beta iota. cbn [rmatch] in H. rewrite H. reflexivity.
Qed.

Lemma append_quoted body rest :
  (quoted body ++ rest = String dquote (body ++ String dquote rest))%string.
Proof.
  unfold quoted, chr. cbn [append]. f_equal.
  now rewrite app_assoc_string.
Qed.

(** C2, as amended. The first scenario parses to the conjunction of the
    two field constraints, and the literal of each [Exact] matcher is the
    whole lexeme of the string token: the quoted text with its two quote
    characters.  This is what [string_matcher] does with every string
    token, and the lexeme of a double-quoted literal always includes the
    quotes. *)
Theorem exact_literal_keeps_quotes :
  parse_text scenario_hello_greet =
    Ok (And (Field "word" (Exact (quoted "hello")))
            (Field "lemma" (Exact (quoted "greet")))) /\
  (forall lexeme l,
      string_matcher (new_parser ((STRING, lexeme) :: l)) =
        Ok (Exact lexeme, new_parser l)) /\
  (forall text pos body rest fuel acc,
      string_drop pos text = (quoted body ++ rest)%string ->
      string_forall (fun c => is_dot c && negb (Ascii.eqb c dquote)) body
        = true ->
      tokenize_loop (S fuel) text pos acc =
        tokenize_loop fuel text (pos + String.length (quoted body))
          (acc ++ [(STRING, quoted body)])).
Proof.
  split; [reflexivity |]. split; [reflexivity |].
  intros text pos body rest fuel acc Hdrop Hbody.
  apply (tokenize_loop_step text pos STRING (quoted body) rest fuel acc Hdrop).
  rewrite append_quoted. apply first_rule_dquote.
  now apply star_lazy_quoted.
Qed.

Lemma exact_literal_keeps_quotes_witness :
  tokenize_loop 8 scenario_hello_greet 6 [(LBRACKET, "["); (WORD, "word"); (EQUALS, "=")] =
    tokenize_loop 7 scenario_hello_greet (6 + String.length (quoted "hello"))
      ([(LBRACKET, "["); (WORD, "word"); (EQUALS, "=")]
       ++ [(STRING, quoted "hello")]).
Proof.
  apply (proj2 (proj2 exact_literal_keeps_quotes) scenario_hello_greet 6
           "hello" (" & lemma=" ++ quoted "greet" ++ "]")%string).
  - reflexivity.
  - reflexivity.
Defined.

(** C2, as stated, fails: the literals of the tree that the first
    scenario parses to are not the bare texts [hello] and [greet]. *)
Lemma exact_literal_is_not_unquoted :
  parse_text scenario_hello_greet <>
    Ok (And (Field "word" (Exact "hello")) (Field "lemma" (Exact "greet"))).
Proof.
  assert (E : parse_text scenario_hello_greet =
              Ok (And (Field "word" (Exact (quoted "hello")))
                      (Field "lemma" (Exact (quoted "greet")))))
    by reflexivity.
  rewrite E. intros H. discriminate H.
Qed.

(** ** The empty bracket *)

Lemma token_constraint_empty fuel lexeme lexeme' l :
  token_constraint fuel
    (new_parser ((LBRACKET, lexeme) :: (RBRACKET, lexeme') :: l)) =
  Ok (PyNone, new_parser l).
Proof. reflexivity. Qed.

(** C5. The empty bracket yields [PyNone], the node of the specification's
    NoConstraint, wherever it stands: as the whole input, and inside a
    larger pattern, where the two characters are lexed as the two bracket
    tokens and [token_constraint], which [atomic_token_pattern] calls on an
    opening bracket, returns [PyNone] whatever tokens follow.  [PyNone]
    is a node variant of its own. *)
Theorem empty_bracket_is_no_constraint :
  parse_text "[]" = Ok PyNone /\
  (forall fuel lexeme lexeme' l,
      token_constraint fuel
        (new_parser ((LBRACKET, lexeme) :: (RBRACKET, lexeme') :: l)) =
        Ok (PyNone, new_parser l)) /\
  (forall fuel lexeme lexeme' l,
      atomic_token_pattern (S fuel)
        (new_parser ((LBRACKET, lexeme) :: (RBRACKET, lexeme') :: l)) =
        Ok (PyNone, new_parser l)) /\
  (forall text pos rest fuel acc,
      string_drop pos text = ("[]" ++ rest)%string ->
      tokenize_loop (S (S fuel)) text pos acc =
        tokenize_loop fuel text (pos + 2)
          (acc ++ [(LBRACKET, "["); (RBRACKET, "]")])) /\
  (forall l r a q m n p s,
      PyNone <> Or l r /\ PyNone <> And l r /\ PyNone <> Not a /\
      PyNone <> Field n m /\ PyNone <> Exact s /\ PyNone <> Seq p /\
      PyNone <> Quant a q /\ PyNone <> Mention m /\ PyNone <> Capture n a).
Proof.
  split; [reflexivity |]. split; [reflexivity |]. split; [reflexivity |].
  split.
  - intros text pos rest fuel acc Hdrop.
    assert (H1 : first_rule TOKEN_TYPES ("[" ++ ("]" ++ rest))%string =
                 Some (LBRACKET, ("]" ++ rest)%string)) by reflexivity.
    assert (H2 : first_rule TOKEN_TYPES ("]" ++ rest)%string =
                 Some (RBRACKET, rest)) by reflexivity.
    assert (D1 : string_drop (pos + 1) text = ("]" ++ rest)%string).
    { rewrite string_drop_add, Hdrop. reflexivity. }
    rewrite (tokenize_loop_step text pos LBRACKET "[" _ _ _ Hdrop H1).
    rewrite (tokenize_loop_step text (pos + 1) RBRACKET "]" _ _ _ D1 H2).
    cbn [TokenType_eqb String.length]. rewrite <- app_assoc.
    replace (pos + 1 + 1) with (pos + 2) by lia. reflexivity.
  - intros. repeat split; discriminate.
Qed.

Lemma empty_bracket_is_no_constraint_witness :
  tokenize_loop 6 "@x [] @y" 3 [(AT, "@"); (STRING, "x")] =
    tokenize_loop 4 "@x [] @y" (3 + 2)
      ([(AT, "@"); (STRING, "x")] ++ [(LBRACKET, "["); (RBRACKET, "]")]) /\
  parse_text "@x [] @y" =
    Ok (Seq [Mention (Exact "x"); PyNone; Mention (Exact "y")]).
Proof.
  split.
  - apply (proj1 (proj2 (proj2 (proj2 empty_bracket_is_no_constraint)))
             "@x [] @y" 3 " @y").
    reflexivity.
  - reflexivity.
Defined.

(** ** Tokens after a complete pattern *)

Section Stray.
Variables (t : Token) (rest : list Token).
Hypothesis t_stray : stray t = true.

Local Abbreviation ext := (t :: rest).

Lemma stray_current_is ty l :
  existsb (TokenType_eqb ty) continuation_types = true ->
  current_is ty (new_parser (l ++ ext)) = current_is ty (new_parser l).
Proof.
  intros Hty. destruct l as [| [ty' lx] l]; [| reflexivity].
  cbn [app]. destruct t as [tt lt].
  rewrite current_is_cons, current_is_nil.
  destruct (TokenType_eqb tt ty) eqn:E; [| reflexivity].
  apply TokenType_eqb_eq in E. subst ty.
  unfold stray in t_stray. cbn [fst] in t_stray.
  apply negb_true_iff in t_stray.
  assert (Hsym : existsb (TokenType_eqb tt) continuation_types = true).
  { apply existsb_exists in Hty as (x & Hin & Hx).
    apply TokenType_eqb_eq in Hx. subst x.
    apply existsb_exists. exists tt. split; [assumption |].
    apply TokenType_eqb_refl. }
  congruence.
Qed.

Lemma stray_current_in tys l :
  forallb (fun ty => existsb (TokenType_eqb ty) continuation_types) tys
    = true ->
  current_in tys (new_parser (l ++ ext)) = current_in tys (new_parser l).
Proof.
  unfold current_in. induction tys as [| ty tys IH]; cbn [forallb existsb];
    [reflexivity |].
  intros H. apply andb_true_iff in H as [Hty Htys].
  now rewrite stray_current_is, IH.
Qed.

Lemma stable_ret {A} (a : A) : stable_on ext (ret a).
Proof.
  intros l x p' H. cbn in H. injection H as <- <-. now exists l.
Qed.

Lemma stable_bind {A B} (m : M A) (k : A -> M B) :
  stable_on ext m -> (forall a, stable_on ext (k a)) ->
  stable_on ext (bind m k).
Proof.
  intros Hm Hk l b p' H. unfold bind in H.
  destruct (m (new_parser l)) as [[a q] | e |] eqn:E; try discriminate.
  destruct (Hm l a q E) as (l1 & -> & E1).
  destruct (Hk a l1 b p' H) as (l2 & -> & E2).
  exists l2. split; [reflexivity |].
  unfold bind. now rewrite E1.
Qed.

Lemma stable_eat ty : stable_on ext (eat ty).
Proof.
  intros l [] p' H. apply eat_Ok in H as (lx & l' & -> & ->).
  exists l'. split; [reflexivity |]. apply eat_cons.
Qed.

Lemma stable_current_lexeme : stable_on ext current_lexeme.
Proof.
  intros l a p' H. destruct l as [| [ty lx] l]; [discriminate |].
  cbn in H. injection H as <- <-. now exists ((ty, lx) :: l).
Qed.

Lemma stable_current_type : stable_on ext current_type.
Proof.
  intros l a p' H. destruct l as [| [ty lx] l]; [discriminate |].
  cbn in H. injection H as <- <-. now exists ((ty, lx) :: l).
Qed.

Lemma stable_raise {A} e : stable_on ext (fun _ => @Raise (A * Parser) e).
Proof. intros l a p' H. discriminate H. Qed.

Lemma stable_if_is {A} ty (f g : M A) :
  existsb (TokenType_eqb ty) continuation_types = true ->
  stable_on ext f -> stable_on ext g ->
  stable_on ext (fun p => if current_is ty p then f p else g p).
Proof.
  intros Hty Hf Hg l a p' H. cbv beta in *.
  rewrite (stray_current_is ty l Hty).
  destruct (current_is ty (new_parser l)); [now apply Hf | now apply Hg].
Qed.

Lemma stable_if_in {A} tys (f g : M A) :
  forallb (fun ty => existsb (TokenType_eqb ty) continuation_types) tys
    = true ->
  stable_on ext f -> stable_on ext g ->
  stable_on ext (fun p => if current_in tys p then f p else g p).
Proof.
  intros Hty Hf Hg l a p' H. cbv beta in *.
  rewrite (stray_current_in tys l Hty).
  destruct (current_in tys (new_parser l)); [now apply Hf | now apply Hg].
Qed.

(** The steps of a stability proof that follow the shape of the code. *)
Ltac stab :=
  repeat
    first [ assumption
          | apply stable_ret
          | apply stable_eat
          | apply stable_current_lexeme
          | apply stable_current_type
          | apply stable_raise
          | solve [intros ? ? ? H; discriminate H]
          | apply stable_if_is; [reflexivity | | ]
          | apply stable_if_in; [reflexivity | | ]
          | apply stable_bind; [ | intros ? ] ].

Lemma stable_string_matcher : stable_on ext string_matcher.
Proof. unfold string_matcher. stab. Qed.

Lemma stable_field_constraint : stable_on ext field_constraint.
Proof.
  pose proof stable_string_matcher. unfold field_constraint. stab.
Qed.

Lemma stable_mention_token_pattern : stable_on ext mention_token_pattern.
Proof.
  pose proof stable_string_matcher. unfold mention_token_pattern. stab.
Qed.

(** In [token_constraint] the test on the closing bracket is followed by
    [eat RBRACKET]: the two are stable together, whatever [ext] is. *)
Lemma stable_token_constraint fuel :
  stable_on ext (disjunctive_constraint fuel) ->
  stable_on ext (token_constraint fuel).
Proof.
  intros Hd. unfold token_constraint.
  apply stable_bind; [apply stable_eat | intros _].
  intros l a p' H.
  destruct l as [| tok l].
  - cbn in H. discriminate H.
  - revert a p' H.
    intros a p' H. unfold bind in H |- *.
    cbn [app].
    change (current_is_not RBRACKET (new_parser (tok :: l ++ ext)))
      with (current_is_not RBRACKET (new_parser (tok :: l))).
    destruct (current_is_not RBRACKET (new_parser (tok :: l))).
    + destruct (disjunctive_constraint fuel (new_parser (tok :: l)))
        as [[c q] | e |] eqn:E; try discriminate.
      destruct (Hd (tok :: l) c q E) as (l1 & -> & E1).
      cbn [app] in E1. rewrite E1.
      destruct (eat RBRACKET (new_parser l1)) as [[u q] | e |] eqn:E2;
        try discriminate.
      destruct (stable_eat RBRACKET l1 u q E2) as (l2 & -> & E3).
      rewrite E3. cbn in H |- *. injection H as <- <-. now exists l2.
    + cbn [ret] in H |- *.
      destruct (eat RBRACKET (new_parser (tok :: l))) as [[u q] | e |] eqn:E2;
        try discriminate.
      destruct (stable_eat RBRACKET (tok :: l) u q E2) as (l2 & -> & E3).
      cbn [app] in E3. rewrite E3. cbn in H |- *.
      injection H as <- <-. now exists l2.
Qed.

Lemma stable_constraint fuel :
  stable_on ext (disjunctive_constraint fuel) /\
  (forall left, stable_on ext (disjunctive_constraint_loop fuel left)) /\
  stable_on ext (conjunctive_constraint fuel) /\
  (forall left, stable_on ext (conjunctive_constraint_loop fuel left)) /\
  stable_on ext (negated_constraint fuel) /\
  stable_on ext (atomic_constraint fuel).
Proof.
  pose proof stable_field_constraint as Hfield.
  induction fuel as [| n (IHd & IHdl & IHc & IHcl & IHn & IHa)].
  - repeat split; intros; intros l a p' H; discriminate H.
  - repeat split; intros.
    + rewrite disjunctive_constraint_S. stab. apply IHdl.
    + rewrite disjunctive_constraint_loop_S. stab. apply IHdl.
    + rewrite conjunctive_constraint_S. stab. apply IHcl.
    + rewrite conjunctive_constraint_loop_S. stab. apply IHcl.
    + rewrite negated_constraint_S. stab.
    + rewrite atomic_constraint_S. stab.
Qed.

Lemma stable_pattern fuel :
  stable_on ext (disjunctive_token_pattern fuel) /\
  (forall left, stable_on ext (disjunctive_token_pattern_loop fuel left)) /\
  stable_on ext (concatenated_token_pattern fuel) /\
  (forall ps, stable_on ext (concatenated_token_pattern_loop fuel ps)) /\
  stable_on ext (quantified_token_pattern fuel) /\
  stable_on ext (atomic_token_pattern fuel) /\
  stable_on ext (capture_token_pattern fuel).
Proof.
  pose proof stable_field_constraint as Hfield.
  pose proof stable_mention_token_pattern as Hmention.
  induction fuel as [| n (IHd & IHdl & IHc & IHcl & IHq & IHa & IHk)].
  - repeat split; intros; intros l a p' H; discriminate H.
  - assert (Htc : stable_on ext (token_constraint n)).
    { apply stable_token_constraint. apply (stable_constraint n). }
    repeat split; intros.
    + rewrite disjunctive_token_pattern_S. stab. apply IHdl.
    + rewrite disjunctive_token_pattern_loop_S. stab. apply IHdl.
    + rewrite concatenated_token_pattern_S. stab. apply IHcl.
    + rewrite concatenated_token_pattern_loop_S. stab. apply IHcl.
    + rewrite quantified_token_pattern_S. stab.
    + rewrite atomic_token_pattern_S. stab.
    + rewrite capture_token_pattern_S. stab.
Qed.
End Stray.

(** What a production returns with some fuel, the entry point returns with
    its own. *)
Lemma parse_tokens_of_returns l ast p' :
  returns parse_token_pattern (new_parser l) ast p' ->
  parse_tokens l = Ok ast.
Proof.
  intros [n H]. unfold parse_tokens, parse_token_pattern in *.
  pose proof (proj1 (pattern_progress (parse_fuel l)) l (le_n _)) as Hprog.
  pose proof (mono_disjunctive_token_pattern (parse_fuel l)
                (max n (parse_fuel l)) (new_parser l) (Nat.le_max_r _ _))
    as Hle.
  rewrite (returns_at disjunctive_token_pattern _ _ _ n (max n (parse_fuel l))
             mono_disjunctive_token_pattern H (Nat.le_max_l _ _)) in Hle.
  destruct Hle as [Hout | Heq].
  - rewrite Hout in Hprog. destruct Hprog.
  - now rewrite Heq.
Qed.

(** C1, as amended. Tokens after a complete pattern raise no error: when
    the tokens of a text are a token pattern that the parser reads to its
    end, followed by a token that continues no production (a closing
    bracket or parenthesis, an equals sign, a colon, an anchor) and by
    anything else, the parse returns the tree of the pattern and leaves the
    trailing tokens unread. *)
Theorem trailing_stray_tokens_are_ignored lexer_tokens ast t rest :
  returns parse_token_pattern (new_parser lexer_tokens) ast (new_parser []) ->
  stray t = true ->
  parse_tokens (lexer_tokens ++ t :: rest) = Ok ast /\
  returns parse_token_pattern (new_parser (lexer_tokens ++ t :: rest)) ast
          (new_parser (t :: rest)).
Proof.
  intros [n H] Hstray.
  assert (Hret : returns parse_token_pattern
                   (new_parser (lexer_tokens ++ t :: rest)) ast
                   (new_parser (t :: rest))).
  { destruct (stable_pattern t rest Hstray n) as (Hd & _).
    destruct (Hd lexer_tokens ast _ H) as (l' & E & H').
    apply new_parser_inj in E. subst l'. now exists n. }
  split; [| exact Hret].
  now apply parse_tokens_of_returns in Hret.
Qed.

Lemma trailing_stray_tokens_are_ignored_witness :
  parse_tokens (((LBRACKET, "[") :: field_tokens "word" "x" ++ [(RBRACKET, "]")])
                ++ (RBRACKET, "]") :: [(EQUALS, "=")]) =
    Ok (Field "word" (Exact "x")) /\
  returns parse_token_pattern
    (new_parser (((LBRACKET, "[") :: field_tokens "word" "x" ++ [(RBRACKET, "]")])
                 ++ (RBRACKET, "]") :: [(EQUALS, "=")]))
    (Field "word" (Exact "x"))
    (new_parser ((RBRACKET, "]") :: [(EQUALS, "=")])).
Proof.
  apply trailing_stray_tokens_are_ignored.
  - exists 9. reflexivity.
  - reflexivity.
Defined.

(** C1, as stated, fails: a stray closing bracket after a well-formed
    bracketed constraint is lexed as a token of its own, and the parse of
    the whole text returns the tree of the constraint; no error is
    raised. *)
Lemma stray_bracket_is_accepted :
  parse_text "[word=x]" = Ok (Field "word" (Exact "x")) /\
  tokenize "[word=x]]" =
    Ok (((LBRACKET, "[") :: field_tokens "word" "x" ++ [(RBRACKET, "]")])
        ++ [(RBRACKET, "]")]) /\
  parse_text "[word=x]]" = Ok (Field "word" (Exact "x")) /\
  ~ (exists e, parse_text "[word=x]]" = Raise e).
Proof.
  assert (E : parse_text "[word=x]]" = Ok (Field "word" (Exact "x")))
    by reflexivity.
  repeat split; try reflexivity.
  intros [e He]. rewrite E in He. discriminate He.
Qed.

(* ================================================================== *)
(** * Further properties of the lexer *)

Lemma app_inv_tail_string (a b c : string) :
  (a ++ c = b ++ c)%string -> a = b.
Proof.
  revert b. induction a as [| x a IH]; intros b H.
  - destruct b as [| y b]; [reflexivity |].
    apply (f_equal String.length) in H. cbn in H.
    rewrite app_length_string in H. lia.
  - destruct b as [| y b].
    + apply (f_equal String.length) in H. cbn in H.
      rewrite app_length_string in H. lia.
    + cbn in H. injection H as -> H. f_equal. now apply IH.
Qed.

(** ** Every turn of the scan advances *)

(** X1. No rule of the table matches the empty text: a match at [pos] ends
    strictly after [pos] and within the text.  So the position grows at
    every turn of the loop of [tokenize], and the loop ends within as many
    turns as the text has characters: [tokenize] returns or raises. *)
Theorem lexer_always_advances (text : string) :
  (forall pos token_type e,
      first_match TOKEN_TYPES text pos = Some (token_type, e) ->
      pos < e /\ e <= String.length text) /\
  tokenize text <> OutOfFuel.
Proof.
  split; [| apply tokenize_total].
  intros pos ty e H.
  apply first_match_inv in H as (lx & rest & _ & Hdrop & Hne & Hpos & -> & _ & _).
  pose proof (string_drop_length pos text) as Hlen.
  rewrite Hdrop, app_length_string in Hlen.
  destruct lx; [contradiction |]. cbn in *. lia.
Qed.

Lemma lexer_always_advances_witness :
  3 < 8 /\ 8 <= String.length "@x 'a b' y".
Proof.
  apply (proj1 (lexer_always_advances "@x 'a b' y") 3 STRING 8).
  reflexivity.
Defined.

(** ** What the emitted tokens look like *)

Lemma lit_lexeme l lx rest :
  rmatch (Lit l) (lx ++ rest)%string (fun r => Some r) = Some rest ->
  lx = l.
Proof.
  cbn [rmatch]. destruct (match_lit l (lx ++ rest)%string) as [s' |] eqn:E;
    [| discriminate].
  intros [= ->]. apply match_lit_split in E.
  now apply app_inv_tail_string in E.
Qed.

Lemma word_lexeme lx rest :
  rmatch WORD_re (lx ++ rest)%string (fun r => Some r) = Some rest ->
  existsb (String.eqb lx) field_keywords = true.
Proof.
  unfold WORD_re. cbn [rmatch].
  repeat match goal with
         | |- context [match_lit ?l (lx ++ rest)%string] =>
             let E := fresh "E" in
             destruct (match_lit l (lx ++ rest)%string) as [s' |] eqn:E;
             [ intros [= ->]; apply match_lit_split in E;
               apply app_inv_tail_string in E; subst lx; reflexivity | ]
         end.
  discriminate.
Qed.

Lemma star_greedy_spec p s rest :
  star_greedy p s (fun r => Some r) = Some rest ->
  exists pre, s = (pre ++ rest)%string /\ string_forall p pre = true.
Proof.
  revert rest. induction s as [| c s IH]; intros rest; cbn.
  - intros [= <-]. now exists ""%string.
  - destruct (p c) eqn:Hc.
    + destruct (star_greedy_Some p s) as [r Hr]. rewrite Hr.
      intros [= <-]. destruct (IH r Hr) as (pre & -> & Hpre).
      exists (String c pre). cbn. now rewrite Hc, Hpre.
    + intros [= <-]. now exists ""%string.
Qed.

Lemma star_lazy_spec q s rest :
  star_lazy (in_class cls_dot) s
    (fun s' => rmatch (Lit (chr q)) s' (fun r => Some r)) = Some rest ->
  exists body,
    s = (body ++ String q rest)%string /\
    string_forall (fun c => is_dot c && negb (Ascii.eqb c q)) body = true.
Proof.
  revert rest. induction s as [| c s IH]; intros rest.
  - cbn. discriminate.
  - cbn [star_lazy rmatch match_lit chr in_class].
    destruct (Ascii.eqb q c) eqn:Eq.
    + apply Ascii.eqb_eq in Eq. subst c. intros [= <-].
      now exists ""%string.
    + destruct (is_dot c) eqn:Hdot; [| discriminate].
      intros H. destruct (IH rest H) as (body & -> & Hbody).
      exists (String c body). split; [reflexivity |].
      cbn [string_forall]. rewrite Hdot, Ascii.eqb_sym, Eq. exact Hbody.
Qed.

Lemma body_then_quote_intro q body :
  string_forall (fun c => is_dot c && negb (Ascii.eqb c q)) body = true ->
  body_then_quote q (body ++ chr q)%string = true.
Proof.
  induction body as [| c body IH]; intros H.
  - cbn. apply Ascii.eqb_refl.
  - cbn [string_forall] in H. apply andb_true_iff in H as [Hc H].
    cbn [append body_then_quote].
    destruct (body ++ chr q)%string as [| d r] eqn:E.
    { destruct body; discriminate E. }
    rewrite Hc. now apply IH.
Qed.

Lemma quoted_lexeme q lx rest :
  rmatch (Cat (Lit (chr q)) (Cat (LazyStar cls_dot) (Lit (chr q))))
         (lx ++ rest)%string (fun r => Some r) = Some rest ->
  quoted_with q lx = true.
Proof.
  cbn [rmatch].
  destruct (match_lit (chr q) (lx ++ rest)%string) as [s1 |] eqn:E;
    [| discriminate].
  apply match_lit_split in E. intros H.
  apply star_lazy_spec in H as (body & -> & Hbody).
  assert (Hlx : lx = String q (body ++ chr q)%string).
  { apply (app_inv_tail_string _ _ rest). rewrite E. unfold chr.
    cbn [append]. f_equal. now rewrite app_assoc_string. }
  subst lx. cbn [quoted_with]. rewrite Ascii.eqb_refl.
  now apply body_then_quote_intro.
Qed.

Lemma word_run_lexeme lx rest :
  rmatch (Plus cls_w) (lx ++ rest)%string (fun r => Some r) = Some rest ->
  negb (String.eqb lx "") && string_forall is_word lx = true.
Proof.
  cbn [rmatch]. destruct (lx ++ rest)%string as [| c s] eqn:E; [discriminate |].
  cbn [in_class]. destruct (is_word c) eqn:Hc; [| discriminate].
  intros H. apply star_greedy_spec in H as (pre & -> & Hpre).
  assert (Hlx : lx = String c pre).
  { apply (app_inv_tail_string _ _ rest). now rewrite E. }
  subst lx. cbn. now rewrite Hc.
Qed.

Lemma string_lexeme_of_rule lx rest :
  rmatch STRING_re (lx ++ rest)%string (fun r => Some r) = Some rest ->
  string_lexeme lx = true.
Proof.
  unfold STRING_re, string_lexeme. intros H.
  change (rmatch (Alt ?a ?b) ?s ?k)
    with (match rmatch a s k with Some x => Some x | None => rmatch b s k end)
    in H.
  destruct (rmatch (Cat (Lit (chr dquote)) _) _ _) as [x |] eqn:E1.
  { injection H as ->. now rewrite (quoted_lexeme dquote lx rest E1). }
  change (rmatch (Alt ?a ?b) ?s ?k)
    with (match rmatch a s k with Some x => Some x | None => rmatch b s k end)
    in H.
  destruct (rmatch (Cat (Lit (chr squote)) _) _ _) as [x |] eqn:E2.
  { injection H as ->. rewrite (quoted_lexeme squote lx rest E2).
    now rewrite orb_true_r. }
  rewrite (word_run_lexeme lx rest H). now rewrite orb_true_r.
Qed.

(** The rule that wins a turn emits a token whose lexeme is the one the
    table pairs with its kind, unless it is the white-space rule. *)
Lemma first_rule_token_ok lx rest ty :
  first_rule TOKEN_TYPES (lx ++ rest)%string = Some (ty, rest) ->
  ty = WHITESPACE \/ token_ok (ty, lx) = true.
Proof.
  intros H. pose proof (first_rule_reachable _ _ _ H) as (N1 & N2 & N3 & N4 & N5).
  unfold TOKEN_TYPES in H.
  apply first_rule_cons_inv in H as [[E ->] | [_ H]]; [now left |].
  right.
  repeat (let E := fresh "E" in
          apply first_rule_cons_inv in H as [[E ->] | [_ H]];
          [ first [ contradiction
                  | apply lit_lexeme in E; subst lx; reflexivity
                  | now apply word_lexeme in E
                  | now apply string_lexeme_of_rule in E ] | ]).
  discriminate H.
Qed.

Lemma tokenize_loop_tokens (P : Token -> Prop) text :
  (forall pos ty e,
      first_match TOKEN_TYPES text pos = Some (ty, e) ->
      TokenType_eqb ty WHITESPACE = false ->
      P (ty, substring pos (e - pos) text)) ->
  forall fuel pos acc toks,
    Forall P acc ->
    tokenize_loop fuel text pos acc = Ok toks ->
    Forall P toks.
Proof.
  intros HP. induction fuel as [| n IH]; intros pos acc toks Hacc;
    cbn [tokenize_loop]; [discriminate |].
  destruct (pos <? String.length text).
  - destruct (first_match TOKEN_TYPES text pos) as [[ty e] |] eqn:E;
      [| discriminate].
    apply IH. destruct (TokenType_eqb ty WHITESPACE) eqn:Ews; [assumption |].
    apply Forall_app. split; [assumption |].
    constructor; [| constructor]. now apply HP.
  - now intros [= <-].
Qed.

(** One turn of the scan emits a token of this shape. *)
Lemma first_match_token_ok text pos ty e :
  first_match TOKEN_TYPES text pos = Some (ty, e) ->
  TokenType_eqb ty WHITESPACE = false ->
  token_ok (ty, substring pos (e - pos) text) = true.
Proof.
  intros Hfm Hws.
  apply first_match_inv in Hfm
    as (lx & rest & Hrule & Hdrop & _ & _ & _ & Hsub & _).
  rewrite Hsub. rewrite Hdrop in Hrule.
  destruct (first_rule_token_ok lx rest ty Hrule) as [-> | Hok];
    [discriminate Hws | exact Hok].
Qed.

Lemma tokenize_lexed text toks :
  tokenize text = Ok toks -> lexed toks.
Proof.
  intros H.
  apply (tokenize_loop_tokens (fun t => token_ok t = true) text) in H; auto.
  apply first_match_token_ok.
Qed.

(** X2. Every token that [tokenize] returns pairs its kind with the lexeme
    of that kind's rule: a one-character kind carries its character, a
    field-keyword token one of the eight keywords, a string-literal token
    a quote-delimited text (without line feed or inner quote) or a
    non-empty run of word characters; and no token has the kind of the
    white-space rule or of a rule that is shadowed. *)
Theorem tokens_match_their_rules text toks :
  tokenize text = Ok toks ->
  Forall (fun t => token_ok t = true) toks.
Proof.
  intros H.
  apply (tokenize_loop_tokens (fun t => token_ok t = true) text) in H; auto.
  intros pos ty e Hfm Hws.
  apply first_match_inv in Hfm
    as (lx & rest & Hrule & Hdrop & _ & _ & _ & Hsub & _).
  rewrite Hsub. rewrite Hdrop in Hrule.
  destruct (first_rule_token_ok lx rest ty Hrule) as [-> | Hok];
    [discriminate Hws | exact Hok].
Qed.

Lemma tokens_match_their_rules_witness :
  Forall (fun t => token_ok t = true)
         [(LBRACKET, "["); (WORD, "tag"); (EQUALS, "="); (STRING, "'N N'");
          (RBRACKET, "]"); (PLUS, "+"); (AT, "@"); (STRING, "x_1")].
Proof.
  apply (tokens_match_their_rules "[tag='N N']+ @x_1"). reflexivity.
Defined.

(** ** Blank texts *)

Lemma append_empty_r (s : string) : (s ++ "")%string = s.
Proof. induction s as [| c s IH]; cbn; [reflexivity | now rewrite IH]. Qed.

(** X3. A text made of white space only, the empty text included, has no
    tokens, and the pipeline rejects it: the pattern parser finds the end
    of input where a pattern must start. *)
Theorem blank_text_is_rejected ws :
  string_forall is_space ws = true ->
  tokenize ws = Ok [] /\
  parse_text ws =
    Raise (SyntaxError "Unexpected token 'EOF' in AtomicTokenPattern").
Proof.
  intros Hws.
  assert (Htok : tokenize ws = Ok []).
  { destruct ws as [| c w]; [reflexivity |].
    cbn [string_forall] in Hws. apply andb_true_iff in Hws as [Hc Hw].
    assert (Hrule : first_rule TOKEN_TYPES (String c w ++ "")%string =
                    Some (WHITESPACE, ""%string)).
    { unfold TOKEN_TYPES. cbn [first_rule rmatch append in_class].
      rewrite Hc.
      now rewrite (star_greedy_run (in_class cls_s) w ""%string Hw eq_refl). }
    unfold tokenize.
    rewrite (tokenize_loop_step (String c w) 0 WHITESPACE (String c w) ""
               (String.length (String c w)) []);
      [| cbn [string_drop]; now rewrite append_empty_r | exact Hrule].
    cbn [TokenType_eqb Nat.add]. cbn [tokenize_loop String.length].
    now rewrite Nat.ltb_irrefl. }
  split; [exact Htok |]. unfold parse_text. rewrite Htok. reflexivity.
Qed.

Lemma blank_text_is_rejected_witness :
  tokenize "  " = Ok [] /\
  parse_text "  " =
    Raise (SyntaxError "Unexpected token 'EOF' in AtomicTokenPattern").
Proof. apply blank_text_is_rejected. reflexivity. Defined.

(** ** Quotes that are not closed *)

Lemma star_lazy_unclosed q pre rest :
  Ascii.eqb q newline = false ->
  string_forall (fun c => is_dot c && negb (Ascii.eqb c q)) pre = true ->
  starts_with is_dot rest = false ->
  star_lazy (in_class cls_dot) (pre ++ rest)%string
    (fun s' => rmatch (Lit (chr q)) s' (fun r => Some r)) = None.
Proof.
  intros Hq Hpre Hrest. induction pre as [| c pre IH].
  - cbn [append]. destruct rest as [| c r].
    + reflexivity.
    + cbn [starts_with] in Hrest.
      cbn [star_lazy rmatch match_lit chr in_class]. rewrite Hrest.
      assert (Hc : c = newline).
      { unfold is_dot in Hrest. apply negb_false_iff in Hrest.
        now apply Ascii.eqb_eq in Hrest. }
      subst c. now rewrite Hq.
  - cbn [string_forall] in Hpre. apply andb_true_iff in Hpre as [Hc Hpre].
    apply andb_true_iff in Hc as [Hdot Hne].
    apply negb_true_iff in Hne. rewrite Ascii.eqb_sym in Hne.
    cbn [append star_lazy rmatch match_lit chr in_class].
    rewrite Hne, Hdot. now apply IH.
Qed.

Lemma first_rule_unclosed q s :
  q = dquote \/ q = squote ->
  star_lazy (in_class cls_dot) s
    (fun s' => rmatch (Lit (chr q)) s' (fun r => Some r)) = None ->
  first_rule TOKEN_TYPES (String q s) = None.
Proof.
  intros [-> | ->] H; unfold TOKEN_TYPES, STRING_re, WORD_re;
    cbn [first_rule rmatch]; cbn [rmatch] in H.
  - change (match_lit (chr dquote) (String dquote s)) with (Some s).
    cbv beta iota. rewrite H. reflexivity.
  - change (match_lit (chr squote) (String squote s)) with (Some s).
    change (match_lit (chr dquote) (String squote s)) with (@None string).
    cbv beta iota. rewrite H. reflexivity.
Qed.

(** X4. A quote that is not closed on its line is reported as an unknown
    character: where the scan comes to a single or double quote and the
    text after it reaches a line feed or the end of the input before the
    same quote occurs again, tokenization (and the pipeline) raises the
    SyntaxError that names the quote character. *)
Theorem unclosed_quote_is_unknown_character text pos toks q pre rest :
  scan_reaches text pos toks ->
  q = dquote \/ q = squote ->
  string_drop pos text = String q (pre ++ rest) ->
  string_forall (fun c => is_dot c && negb (Ascii.eqb c q)) pre = true ->
  starts_with is_dot rest = false ->
  tokenize text =
    Raise (SyntaxError ("Unknown character: " ++ chr q)%string) /\
  parse_text text =
    Raise (SyntaxError ("Unknown character: " ++ chr q)%string).
Proof.
  intros Hscan Hq Hdrop Hpre Hrest.
  assert (Hnl : Ascii.eqb q newline = false)
    by (destruct Hq as [-> | ->]; reflexivity).
  pose proof (first_rule_unclosed q (pre ++ rest)%string Hq
                (star_lazy_unclosed q pre rest Hnl Hpre Hrest)) as Hnone.
  assert (Htok : tokenize text =
                 Raise (SyntaxError ("Unknown character: " ++ chr q)%string)).
  { apply scan_reaches_loop in Hscan as (fuel & Hf & ->).
    destruct fuel as [| fuel]; [lia |].
    now apply (tokenize_loop_fail text pos q (pre ++ rest)%string). }
  split; [exact Htok |]. unfold parse_text. now rewrite Htok.
Qed.

Lemma unclosed_quote_is_unknown_character_witness :
  tokenize "[word='ab]" = Raise (SyntaxError "Unknown character: '") /\
  parse_text "[word='ab]" = Raise (SyntaxError "Unknown character: '").
Proof.
  apply (unclosed_quote_is_unknown_character "[word='ab]" 6
           [(LBRACKET, "["); (WORD, "word"); (EQUALS, "=")] squote "ab]" "").
  - apply (scan_next "[word='ab]" 5 [(LBRACKET, "["); (WORD, "word")] EQUALS 6).
    + apply (scan_next "[word='ab]" 1 [(LBRACKET, "[")] WORD 5).
      * apply (scan_next "[word='ab]" 0 [] LBRACKET 1).
        -- apply scan_start.
        -- cbn. lia.
        -- reflexivity.
      * cbn. lia.
      * reflexivity.
    + cbn. lia.
    + reflexivity.
  - now right.
  - reflexivity.
  - reflexivity.
  - reflexivity.
Defined.

(* ================================================================== *)
(** * Further properties of the parsers *)

(** ** Invariants of the productions on lexed tokens *)

Lemma lexed_suffix used l' :
  lexed (used ++ l') -> lexed l'.
Proof. unfold lexed. intros H. now apply Forall_app in H. Qed.

Lemma keeps_ret {A} (Q : A -> Prop) a l : Q a -> keeps_at Q (ret a) l.
Proof. intros H. cbn. now exists [], l. Qed.

Lemma keeps_bind {A B} (Q1 : A -> Prop) (Q2 : B -> Prop)
      (m : M A) (k : A -> M B) l :
  lexed l ->
  keeps_at Q1 m l ->
  (forall a l', lexed l' -> Q1 a -> keeps_at Q2 (k a) l') ->
  keeps_at Q2 (bind m k) l.
Proof.
  unfold keeps_at, bind. intros Hl Hm Hk.
  destruct (m (new_parser l)) as [[a p'] | [msg | msg] |]; auto.
  destruct Hm as (used & l' & -> & -> & Ha).
  specialize (Hk a l' (lexed_suffix _ _ Hl) Ha).
  destruct (k a (new_parser l')) as [[b p''] | [msg | msg] |]; auto.
  destruct Hk as (used' & l'' & -> & -> & Hb).
  exists (used ++ used'), l''. now rewrite app_assoc.
Qed.

Lemma keeps_weaken {A} (Q Q' : A -> Prop) (f : M A) l :
  (forall a, Q a -> Q' a) -> keeps_at Q f l -> keeps_at Q' f l.
Proof.
  unfold keeps_at. intros HQ H.
  destruct (f (new_parser l)) as [[a p'] | [msg | msg] |]; auto.
  destruct H as (used & l' & -> & -> & Ha). exists used, l'. auto.
Qed.

Lemma keeps_if {A} (Q : A -> Prop) (c : Parser -> bool) (f g : M A) l :
  (c (new_parser l) = true -> keeps_at Q f l) ->
  (c (new_parser l) = false -> keeps_at Q g l) ->
  keeps_at Q (fun p => if c p then f p else g p) l.
Proof.
  unfold keeps_at. intros Hf Hg.
  destruct (c (new_parser l)); [now apply Hf | now apply Hg].
Qed.

Lemma keeps_eat ty l : keeps_at (fun _ => True) (eat ty) l.
Proof.
  unfold keeps_at, eat. destruct l as [| [ty' lx] l]; [exact I |].
  rewrite current_is_cons. destruct (TokenType_eqb ty' ty); [| exact I].
  exists [(ty', lx)], l. auto.
Qed.

Lemma current_is_head ty l :
  current_is ty (new_parser l) = true ->
  exists lx l', l = (ty, lx) :: l'.
Proof.
  destruct l as [| [ty' lx] l]; [discriminate |].
  rewrite current_is_cons. intros H. apply TokenType_eqb_eq in H. subst.
  now exists lx, l.
Qed.

Lemma lexed_cons t l : lexed (t :: l) -> token_ok t = true /\ lexed l.
Proof. unfold lexed. intros H. now inversion H. Qed.

Lemma keeps_string_matcher l :
  lexed l ->
  keeps_at (fun m => exists lit, m = Exact lit /\ string_lexeme lit = true)
           string_matcher l.
Proof.
  intros Hl. unfold keeps_at, string_matcher.
  destruct (current_is STRING (new_parser l)) eqn:E; [| exact I].
  apply current_is_head in E as (lx & l' & ->).
  apply lexed_cons in Hl as [Hok _]. cbn.
  exists [(STRING, lx)], l'. repeat split. now exists lx.
Qed.

Lemma keeps_field_constraint l :
  lexed l ->
  current_is WORD (new_parser l) = true ->
  keeps_at (fun a => wf_constraint a = true) field_constraint l.
Proof.
  intros Hl E. apply current_is_head in E as (n & l' & ->).
  pose proof Hl as Hl0. apply lexed_cons in Hl as [Hn Hl'].
  unfold field_constraint.
  change (keeps_at (fun a => wf_constraint a = true)
            (eat WORD ;;; eat EQUALS ;;; m <- string_matcher ;;
             ret (Field n m)) ((WORD, n) :: l')).
  eapply keeps_bind; [exact Hl0 | apply keeps_eat |].
  intros _ l1 Hl1 _.
  eapply keeps_bind; [exact Hl1 | apply keeps_eat |].
  intros _ l2 Hl2 _.
  eapply keeps_bind; [exact Hl2 | now apply keeps_string_matcher |].
  intros m l3 Hl3 (lit & -> & Hlit).
  apply keeps_ret. cbn [wf_constraint]. cbn [token_ok] in Hn.
  unfold is_keyword. now rewrite Hn, Hlit.
Qed.

Lemma keeps_mention_token_pattern l :
  lexed l ->
  keeps_at (fun a => wf_pattern a = true) mention_token_pattern l.
Proof.
  intros Hl. unfold mention_token_pattern.
  eapply keeps_bind; [exact Hl | apply keeps_eat |].
  intros _ l1 Hl1 _.
  eapply keeps_bind with
    (Q1 := fun m => m = PyNone \/
                    exists lit, m = Exact lit /\ string_lexeme lit = true);
    [exact Hl1 | |].
  - apply keeps_if; intros _.
    + eapply keeps_weaken; [| now apply keeps_string_matcher]. auto.
    + apply keeps_ret. now left.
  - intros m l2 Hl2 [-> | (lit & -> & Hlit)]; now apply keeps_ret.
Qed.

(** The block of [quantified_token_pattern] that reads a quantifier. *)
Lemma keeps_quantifier atom l :
  lexed l ->
  wf_pattern atom = true ->
  current_in quantifiers (new_parser l) = true ->
  keeps_at (fun a => wf_pattern a = true)
           (quantifier <- current_lexeme ;;
            ty <- current_type ;;
            eat ty ;;;
            ret (Quant atom quantifier)) l.
Proof.
  intros Hl Hatom Hq. destruct l as [| [ty lx] l'].
  - now rewrite current_in_nil in Hq.
  - apply lexed_cons in Hl as [Hok _]. rewrite current_in_cons in Hq.
    unfold keeps_at, bind.
    change (current_lexeme (new_parser ((ty, lx) :: l')))
      with (Ok (lx, new_parser ((ty, lx) :: l'))).
    cbv beta iota.
    change (current_type (new_parser ((ty, lx) :: l')))
      with (Ok (ty, new_parser ((ty, lx) :: l'))).
    cbv beta iota. rewrite eat_cons. cbn [ret].
    exists [(ty, lx)], l'. repeat split.
    cbn [wf_pattern]. rewrite Hatom. cbn [andb]. unfold is_quantifier.
    destruct ty; cbn in Hq; try discriminate Hq; cbn [token_ok] in Hok;
      apply String.eqb_eq in Hok; subst lx; reflexivity.
Qed.

Lemma wf_constraint_pattern a :
  wf_constraint a = true -> wf_pattern a = true.
Proof.
  induction a; cbn [wf_constraint wf_pattern]; try discriminate; auto.
  intros H. apply andb_true_iff in H as [H1 H2].
  now rewrite IHa1, IHa2.
Qed.

Lemma lexed_not_capture l :
  lexed l -> current_is CAPTURE_START (new_parser l) = false.
Proof.
  intros Hl. destruct (current_is CAPTURE_START (new_parser l)) eqn:E;
    [| reflexivity].
  apply current_is_head in E as (lx & l' & ->).
  apply lexed_cons in Hl as [Hok _]. discriminate Hok.
Qed.

Lemma keeps_constraint n :
  (forall l, lexed l ->
     keeps_at (fun a => wf_constraint a = true)
              (disjunctive_constraint n) l) /\
  (forall left l, lexed l -> wf_constraint left = true ->
     keeps_at (fun a => wf_constraint a = true)
              (disjunctive_constraint_loop n left) l) /\
  (forall l, lexed l ->
     keeps_at (fun a => wf_constraint a = true)
              (conjunctive_constraint n) l) /\
  (forall left l, lexed l -> wf_constraint left = true ->
     keeps_at (fun a => wf_constraint a = true)
              (conjunctive_constraint_loop n left) l) /\
  (forall l, lexed l ->
     keeps_at (fun a => wf_constraint a = true) (negated_constraint n) l) /\
  (forall l, lexed l ->
     keeps_at (fun a => wf_constraint a = true) (atomic_constraint n) l).
Proof.
  induction n as [| n (IHd & IHdl & IHc & IHcl & IHn & IHa)].
  - repeat split; intros; exact I.
  - repeat split.
    + intros l Hl. rewrite disjunctive_constraint_S.
      eapply keeps_bind; [exact Hl | now apply IHc |].
      intros a l1 Hl1 Ha. now apply IHdl.
    + intros left l Hl Hleft. rewrite disjunctive_constraint_loop_S.
      apply keeps_if; intros _; [| now apply keeps_ret].
      eapply keeps_bind; [exact Hl | apply keeps_eat |].
      intros _ l1 Hl1 _.
      eapply keeps_bind; [exact Hl1 | now apply IHc |].
      intros a l2 Hl2 Ha. apply IHdl; [exact Hl2 |].
      cbn [wf_constraint]. now rewrite Hleft, Ha.
    + intros l Hl. rewrite conjunctive_constraint_S.
      eapply keeps_bind; [exact Hl | now apply IHn |].
      intros a l1 Hl1 Ha. now apply IHcl.
    + intros left l Hl Hleft. rewrite conjunctive_constraint_loop_S.
      apply keeps_if; intros _; [| now apply keeps_ret].
      eapply keeps_bind; [exact Hl | apply keeps_eat |].
      intros _ l1 Hl1 _.
      eapply keeps_bind; [exact Hl1 | now apply IHn |].
      intros a l2 Hl2 Ha. apply IHcl; [exact Hl2 |].
      cbn [wf_constraint]. now rewrite Hleft, Ha.
    + intros l Hl. rewrite negated_constraint_S.
      apply keeps_if; intros _; [| now apply IHa].
      eapply keeps_bind; [exact Hl | apply keeps_eat |].
      intros _ l1 Hl1 _.
      eapply keeps_bind; [exact Hl1 | now apply IHa |].
      intros a l2 Hl2 Ha. now apply keeps_ret.
    + intros l Hl. rewrite atomic_constraint_S.
      apply keeps_if; intros Hw; [now apply keeps_field_constraint |].
      apply keeps_if; intros _; [| exact I].
      eapply keeps_bind; [exact Hl | apply keeps_eat |].
      intros _ l1 Hl1 _.
      eapply keeps_bind; [exact Hl1 | now apply IHd |].
      intros a l2 Hl2 Ha.
      eapply keeps_bind; [exact Hl2 | apply keeps_eat |].
      intros _ l3 Hl3 _. now apply keeps_ret.
Qed.

Lemma keeps_token_constraint n l :
  lexed l ->
  keeps_at (fun a => a = PyNone \/ wf_constraint a = true)
           (token_constraint n) l.
Proof.
  intros Hl. unfold token_constraint.
  eapply keeps_bind; [exact Hl | apply keeps_eat |].
  intros _ l1 Hl1 _.
  eapply keeps_bind with
    (Q1 := fun a => a = PyNone \/ wf_constraint a = true); [exact Hl1 | |].
  - apply keeps_if; intros _.
    + eapply keeps_weaken; [| now apply (keeps_constraint n)]. auto.
    + apply keeps_ret. now left.
  - intros a l2 Hl2 Ha.
    eapply keeps_bind; [exact Hl2 | apply keeps_eat |].
    intros _ l3 Hl3 _. now apply keeps_ret.
Qed.

Lemma wf_seq_or_single ps :
  ps <> [] ->
  forallb wf_pattern ps = true ->
  wf_pattern (seq_or_single ps) = true.
Proof.
  intros Hne Hall. unfold seq_or_single.
  destruct ps as [| a [| b ps]]; [contradiction | |].
  - cbn in *. now apply andb_true_iff in Hall.
  - cbn [List.length Nat.eqb]. cbn [wf_pattern]. now rewrite Hall.
Qed.

Lemma keeps_pattern n :
  (forall l, lexed l ->
     keeps_at (fun a => wf_pattern a = true)
              (disjunctive_token_pattern n) l) /\
  (forall left l, lexed l -> wf_pattern left = true ->
     keeps_at (fun a => wf_pattern a = true)
              (disjunctive_token_pattern_loop n left) l) /\
  (forall l, lexed l ->
     keeps_at (fun a => wf_pattern a = true)
              (concatenated_token_pattern n) l) /\
  (forall ps l, lexed l -> ps <> [] -> forallb wf_pattern ps = true ->
     keeps_at (fun ps' => ps' <> [] /\ forallb wf_pattern ps' = true)
              (concatenated_token_pattern_loop n ps) l) /\
  (forall l, lexed l ->
     keeps_at (fun a => wf_pattern a = true)
              (quantified_token_pattern n) l) /\
  (forall l, lexed l ->
     keeps_at (fun a => wf_pattern a = true) (atomic_token_pattern n) l).
Proof.
  induction n as [| n (IHd & IHdl & IHc & IHcl & IHq & IHa)].
  - repeat split; intros; exact I.
  - repeat split.
    + intros l Hl. rewrite disjunctive_token_pattern_S.
      eapply keeps_bind; [exact Hl | now apply IHc |].
      intros a l1 Hl1 Ha. now apply IHdl.
    + intros left l Hl Hleft. rewrite disjunctive_token_pattern_loop_S.
      apply keeps_if; intros _; [| now apply keeps_ret].
      eapply keeps_bind; [exact Hl | apply keeps_eat |].
      intros _ l1 Hl1 _.
      eapply keeps_bind; [exact Hl1 | now apply IHc |].
      intros a l2 Hl2 Ha. apply IHdl; [exact Hl2 |].
      cbn [wf_pattern]. now rewrite Hleft, Ha.
    + intros l Hl. rewrite concatenated_token_pattern_S.
      eapply keeps_bind; [exact Hl | now apply IHq |].
      intros a l1 Hl1 Ha.
      eapply keeps_bind; [exact Hl1 | apply IHcl |].
      * exact Hl1.
      * discriminate.
      * cbn. now rewrite Ha.
      * intros ps l2 Hl2 [Hne Hall]. apply keeps_ret.
        now apply wf_seq_or_single.
    + intros ps l Hl Hne Hall. rewrite concatenated_token_pattern_loop_S.
      apply keeps_if; intros _; [| now apply keeps_ret].
      eapply keeps_bind; [exact Hl | now apply IHq |].
      intros a l1 Hl1 Ha. apply IHcl; [exact Hl1 | |].
      * intros E. apply app_eq_nil in E as [_ E]. discriminate E.
      * rewrite forallb_app, Hall. cbn. now rewrite Ha.
    + intros l Hl. rewrite quantified_token_pattern_S.
      eapply keeps_bind; [exact Hl | now apply IHa |].
      intros a l1 Hl1 Ha.
      apply keeps_if; intros Hq; [| now apply keeps_ret].
      now apply keeps_quantifier.
    + intros l Hl. rewrite atomic_token_pattern_S.
      apply keeps_if; intros Hw.
      { eapply keeps_weaken; [| now apply keeps_field_constraint].
        apply wf_constraint_pattern. }
      apply keeps_if; intros _.
      { eapply keeps_weaken; [| now apply keeps_token_constraint].
        intros a [-> | Ha]; [reflexivity | now apply wf_constraint_pattern]. }
      apply keeps_if; intros _.
      { eapply keeps_bind; [exact Hl | apply keeps_eat |].
        intros _ l1 Hl1 _.
        eapply keeps_bind; [exact Hl1 | now apply IHd |].
        intros a l2 Hl2 Ha.
        eapply keeps_bind; [exact Hl2 | apply keeps_eat |].
        intros _ l3 Hl3 _. now apply keeps_ret. }
      apply keeps_if; intros _; [now apply keeps_mention_token_pattern |].
      apply keeps_if; intros Hcap; [| exact I].
      rewrite (lexed_not_capture l Hl) in Hcap. discriminate Hcap.
Qed.

(** ** Errors and trees of the pipeline *)

Lemma tokenize_loop_raises text : forall fuel pos acc e,
  tokenize_loop fuel text pos acc = Raise e ->
  exists msg, e = SyntaxError msg.
Proof.
  induction fuel as [| n IH]; intros pos acc e; cbn [tokenize_loop];
    [discriminate |].
  destruct (pos <? String.length text); [| discriminate].
  destruct (first_match TOKEN_TYPES text pos) as [[ty e'] |].
  - apply IH.
  - intros [= <-]. now eexists.
Qed.

Lemma keeps_parse_tokens l :
  lexed l ->
  match parse_tokens l with
  | Ok ast => wf_pattern ast = true
  | Raise (TypeError _) => False
  | _ => True
  end.
Proof.
  intros Hl. unfold parse_tokens, parse_token_pattern.
  pose proof (proj1 (keeps_pattern (parse_fuel l)) l Hl) as H.
  unfold keeps_at in H.
  destruct (disjunctive_token_pattern (parse_fuel l) (new_parser l))
    as [[a p'] | [msg | msg] |]; auto.
  now destruct H as (used & l' & _ & _ & Ha).
Qed.

(** X5. The parser never subscripts [None] on lexed tokens.  The
    subscripts of [self.current_token] in [field_constraint],
    [quantified_token_pattern] and [capture_token_pattern] are never
    applied to [None]: on the tokens of any text, and on any token list
    that pairs kinds and lexemes as the lexer does, the parse never raises
    the TypeError of such a subscript.  (The statement is about that
    exception alone.  The interpreter's bound on the depth of the call
    stack is no part of the embedding: on a pattern nested some hundreds
    of parentheses deep Python raises RecursionError, where the embedding
    goes on and returns.) *)
Theorem lexed_tokens_never_subscript_none :
  (forall l msg, lexed l -> parse_tokens l <> Raise (TypeError msg)) /\
  (forall text msg, parse_text text <> Raise (TypeError msg)).
Proof.
  split.
  - intros l msg Hl H. pose proof (keeps_parse_tokens l Hl) as K.
    now rewrite H in K.
  - intros text msg H. unfold parse_text in H.
    destruct (tokenize text) as [toks | e |] eqn:E; [| | discriminate H].
    + pose proof (keeps_parse_tokens toks
                    (tokenize_lexed text toks E)) as K.
      now rewrite H in K.
    + apply tokenize_loop_raises in E as [m ->]. discriminate H.
Qed.

Lemma lexed_tokens_never_subscript_none_witness :
  parse_tokens [(LBRACKET, "["); (WORD, "tag"); (RBRACKET, "]")] <>
    Raise (TypeError "'NoneType' object is not subscriptable").
Proof.
  apply (proj1 lexed_tokens_never_subscript_none).
  repeat constructor.
Defined.

(** On token lists that the lexer cannot produce the TypeError is there:
    a capture opener at the end of the input makes
    [capture_token_pattern] subscript [None]. *)
Example capture_opener_at_end_is_type_error :
  parse_tokens [(CAPTURE_START, "(?<")] =
    Raise (TypeError "'NoneType' object is not subscriptable").
Proof. reflexivity. Qed.

(** X6. The trees of the pipeline are well formed.  Every tree that
    [parse_text] returns is a tree of the pattern grammar: each field name
    is one of the eight keywords and its matcher an [Exact] node whose
    literal is the lexeme of a string token, each quantifier is one of the
    three symbols, each [Seq] has two elements or more, each mention has
    no matcher or an [Exact] one, and there is no [Capture] node.  What
    [parse], the constraint parser, returns on the tokens of a text is
    [PyNone] or a tree of the constraint grammar. *)
Theorem parsed_trees_are_well_formed :
  (forall text ast, parse_text text = Ok ast -> wf_pattern ast = true) /\
  (forall text toks n a p',
      tokenize text = Ok toks ->
      parse n (new_parser toks) = Ok (a, p') ->
      a = PyNone \/ wf_constraint a = true).
Proof.
  split.
  - intros text ast H. unfold parse_text in H.
    destruct (tokenize text) as [toks | e |] eqn:E; try discriminate H.
    pose proof (keeps_parse_tokens toks (tokenize_lexed text toks E)) as K.
    now rewrite H in K.
  - intros text toks n a p' E H.
    pose proof (keeps_token_constraint n toks (tokenize_lexed text toks E)) as K.
    unfold keeps_at in K. unfold parse in H. rewrite H in K.
    now destruct K as (used & l' & _ & _ & Ha).
Qed.

Lemma parsed_trees_are_well_formed_witness :
  wf_pattern (Seq [Quant PyNone "*"; Mention PyNone;
                   Or (Field "tag" (Exact "'N'")) (Field "word" (Exact "x"))])
    = true /\
  (And (Field "tag" (Exact "a")) (Not (Field "word" (Exact "b"))) = PyNone \/
   wf_constraint
     (And (Field "tag" (Exact "a")) (Not (Field "word" (Exact "b")))) = true).
Proof.
  split.
  - apply (proj1 parsed_trees_are_well_formed
             "[]* @ ([tag='N'] | word=x)").
    reflexivity.
  - apply (proj2 parsed_trees_are_well_formed "[tag=a & !word=b]"
             ((LBRACKET, "[") :: field_tokens "tag" "a" ++ (AND, "&")
              :: (NOT, "!") :: field_tokens "word" "b" ++ [(RBRACKET, "]")])
             5 _ (new_parser [])).
    + reflexivity.
    + reflexivity.
Defined.

(** ** What the productions of the pattern grammar return *)

Lemma bind_Raise {A B} (m : M A) (k : A -> M B) p e :
  m p = Raise e -> bind m k p = Raise e.
Proof. unfold bind. now intros ->. Qed.

Lemma bind_Ok_inv {A B} (m : M A) (k : A -> M B) p r :
  bind m k p = Ok r ->
  exists a p', m p = Ok (a, p') /\ k a p' = Ok r.
Proof.
  unfold bind. destruct (m p) as [[a p'] | e |]; try discriminate.
  intros H. now exists a, p'.
Qed.

Lemma eat_fails ty l :
  current_is ty (new_parser l) = false ->
  eat ty (new_parser l) =
    Raise (SyntaxError
             ("Expected " ++ type_name ty ++ " but got " ++ got_name l)%string).
Proof.
  intros H. unfold eat. rewrite H. destruct l as [| [ty' lx] l]; reflexivity.
Qed.

Lemma current_in_head tys ty lx l :
  In ty tys -> current_in tys (new_parser ((ty, lx) :: l)) = true.
Proof.
  intros H. rewrite current_in_cons. apply existsb_exists.
  exists ty. split; [exact H | apply TokenType_eqb_refl].
Qed.

(** X7. A quantifier applies to the atomic pattern before it, once.  When
    the token after an atomic pattern is a star, a plus or a question
    mark, [quantified_token_pattern] consumes that one token and returns
    the [Quant] node of the atom and the token's lexeme (a second
    quantifier is left unread); otherwise it returns the atom as it is. *)
Theorem quantifier_applies_once :
  (forall l atom ty lx l',
      returns atomic_token_pattern (new_parser l) atom
              (new_parser ((ty, lx) :: l')) ->
      In ty quantifiers ->
      returns quantified_token_pattern (new_parser l) (Quant atom lx)
              (new_parser l')) /\
  (forall l atom l',
      returns atomic_token_pattern (new_parser l) atom (new_parser l') ->
      current_in quantifiers (new_parser l') = false ->
      returns quantified_token_pattern (new_parser l) atom (new_parser l')).
Proof.
  split.
  - intros l atom ty lx l' [n H] Hty. exists (S n).
    rewrite quantified_token_pattern_S, (bind_Ok _ _ _ _ _ H).
    rewrite (current_in_head quantifiers ty lx l' Hty).
    unfold bind.
    change (current_lexeme (new_parser ((ty, lx) :: l')))
      with (Ok (lx, new_parser ((ty, lx) :: l'))).
    cbv beta iota.
    change (current_type (new_parser ((ty, lx) :: l')))
      with (Ok (ty, new_parser ((ty, lx) :: l'))).
    cbv beta iota. now rewrite eat_cons.
  - intros l atom l' [n H] Hq. exists (S n).
    rewrite quantified_token_pattern_S, (bind_Ok _ _ _ _ _ H).
    now rewrite Hq.
Qed.

Lemma quantifier_applies_once_witness :
  returns quantified_token_pattern
    (new_parser [(LBRACKET, "["); (RBRACKET, "]"); (PLUS, "+"); (STAR, "*")])
    (Quant PyNone "+") (new_parser [(STAR, "*")]) /\
  returns quantified_token_pattern
    (new_parser [(AT, "@"); (RPAREN, ")")])
    (Mention PyNone) (new_parser [(RPAREN, ")")]).
Proof.
  split.
  - apply (proj1 quantifier_applies_once _ PyNone PLUS "+" [(STAR, "*")]).
    + exists 1. reflexivity.
    + cbn. tauto.
  - apply (proj2 quantifier_applies_once).
    + exists 1. reflexivity.
    + reflexivity.
Defined.

(** X8. The mention sigil takes the string literal that follows it, and
    nothing else: [@] before a string-literal token gives the [Mention] of
    the [Exact] matcher of that lexeme; [@] before any other token, or at
    the end of the input, gives [Mention] of [None] and consumes the sigil
    only.  The pipeline accepts the lone sigil. *)
Theorem mention_takes_optional_string :
  (forall lx v l,
      mention_token_pattern (new_parser ((AT, lx) :: (STRING, v) :: l)) =
        Ok (Mention (Exact v), new_parser l)) /\
  (forall lx l,
      current_is STRING (new_parser l) = false ->
      mention_token_pattern (new_parser ((AT, lx) :: l)) =
        Ok (Mention PyNone, new_parser l)) /\
  parse_text "@" = Ok (Mention PyNone).
Proof.
  split; [reflexivity |]. split; [| reflexivity].
  intros lx l H. unfold mention_token_pattern.
  rewrite (bind_Ok _ _ _ _ _ (eat_cons AT lx l)).
  unfold bind. now rewrite H.
Qed.

Lemma mention_takes_optional_string_witness :
  mention_token_pattern (new_parser ((AT, "@") :: field_tokens "tag" "x")) =
    Ok (Mention PyNone, new_parser (field_tokens "tag" "x")).
Proof.
  apply (proj1 (proj2 mention_takes_optional_string)). reflexivity.
Defined.

(** X9. Parentheses group and leave no node.  In a constraint and in a
    pattern alike, an opening parenthesis, what the production of the
    lowest precedence returns, and a closing parenthesis give that same
    tree. *)
Theorem parentheses_are_transparent :
  (forall lx l d lx' l',
      returns disjunctive_constraint (new_parser l) d
              (new_parser ((RPAREN, lx') :: l')) ->
      returns atomic_constraint (new_parser ((LPAREN, lx) :: l)) d
              (new_parser l')) /\
  (forall lx l d lx' l',
      returns disjunctive_token_pattern (new_parser l) d
              (new_parser ((RPAREN, lx') :: l')) ->
      returns atomic_token_pattern (new_parser ((LPAREN, lx) :: l)) d
              (new_parser l')).
Proof.
  split.
  - intros lx l d lx' l' [n H]. exists (S n).
    rewrite atomic_constraint_S. rewrite !current_is_cons.
    cbn [TokenType_eqb].
    rewrite (bind_Ok _ _ _ _ _ (eat_cons LPAREN lx l)).
    rewrite (bind_Ok _ _ _ _ _ H).
    now rewrite (bind_Ok _ _ _ _ _ (eat_cons RPAREN lx' l')).
  - intros lx l d lx' l' [n H]. exists (S n).
    rewrite atomic_token_pattern_S. rewrite !current_is_cons.
    cbn [TokenType_eqb].
    rewrite (bind_Ok _ _ _ _ _ (eat_cons LPAREN lx l)).
    rewrite (bind_Ok _ _ _ _ _ H).
    now rewrite (bind_Ok _ _ _ _ _ (eat_cons RPAREN lx' l')).
Qed.

Lemma parentheses_are_transparent_witness :
  returns atomic_constraint
    (new_parser ((LPAREN, "(") :: field_tokens "tag" "a" ++ (OR, "|")
                 :: field_tokens "tag" "b" ++ [(RPAREN, ")"); (RBRACKET, "]")]))
    (Or (Field "tag" (Exact "a")) (Field "tag" (Exact "b")))
    (new_parser [(RBRACKET, "]")]) /\
  returns atomic_token_pattern
    (new_parser [(LPAREN, "("); (AT, "@"); (LBRACKET, "["); (RBRACKET, "]");
                 (RPAREN, ")"); (STAR, "*")])
    (Seq [Mention PyNone; PyNone])
    (new_parser [(STAR, "*")]).
Proof.
  split.
  - apply (proj1 parentheses_are_transparent "(" _ _ ")").
    exists 6. reflexivity.
  - apply (proj2 parentheses_are_transparent "(" _ _ ")").
    exists 6. reflexivity.
Defined.

(** ** Errors of the productions, and how they reach the caller *)

Lemma raises_at {A} (f : nat -> M A) p e n m :
  fuel_monotone f -> f n p = Raise e -> n <= m -> f m p = Raise e.
Proof.
  intros Hm H Hle. specialize (Hm n m p Hle). rewrite H in Hm.
  now apply res_le_Raise in Hm.
Qed.

Lemma parse_tokens_of_raises l e :
  raises parse_token_pattern (new_parser l) e ->
  parse_tokens l = Raise e.
Proof.
  intros [n H]. unfold parse_tokens, parse_token_pattern in *.
  pose proof (proj1 (pattern_progress (parse_fuel l)) l (le_n _)) as Hprog.
  pose proof (mono_disjunctive_token_pattern (parse_fuel l)
                (max n (parse_fuel l)) (new_parser l) (Nat.le_max_r _ _))
    as Hle.
  rewrite (raises_at disjunctive_token_pattern _ _ n (max n (parse_fuel l))
             mono_disjunctive_token_pattern H (Nat.le_max_l _ _)) in Hle.
  destruct Hle as [Hout | Heq].
  - rewrite Hout in Hprog. destruct Hprog.
  - now rewrite Heq.
Qed.

(** What the first atomic pattern of the input raises, the pattern parser
    raises. *)
Lemma raises_first_atom p e :
  raises atomic_token_pattern p e -> raises parse_token_pattern p e.
Proof.
  intros [n H]. exists (S (S (S n))). unfold parse_token_pattern.
  rewrite disjunctive_token_pattern_S. apply bind_Raise.
  rewrite concatenated_token_pattern_S. apply bind_Raise.
  rewrite quantified_token_pattern_S. apply bind_Raise. exact H.
Qed.

Lemma atomic_constraint_starts n p r :
  atomic_constraint n p = Ok r -> current_in [WORD; LPAREN] p = true.
Proof.
  destruct n as [| n]; [discriminate |]. rewrite atomic_constraint_S.
  unfold current_in. cbn [existsb].
  destruct (current_is WORD p); [reflexivity |].
  destruct (current_is LPAREN p); [reflexivity | discriminate].
Qed.

Lemma negated_constraint_starts n p r :
  negated_constraint n p = Ok r -> current_in [NOT; WORD; LPAREN] p = true.
Proof.
  destruct n as [| n]; [discriminate |]. rewrite negated_constraint_S.
  unfold current_in. cbn [existsb].
  destruct (current_is NOT p); [reflexivity |].
  intros H. apply atomic_constraint_starts in H. exact H.
Qed.

Lemma disjunctive_constraint_starts n p r :
  disjunctive_constraint n p = Ok r ->
  current_in [NOT; WORD; LPAREN] p = true.
Proof.
  destruct n as [| n]; [discriminate |]. rewrite disjunctive_constraint_S.
  intros H. apply bind_Ok_inv in H as (a & p' & H & _).
  destruct n as [| n]; [discriminate |]. rewrite conjunctive_constraint_S in H.
  apply bind_Ok_inv in H as (b & p'' & H & _).
  now apply negated_constraint_starts in H.
Qed.

Lemma constraint_start_not_RBRACKET l :
  current_in [NOT; WORD; LPAREN] (new_parser l) = true ->
  current_is_not RBRACKET (new_parser l) = true.
Proof.
  destruct l as [| [ty lx] l]; [now rewrite current_in_nil |].
  rewrite current_in_cons. destruct ty; cbn; intros H;
    first [reflexivity | discriminate H].
Qed.

(** X10. A bracket that is not closed is reported by [eat]: when the
    constraint after an opening bracket is parsed and the next token is no
    closing bracket, [token_constraint] raises
    "Expected RBRACKET but got" with the kind of that token, or EOF at the
    end of the input; so does an opening bracket that ends the input.  At
    the start of the input this is the error of the whole parse. *)
Theorem missing_closing_bracket_is_reported :
  (forall lx l a l',
      returns disjunctive_constraint (new_parser l) a (new_parser l') ->
      current_is RBRACKET (new_parser l') = false ->
      raises token_constraint (new_parser ((LBRACKET, lx) :: l))
             (SyntaxError ("Expected RBRACKET but got " ++ got_name l')%string) /\
      parse_tokens ((LBRACKET, lx) :: l) =
        Raise (SyntaxError ("Expected RBRACKET but got " ++ got_name l')%string)) /\
  (forall lx,
      parse_tokens [(LBRACKET, lx)] =
        Raise (SyntaxError "Expected RBRACKET but got EOF")).
Proof.
  split; [| reflexivity].
  intros lx l a l' [n H] Hstop.
  assert (Htc : token_constraint n (new_parser ((LBRACKET, lx) :: l)) =
                Raise (SyntaxError
                         ("Expected RBRACKET but got " ++ got_name l')%string)).
  { unfold token_constraint.
    rewrite (bind_Ok _ _ _ _ _ (eat_cons LBRACKET lx l)).
    unfold bind at 1.
    rewrite (constraint_start_not_RBRACKET l
               (disjunctive_constraint_starts n _ _ H)).
    rewrite H. apply bind_Raise. now apply eat_fails. }
  split; [now exists n |].
  apply parse_tokens_of_raises, raises_first_atom. exists (S n).
  rewrite atomic_token_pattern_S. rewrite !current_is_cons.
  cbn [TokenType_eqb]. exact Htc.
Qed.

Lemma missing_closing_bracket_is_reported_witness :
  raises token_constraint
    (new_parser ((LBRACKET, "[") :: field_tokens "word" "x" ++ [(AT, "@")]))
    (SyntaxError "Expected RBRACKET but got AT") /\
  parse_tokens ((LBRACKET, "[") :: field_tokens "word" "x" ++ [(AT, "@")]) =
    Raise (SyntaxError "Expected RBRACKET but got AT").
Proof.
  apply (proj1 missing_closing_bracket_is_reported "["
           (field_tokens "word" "x" ++ [(AT, "@")])
           (Field "word" (Exact "x")) [(AT, "@")]).
  - exists 4. reflexivity.
  - reflexivity.
Defined.

(** X11. A field constraint is a keyword, an equals sign and a string
    literal, in this order.  On these three tokens [field_constraint]
    returns the [Field] node of the keyword's lexeme and the [Exact]
    matcher of the literal's lexeme.  After the keyword, a token that is
    no equals sign (or the end of the input) raises
    "Expected EQUALS but got" with its kind; after the equals sign, a token
    that is no string literal raises "Expected string".  At the start of
    the input these are the errors of the whole parse. *)
Theorem field_constraint_is_keyword_equals_string :
  (forall n e v l,
      field_constraint
        (new_parser ((WORD, n) :: (EQUALS, e) :: (STRING, v) :: l)) =
        Ok (Field n (Exact v), new_parser l)) /\
  (forall n l,
      current_is EQUALS (new_parser l) = false ->
      field_constraint (new_parser ((WORD, n) :: l)) =
        Raise (SyntaxError ("Expected EQUALS but got " ++ got_name l)%string) /\
      parse_tokens ((WORD, n) :: l) =
        Raise (SyntaxError ("Expected EQUALS but got " ++ got_name l)%string)) /\
  (forall n e l,
      current_is STRING (new_parser l) = false ->
      field_constraint (new_parser ((WORD, n) :: (EQUALS, e) :: l)) =
        Raise (SyntaxError "Expected string") /\
      parse_tokens ((WORD, n) :: (EQUALS, e) :: l) =
        Raise (SyntaxError "Expected string")).
Proof.
  assert (Hlift : forall n l e,
             field_constraint (new_parser ((WORD, n) :: l)) = Raise e ->
             parse_tokens ((WORD, n) :: l) = Raise e).
  { intros n l e H. apply parse_tokens_of_raises, raises_first_atom.
    exists 1. rewrite atomic_token_pattern_S. rewrite current_is_cons.
    cbn [TokenType_eqb]. exact H. }
  split; [reflexivity |]. split.
  - intros n l H.
    assert (E : field_constraint (new_parser ((WORD, n) :: l)) =
                Raise (SyntaxError
                         ("Expected EQUALS but got " ++ got_name l)%string)).
    { unfold field_constraint, bind.
      change (current_lexeme (new_parser ((WORD, n) :: l)))
        with (Ok (n, new_parser ((WORD, n) :: l))).
      cbv beta iota. rewrite eat_cons. now rewrite eat_fails. }
    split; [exact E | now apply Hlift].
  - intros n e l H.
    assert (E : field_constraint (new_parser ((WORD, n) :: (EQUALS, e) :: l)) =
                Raise (SyntaxError "Expected string")).
    { unfold field_constraint, bind.
      change (current_lexeme (new_parser ((WORD, n) :: (EQUALS, e) :: l)))
        with (Ok (n, new_parser ((WORD, n) :: (EQUALS, e) :: l))).
      cbv beta iota. rewrite !eat_cons. unfold string_matcher.
      now rewrite H. }
    split; [exact E | now apply Hlift].
Qed.

Lemma field_constraint_is_keyword_equals_string_witness :
  parse_tokens [(WORD, "tag"); (STRING, "x")] =
    Raise (SyntaxError "Expected EQUALS but got STRING") /\
  parse_tokens [(WORD, "tag"); (EQUALS, "="); (WORD, "word")] =
    Raise (SyntaxError "Expected string").
Proof.
  split.
  - apply (proj1 (proj2 field_constraint_is_keyword_equals_string)
             "tag" [(STRING, "x")]).
    reflexivity.
  - apply (proj2 (proj2 field_constraint_is_keyword_equals_string)
             "tag" "=" [(WORD, "word")]).
    reflexivity.
Defined.

(** X12. A pattern must start with a field keyword, an opening bracket or
    parenthesis or the mention sigil: when the first token is of no kind
    that starts a pattern, or there is no token at all, the parse raises
    "Unexpected token" with the lexeme of that token, or EOF. *)
Theorem pattern_must_start_with_a_starter l :
  current_in pattern_starters (new_parser l) = false ->
  parse_tokens l =
    Raise (SyntaxError
             ("Unexpected token '" ++ shown_lexeme l
              ++ "' in AtomicTokenPattern")%string).
Proof.
  intros H. apply parse_tokens_of_raises, raises_first_atom. exists 1.
  rewrite atomic_token_pattern_S.
  unfold current_in, pattern_starters in H. cbn [existsb] in H.
  repeat (apply orb_false_iff in H; destruct H as [? H]).
  repeat match goal with
         | E : current_is _ _ = false |- _ => rewrite E; clear E
         end.
  destruct l as [| [ty lx] l]; reflexivity.
Qed.

Lemma pattern_must_start_with_a_starter_witness :
  parse_tokens [(AND, "&"); (AT, "@")] =
    Raise (SyntaxError "Unexpected token '&' in AtomicTokenPattern").
Proof.
  apply (pattern_must_start_with_a_starter [(AND, "&"); (AT, "@")]).
  reflexivity.
Defined.

(** ** Precedence *)

Lemma operands_stop f op ty lx l :
  TokenType_eqb ty op = false -> operands f op ((ty, lx) :: l) [] ((ty, lx) :: l).
Proof. intros H. apply operands_done. now rewrite current_is_cons. Qed.

Lemma current_in_false_inv ty tys p :
  current_in tys p = false -> In ty tys -> current_is ty p = false.
Proof.
  unfold current_in. intros H Hin.
  destruct (current_is ty p) eqn:E; [| reflexivity].
  rewrite <- H. symmetry. apply existsb_exists. now exists ty.
Qed.

(** X13. Conjunction binds tighter than disjunction, on either side: for
    operands [a], [b], [c] of [negated_constraint], the constraint
    [a | b & c] is parsed as [Or a (And b c)] and [a & b | c] as
    [Or (And a b) c]. *)
Theorem conjunction_binds_tighter_than_disjunction :
  (forall l0 a lx1 l1 b lx2 l2 c l3,
      returns negated_constraint (new_parser l0) a
              (new_parser ((OR, lx1) :: l1)) ->
      returns negated_constraint (new_parser l1) b
              (new_parser ((AND, lx2) :: l2)) ->
      returns negated_constraint (new_parser l2) c (new_parser l3) ->
      current_in [AND; OR] (new_parser l3) = false ->
      returns disjunctive_constraint (new_parser l0) (Or a (And b c))
              (new_parser l3)) /\
  (forall l0 a lx1 l1 b lx2 l2 c l3,
      returns negated_constraint (new_parser l0) a
              (new_parser ((AND, lx1) :: l1)) ->
      returns negated_constraint (new_parser l1) b
              (new_parser ((OR, lx2) :: l2)) ->
      returns negated_constraint (new_parser l2) c (new_parser l3) ->
      current_in [AND; OR] (new_parser l3) = false ->
      returns disjunctive_constraint (new_parser l0) (Or (And a b) c)
              (new_parser l3)).
Proof.
  split; intros l0 a lx1 l1 b lx2 l2 c l3 Ha Hb Hc Hstop;
    pose proof (current_in_false_inv AND _ _ Hstop (or_introl eq_refl)) as Hand;
    pose proof (current_in_false_inv OR _ _ Hstop
                  (or_intror (or_introl eq_refl))) as Hor.
  - apply (disjunction_chain l0 a ((OR, lx1) :: l1) [And b c] l3).
    + apply (conjunction_chain l0 a ((OR, lx1) :: l1) []); [exact Ha |].
      now apply operands_stop.
    + apply operands_next with (l' := l3); [| now apply operands_done].
      apply (conjunction_chain l1 b ((AND, lx2) :: l2) [c] l3); [exact Hb |].
      apply operands_next with (l' := l3); [exact Hc | now apply operands_done].
  - apply (disjunction_chain l0 (And a b) ((OR, lx2) :: l2) [c] l3).
    + apply (conjunction_chain l0 a ((AND, lx1) :: l1) [b] ((OR, lx2) :: l2));
        [exact Ha |].
      apply operands_next with (l' := (OR, lx2) :: l2); [exact Hb |].
      now apply operands_stop.
    + apply operands_next with (l' := l3); [| now apply operands_done].
      apply (conjunction_chain l2 c l3 []); [exact Hc |].
      now apply operands_done.
Qed.

Lemma conjunction_binds_tighter_than_disjunction_witness :
  returns disjunctive_constraint
    (new_parser (field_tokens "word" "a" ++ (OR, "|")
                 :: field_tokens "lemma" "b" ++ (AND, "&")
                 :: (NOT, "!") :: field_tokens "tag" "c" ++ [(RBRACKET, "]")]))
    (Or (Field "word" (Exact "a"))
        (And (Field "lemma" (Exact "b")) (Not (Field "tag" (Exact "c")))))
    (new_parser [(RBRACKET, "]")]) /\
  returns disjunctive_constraint
    (new_parser (field_tokens "word" "a" ++ (AND, "&")
                 :: field_tokens "lemma" "b" ++ (OR, "|")
                 :: field_tokens "tag" "c" ++ [(RBRACKET, "]")]))
    (Or (And (Field "word" (Exact "a")) (Field "lemma" (Exact "b")))
        (Field "tag" (Exact "c")))
    (new_parser [(RBRACKET, "]")]).
Proof.
  split.
  - apply (proj1 conjunction_binds_tighter_than_disjunction
             _ _ "|"
             (field_tokens "lemma" "b" ++ (AND, "&")
              :: (NOT, "!") :: field_tokens "tag" "c" ++ [(RBRACKET, "]")])
             _ "&"
             ((NOT, "!") :: field_tokens "tag" "c" ++ [(RBRACKET, "]")])).
    + exists 2. reflexivity.
    + exists 2. reflexivity.
    + exists 2. reflexivity.
    + reflexivity.
  - apply (proj2 conjunction_binds_tighter_than_disjunction
             _ _ "&"
             (field_tokens "lemma" "b" ++ (OR, "|")
              :: field_tokens "tag" "c" ++ [(RBRACKET, "]")])
             _ "|"
             (field_tokens "tag" "c" ++ [(RBRACKET, "]")])).
    + exists 2. reflexivity.
    + exists 2. reflexivity.
    + exists 2. reflexivity.
    + reflexivity.
Defined.

(** What [concatenated_token_pattern] returns, for use below. *)
Lemma concatenation_returns l0 first l1 rest l2 :
  returns quantified_token_pattern (new_parser l0) first (new_parser l1) ->
  collected l1 rest l2 ->
  returns concatenated_token_pattern (new_parser l0)
          (seq_or_single (first :: rest)) (new_parser l2).
Proof.
  intros [n1 Hq] Hcol.
  destruct (collected_loop _ _ _ Hcol [first]) as [n2 Hloop].
  exists (S (max n1 n2)). rewrite concatenated_token_pattern_S.
  rewrite (bind_Ok _ _ _ _ _
             (returns_at quantified_token_pattern _ _ _ n1 (max n1 n2)
                mono_quantified_token_pattern Hq (Nat.le_max_l _ _))).
  rewrite (bind_Ok _ _ _ _ _
             (returns_at (fun n => concatenated_token_pattern_loop n [first])
                _ _ _ n2 (max n1 n2)
                (mono_concatenated_token_pattern_loop [first]) Hloop
                (Nat.le_max_r _ _))).
  reflexivity.
Qed.

(** X14. Concatenation binds tighter than alternation, on either side: for
    quantified patterns [p], [q], [r], the pattern [p q | r] is parsed as
    [Or (Seq [p; q]) r] and [p | q r] as [Or p (Seq [q; r])]. *)
Theorem concatenation_binds_tighter_than_alternation :
  (forall l0 p l1 q lx l2 r l3,
      returns quantified_token_pattern (new_parser l0) p (new_parser l1) ->
      current_in pattern_starters (new_parser l1) = true ->
      returns quantified_token_pattern (new_parser l1) q
              (new_parser ((OR, lx) :: l2)) ->
      returns quantified_token_pattern (new_parser l2) r (new_parser l3) ->
      current_in (OR :: pattern_starters) (new_parser l3) = false ->
      returns disjunctive_token_pattern (new_parser l0)
              (Or (Seq [p; q]) r) (new_parser l3)) /\
  (forall l0 p lx l1 q l2 r l3,
      returns quantified_token_pattern (new_parser l0) p
              (new_parser ((OR, lx) :: l1)) ->
      returns quantified_token_pattern (new_parser l1) q (new_parser l2) ->
      current_in pattern_starters (new_parser l2) = true ->
      returns quantified_token_pattern (new_parser l2) r (new_parser l3) ->
      current_in (OR :: pattern_starters) (new_parser l3) = false ->
      returns disjunctive_token_pattern (new_parser l0)
              (Or p (Seq [q; r])) (new_parser l3)).
Proof.
  assert (Hsplit : forall l3,
             current_in (OR :: pattern_starters) (new_parser l3) = false ->
             current_is OR (new_parser l3) = false /\
             current_in pattern_starters (new_parser l3) = false).
  { intros l3 H. unfold current_in in H. cbn [existsb] in H.
    apply orb_false_iff in H. exact H. }
  split.
  - intros l0 p l1 q lx l2 r l3 Hp Hgo Hq Hr Hstop.
    destruct (Hsplit l3 Hstop) as [Hor Hst].
    apply (alternation_chain l0 (Seq [p; q]) ((OR, lx) :: l2) [r] l3).
    + apply (concatenation_returns l0 p l1 [q] ((OR, lx) :: l2) Hp).
      apply collected_more with (l' := (OR, lx) :: l2); [exact Hgo | exact Hq |].
      now apply collected_stop.
    + apply operands_next with (l' := l3); [| now apply operands_done].
      apply (concatenation_returns l2 r l3 [] l3 Hr).
      now apply collected_stop.
  - intros l0 p lx l1 q l2 r l3 Hp Hq Hgo Hr Hstop.
    destruct (Hsplit l3 Hstop) as [Hor Hst].
    apply (alternation_chain l0 p ((OR, lx) :: l1) [Seq [q; r]] l3).
    + apply (concatenation_returns l0 p ((OR, lx) :: l1) [] _ Hp).
      now apply collected_stop.
    + apply operands_next with (l' := l3); [| now apply operands_done].
      apply (concatenation_returns l1 q l2 [r] l3 Hq).
      apply collected_more with (l' := l3); [exact Hgo | exact Hr |].
      now apply collected_stop.
Qed.

Lemma concatenation_binds_tighter_than_alternation_witness :
  returns disjunctive_token_pattern
    (new_parser [(AT, "@"); (LBRACKET, "["); (RBRACKET, "]"); (STAR, "*");
                 (OR, "|"); (AT, "@"); (STRING, "x")])
    (Or (Seq [Mention PyNone; Quant PyNone "*"]) (Mention (Exact "x")))
    (new_parser []) /\
  returns disjunctive_token_pattern
    (new_parser [(AT, "@"); (OR, "|"); (AT, "@"); (STRING, "x");
                 (LBRACKET, "["); (RBRACKET, "]"); (RPAREN, ")")])
    (Or (Mention PyNone) (Seq [Mention (Exact "x"); PyNone]))
    (new_parser [(RPAREN, ")")]).
Proof.
  split.
  - apply (proj1 concatenation_binds_tighter_than_alternation
             _ (Mention PyNone)
             [(LBRACKET, "["); (RBRACKET, "]"); (STAR, "*");
              (OR, "|"); (AT, "@"); (STRING, "x")]
             (Quant PyNone "*") "|" [(AT, "@"); (STRING, "x")]).
    + exists 2. reflexivity.
    + reflexivity.
    + exists 2. reflexivity.
    + exists 2. reflexivity.
    + reflexivity.
  - apply (proj2 concatenation_binds_tighter_than_alternation
             _ (Mention PyNone) "|"
             [(AT, "@"); (STRING, "x");
              (LBRACKET, "["); (RBRACKET, "]"); (RPAREN, ")")]
             (Mention (Exact "x"))
             [(LBRACKET, "["); (RBRACKET, "]"); (RPAREN, ")")]).
    + exists 2. reflexivity.
    + exists 2. reflexivity.
    + reflexivity.
    + exists 2. reflexivity.
    + reflexivity.
Defined.

(** ** The pattern parser and the constraint parser *)

Lemma quantified_returns_atom l atom l' :
  returns atomic_token_pattern (new_parser l) atom (new_parser l') ->
  current_in quantifiers (new_parser l') = false ->
  returns quantified_token_pattern (new_parser l) atom (new_parser l').
Proof.
  intros [n H] Hq. exists (S n).
  rewrite quantified_token_pattern_S, (bind_Ok _ _ _ _ _ H).
  now rewrite Hq.
Qed.

Lemma current_in_app tys tys' p :
  current_in (tys ++ tys') p = current_in tys p || current_in tys' p.
Proof. unfold current_in. apply existsb_app. Qed.

(** A single atomic pattern that nothing continues is the whole pattern. *)
Lemma pattern_of_atom l a l' :
  returns atomic_token_pattern (new_parser l) a (new_parser l') ->
  current_in (quantifiers ++ pattern_starters ++ [OR]) (new_parser l') = false ->
  returns parse_token_pattern (new_parser l) a (new_parser l').
Proof.
  intros Ha Hstop. rewrite !current_in_app in Hstop.
  apply orb_false_iff in Hstop as [Hq Hstop].
  apply orb_false_iff in Hstop as [Hst Hor].
  unfold current_in in Hor. cbn [existsb] in Hor. rewrite orb_false_r in Hor.
  unfold parse_token_pattern.
  apply (alternation_chain l a l' [] l'); [| now apply operands_done].
  apply (concatenation_returns l a l' [] l'); [| now apply collected_stop].
  now apply quantified_returns_atom.
Qed.

(** X15. The pattern parser extends the constraint parser.  Where
    [parse], the entry point of the constraint parser, returns the tree of
    a bracketed constraint and the next token continues no pattern, the
    pattern parser returns the same tree and stops at the same token.  And
    a field constraint without brackets is read as the same tree as the
    bracketed one. *)
Theorem pattern_parser_extends_constraint_parser :
  (forall l a l',
      returns parse (new_parser l) a (new_parser l') ->
      current_in (quantifiers ++ pattern_starters ++ [OR]) (new_parser l')
        = false ->
      returns parse_token_pattern (new_parser l) a (new_parser l') /\
      parse_tokens l = Ok a) /\
  (forall n e v lx lx' l,
      current_in (quantifiers ++ pattern_starters ++ [OR]) (new_parser l)
        = false ->
      parse_tokens ((WORD, n) :: (EQUALS, e) :: (STRING, v) :: l) =
        Ok (Field n (Exact v)) /\
      parse_tokens ((LBRACKET, lx) :: (WORD, n) :: (EQUALS, e) :: (STRING, v)
                    :: (RBRACKET, lx') :: l) =
        Ok (Field n (Exact v))).
Proof.
  split.
  - intros l a l' [n H] Hstop.
    assert (Hret : returns parse_token_pattern (new_parser l) a (new_parser l')).
    { apply pattern_of_atom; [| exact Hstop].
      exists (S n). rewrite atomic_token_pattern_S.
      unfold parse in H. pose proof H as H0. unfold token_constraint in H0.
      apply bind_Ok_inv in H0 as ([] & p1 & Heat & _).
      apply eat_Ok in Heat as (lx & l1 & -> & _).
      rewrite !current_is_cons. cbn [TokenType_eqb]. exact H. }
    split; [exact Hret |]. now apply parse_tokens_of_returns in Hret.
  - intros n e v lx lx' l Hstop. split.
    + apply (parse_tokens_of_returns _ _ (new_parser l)).
      apply pattern_of_atom; [| exact Hstop]. exists 1. reflexivity.
    + apply (parse_tokens_of_returns _ _ (new_parser l)).
      apply pattern_of_atom; [| exact Hstop]. exists 5. reflexivity.
Qed.

Lemma pattern_parser_extends_constraint_parser_witness :
  (returns parse_token_pattern
     (new_parser ((LBRACKET, "[") :: (NOT, "!") :: field_tokens "tag" "a"
                  ++ [(RBRACKET, "]"); (RPAREN, ")")]))
     (Not (Field "tag" (Exact "a"))) (new_parser [(RPAREN, ")")]) /\
   parse_tokens ((LBRACKET, "[") :: (NOT, "!") :: field_tokens "tag" "a"
                 ++ [(RBRACKET, "]"); (RPAREN, ")")]) =
     Ok (Not (Field "tag" (Exact "a")))) /\
  (parse_tokens [(WORD, "tag"); (EQUALS, "="); (STRING, "a")] =
     Ok (Field "tag" (Exact "a")) /\
   parse_tokens [(LBRACKET, "["); (WORD, "tag"); (EQUALS, "="); (STRING, "a");
                 (RBRACKET, "]")] =
     Ok (Field "tag" (Exact "a"))).
Proof.
  split.
  - apply (proj1 pattern_parser_extends_constraint_parser).
    + exists 4. reflexivity.
    + reflexivity.
  - apply (proj2 pattern_parser_extends_constraint_parser
             "tag" "=" "a" "[" "]" []).
    reflexivity.
Defined.

(** ** Consumption *)

(** X16. No pattern and no bracketed constraint is empty: whatever
    [parse_token_pattern] or [parse] returns, it has consumed at least one
    token, and it leaves the parser on the tokens that remain.  The depth
    of the recursion is linear in the number of tokens: with the fuel of
    the entry point, four per token and five, the pattern parser always
    returns or raises. *)
Theorem productions_consume_tokens :
  (forall l a p',
      returns parse_token_pattern (new_parser l) a p' ->
      exists l', p' = new_parser l' /\ List.length l' < List.length l) /\
  (forall l a p',
      returns parse (new_parser l) a p' ->
      exists l', p' = new_parser l' /\ List.length l' < List.length l) /\
  (forall l, parse_tokens l <> OutOfFuel).
Proof.
  split; [| split; [| exact parse_tokens_total]].
  - intros l a p' [n H]. unfold parse_token_pattern in H.
    pose proof (proj1 (pattern_progress (max n (parse_fuel l))) l) as Hprog.
    rewrite (returns_at disjunctive_token_pattern _ _ _ n _
               mono_disjunctive_token_pattern H (Nat.le_max_l _ _)) in Hprog.
    destruct Hprog as (l' & -> & Hlen).
    + unfold parse_fuel. lia.
    + exists l'. split; [reflexivity | lia].
  - intros l a p' [n H]. unfold parse in H.
    pose proof (progresses_token_constraint (max n (parse_fuel l)) l) as Hprog.
    rewrite (returns_at token_constraint _ _ _ n _
               mono_token_constraint H (Nat.le_max_l _ _)) in Hprog.
    destruct Hprog as (l' & -> & Hlen).
    + intros l0 Hl0. now apply (constraint_progress (max n (parse_fuel l))).
    + unfold parse_fuel. lia.
    + exists l'. split; [reflexivity | lia].
Qed.

Lemma productions_consume_tokens_witness :
  exists l',
    new_parser [(STAR, "*"); (RBRACKET, "]")] = new_parser l' /\
    List.length l' <
    List.length [(AT, "@"); (STRING, "x"); (STAR, "*"); (STAR, "*");
                 (RBRACKET, "]")].
Proof.
  apply (proj1 productions_consume_tokens _ (Quant (Mention (Exact "x")) "*")).
  exists 4. reflexivity.
Defined.

(* ================================================================== *)
(** * White space separates *)

(** ** The scan depends on the unread text only *)

Lemma prepend_emit acc ty lx r :
  prepend (if TokenType_eqb ty WHITESPACE then acc else acc ++ [(ty, lx)]) r =
  prepend acc (emit ty lx r).
Proof.
  destruct r as [toks | e |]; cbn; [| reflexivity | reflexivity].
  destruct (TokenType_eqb ty WHITESPACE); [reflexivity |].
  now rewrite <- app_assoc.
Qed.

Lemma lexes_tokenize_loop s r :
  lexes s r ->
  forall text pos fuel acc,
    string_drop pos text = s ->
    String.length text - pos < fuel ->
    tokenize_loop fuel text pos acc = prepend acc r.
Proof.
  induction 1 as [| c s Hnone | s ty lx rest r Hs Hrule _ IH];
    intros text pos fuel acc Hdrop Hfuel.
  - destruct fuel as [| fuel]; [lia |]. cbn [tokenize_loop].
    pose proof (string_drop_length pos text) as Hlen. rewrite Hdrop in Hlen.
    cbn in Hlen.
    assert (Hge : (pos <? String.length text) = false)
      by (apply Nat.ltb_ge; lia).
    rewrite Hge. cbn. now rewrite app_nil_r.
  - destruct fuel as [| fuel]; [lia |].
    now apply (tokenize_loop_fail text pos c s).
  - destruct fuel as [| fuel]; [lia |]. subst s.
    rewrite (tokenize_loop_step text pos ty lx rest fuel acc Hdrop Hrule).
    destruct (first_match_step text pos ty lx rest Hdrop Hrule)
      as (Hne & Hpos & _ & _ & Hdrop').
    rewrite (IH text (pos + String.length lx) fuel _ Hdrop').
    + apply prepend_emit.
    + destruct lx; [contradiction | cbn; lia].
Qed.

Lemma lexes_total_aux n : forall s,
  String.length s <= n -> exists r, lexes s r.
Proof.
  induction n as [| n IH]; intros s Hlen.
  - destruct s; [| cbn in Hlen; lia]. eexists. apply lexes_end.
  - destruct s as [| c s]; [eexists; apply lexes_end |].
    destruct (first_rule TOKEN_TYPES (String c s)) as [[ty rest] |] eqn:E.
    + destruct (first_rule_split _ _ _ _ TOKEN_TYPES_consume E)
        as (lx & Hs & Hne).
      destruct (IH rest) as [r Hr].
      { apply (f_equal String.length) in Hs.
        rewrite app_length_string in Hs. cbn in Hlen, Hs.
        destruct lx; [contradiction | cbn in Hs; lia]. }
      exists (emit ty lx r). now apply (lexes_step _ ty lx rest).
    + eexists. now apply lexes_fail.
Qed.

Lemma lexes_tokenize s r : lexes s r -> tokenize s = r.
Proof.
  intros H. unfold tokenize.
  rewrite (lexes_tokenize_loop s r H s 0 _ []); [| reflexivity | lia].
  destruct r; reflexivity.
Qed.

Lemma tokenize_lexes s : lexes s (tokenize s).
Proof.
  destruct (lexes_total_aux (String.length s) s (le_n _)) as [r Hr].
  now rewrite (lexes_tokenize s r Hr).
Qed.

Lemma lexes_deterministic s r1 r2 : lexes s r1 -> lexes s r2 -> r1 = r2.
Proof.
  intros H1 H2. apply lexes_tokenize in H1, H2. congruence.
Qed.

(** ** A match is not changed by white space after the text *)

Lemma space_not_word c : is_space c = true -> is_word c = false.
Proof.
  intros Hs. destruct (is_word c) eqn:Hw; [| reflexivity].
  destruct (word_char_other_rules c Hw) as [H _]. congruence.
Qed.

Lemma starts_with_space_not_word ext :
  starts_with is_space ext = true -> starts_with is_word ext = false.
Proof.
  destruct ext as [| c ext]; [discriminate |]. cbn. apply space_not_word.
Qed.

Lemma starts_with_app p rest ext :
  starts_with p ext = false ->
  starts_with p rest = false ->
  starts_with p (rest ++ ext)%string = false.
Proof. destruct rest; cbn; auto. Qed.

Lemma star_greedy_max p s rest :
  star_greedy p s (fun r => Some r) = Some rest ->
  starts_with p rest = false.
Proof.
  revert rest. induction s as [| c s IH]; intros rest; cbn.
  - now intros [= <-].
  - destruct (p c) eqn:Hc.
    + destruct (star_greedy_Some p s) as [r Hr]. rewrite Hr.
      intros [= <-]. now apply IH.
    + intros [= <-]. exact Hc.
Qed.

Lemma match_lit_fail_extend l : forall s ext,
  string_forall is_word l = true ->
  starts_with is_word ext = false ->
  match_lit l s = None ->
  match_lit l (s ++ ext)%string = None.
Proof.
  induction l as [| a l IH]; intros s ext Hl Hext H; [discriminate H |].
  cbn in Hl. apply andb_true_iff in Hl as [Ha Hl].
  destruct s as [| x s]; cbn [append match_lit] in *.
  - destruct ext as [| c ext]; [reflexivity |].
    destruct (Ascii.eqb a c) eqn:E; [| reflexivity].
    apply Ascii.eqb_eq in E. subst c. cbn in Hext. congruence.
  - destruct (Ascii.eqb a x); [now apply IH | reflexivity].
Qed.

Lemma keyword_rule_fail_extend s ext :
  starts_with is_word ext = false ->
  rmatch WORD_re s (fun r => Some r) = None ->
  rmatch WORD_re (s ++ ext)%string (fun r => Some r) = None.
Proof.
  intros Hext. unfold WORD_re. cbn [rmatch].
  repeat match goal with
         | |- context [match_lit ?l s] =>
             let E := fresh "E" in
             destruct (match_lit l s) eqn:E; [discriminate |];
             rewrite (match_lit_fail_extend l s ext eq_refl Hext E)
         end.
  reflexivity.
Qed.

Lemma star_lazy_closed q body rest :
  string_forall (fun c => is_dot c && negb (Ascii.eqb c q)) body = true ->
  star_lazy (in_class cls_dot) (body ++ String q rest)%string
    (fun s' => rmatch (Lit (chr q)) s' (fun r => Some r)) = Some rest.
Proof.
  induction body as [| c body IH]; intros H.
  - cbn [append star_lazy rmatch match_lit chr].
    now rewrite Ascii.eqb_refl.
  - cbn in H. apply andb_true_iff in H as [Hc H].
    apply andb_true_iff in Hc as [Hdot Hq].
    cbn [append star_lazy rmatch match_lit chr in_class].
    rewrite Ascii.eqb_sym in Hq. apply negb_true_iff in Hq.
    rewrite Hq, Hdot. now apply IH.
Qed.

Lemma star_lazy_extend q s rest ext :
  star_lazy (in_class cls_dot) s
    (fun s' => rmatch (Lit (chr q)) s' (fun r => Some r)) = Some rest ->
  star_lazy (in_class cls_dot) (s ++ ext)%string
    (fun s' => rmatch (Lit (chr q)) s' (fun r => Some r))
  = Some (rest ++ ext)%string.
Proof.
  intros H. apply star_lazy_spec in H as (body & -> & Hbody).
  rewrite app_assoc_string. cbn [append]. now apply star_lazy_closed.
Qed.

Lemma first_rule_squote s rest :
  star_lazy (in_class cls_dot) s
    (fun s' => rmatch (Lit (chr squote)) s' (fun r => Some r)) = Some rest ->
  first_rule TOKEN_TYPES (String squote s) = Some (STRING, rest).
Proof.
  intros H. unfold TOKEN_TYPES, STRING_re, WORD_re.
  cbn [first_rule rmatch].
  change (match_lit (chr squote) (String squote s)) with (Some s).
  change (match_lit (chr dquote) (String squote s)) with (@None string).
  cbv beta iota. cbn [rmatch] in H. rewrite H. reflexivity.
Qed.

Lemma quoted_rule_head q s rest :
  rmatch (Cat (Lit (chr q)) (Cat (LazyStar cls_dot) (Lit (chr q))))
         s (fun r => Some r) = Some rest ->
  exists s1,
    s = String q s1 /\
    star_lazy (in_class cls_dot) s1
      (fun s' => rmatch (Lit (chr q)) s' (fun r => Some r)) = Some rest.
Proof.
  cbn [rmatch]. destruct (match_lit (chr q) s) as [s1 |] eqn:E; [| discriminate].
  apply match_lit_split in E. intros H. now exists s1.
Qed.

Lemma string_rule_extend s rest ext :
  starts_with is_space ext = true ->
  rmatch WORD_re s (fun r => Some r) = None ->
  rmatch STRING_re s (fun r => Some r) = Some rest ->
  first_rule TOKEN_TYPES (s ++ ext)%string = Some (STRING, (rest ++ ext)%string).
Proof.
  intros Hext Hkw H. unfold STRING_re in H.
  change (rmatch (Alt ?a ?b) ?s ?k)
    with (match rmatch a s k with Some x => Some x | None => rmatch b s k end)
    in H.
  destruct (rmatch (Cat (Lit (chr dquote)) _) _ _) as [x |] eqn:E1.
  { injection H as ->. apply quoted_rule_head in E1 as (s1 & -> & E1).
    cbn [append]. apply first_rule_dquote. now apply star_lazy_extend. }
  change (rmatch (Alt ?a ?b) ?s ?k)
    with (match rmatch a s k with Some x => Some x | None => rmatch b s k end)
    in H.
  destruct (rmatch (Cat (Lit (chr squote)) _) _ _) as [x |] eqn:E2.
  { injection H as ->. apply quoted_rule_head in E2 as (s1 & -> & E2).
    cbn [append]. apply first_rule_squote. now apply star_lazy_extend. }
  cbn [rmatch] in H. destruct s as [| c s']; [discriminate |].
  cbn [in_class] in H. destruct (is_word c) eqn:Hc; [| discriminate].
  pose proof (star_greedy_max _ _ _ H) as Hmax.
  apply star_greedy_spec in H as (pre & -> & Hpre).
  pose proof (starts_with_space_not_word ext Hext) as Hnw.
  pose proof (keyword_rule_fail_extend (String c (pre ++ rest)) ext Hnw Hkw)
    as Hfail.
  cbn [append] in Hfail |- *.
  rewrite (first_rule_word_start c ((pre ++ rest) ++ ext)%string Hc Hfail).
  rewrite app_assoc_string.
  now rewrite (star_greedy_run (in_class cls_w) pre (rest ++ ext)%string Hpre
                 (starts_with_app _ rest ext Hnw Hmax)).
Qed.

Lemma keyword_rule_split s rest :
  rmatch WORD_re s (fun r => Some r) = Some rest ->
  exists kw,
    In kw field_keywords /\ s = (kw ++ rest)%string.
Proof.
  unfold WORD_re. cbn [rmatch].
  repeat match goal with
         | |- context [match_lit ?l s] =>
             let E := fresh "E" in
             destruct (match_lit l s) as [s' |] eqn:E;
             [ intros [= ->]; apply match_lit_split in E;
               exists l; split; [cbn; tauto | exact E] | ]
         end.
  discriminate.
Qed.

Lemma whitespace_rule_extend s rest ext :
  rest <> ""%string ->
  rmatch (Plus cls_s) s (fun r => Some r) = Some rest ->
  first_rule TOKEN_TYPES (s ++ ext)%string
  = Some (WHITESPACE, (rest ++ ext)%string).
Proof.
  intros Hne H. cbn [rmatch] in H. destruct s as [| c s']; [discriminate |].
  cbn [in_class] in H. destruct (is_space c) eqn:Hc; [| discriminate].
  pose proof (star_greedy_max _ _ _ H) as Hmax.
  apply star_greedy_spec in H as (pre & -> & Hpre).
  unfold TOKEN_TYPES. cbn [first_rule rmatch append in_class]. rewrite Hc.
  rewrite app_assoc_string.
  rewrite (star_greedy_run (in_class cls_s) pre (rest ++ ext)%string Hpre);
    [reflexivity |].
  destruct rest; [contradiction | exact Hmax].
Qed.

(** The rule that wins on [s] wins on [s] followed by white space, with
    the same match; but a white-space run that ends [s] goes on. *)
Lemma first_rule_extend s ty rest ext :
  first_rule TOKEN_TYPES s = Some (ty, rest) ->
  starts_with is_space ext = true ->
  (ty = WHITESPACE -> rest <> ""%string) ->
  first_rule TOKEN_TYPES (s ++ ext)%string = Some (ty, (rest ++ ext)%string).
Proof.
  intros H Hext Hws.
  pose proof (first_rule_reachable _ _ _ H) as (N1 & N2 & N3 & N4 & N5).
  unfold TOKEN_TYPES in H.
  apply first_rule_cons_inv in H as [[E ->] | [_ H]].
  { apply whitespace_rule_extend; auto. }
  do 11 (let E := fresh "E" in
         apply first_rule_cons_inv in H as [[E ->] | [_ H]];
         [ cbn [rmatch] in E;
           match type of E with
           | match match_lit ?l s with _ => _ end = _ =>
               let E' := fresh "E" in
               destruct (match_lit l s) as [s' |] eqn:E'; [| discriminate E];
               injection E as ->; apply match_lit_split in E'; subst s;
               rewrite app_assoc_string; reflexivity
           end | ]).
  apply first_rule_cons_inv in H as [[E ->] | [Ekw H]].
  { apply keyword_rule_split in E as (kw & Hin & ->).
    rewrite app_assoc_string. cbn in Hin.
    repeat (destruct Hin as [<- | Hin]; [reflexivity |]). destruct Hin. }
  apply first_rule_cons_inv in H as [[E ->] | [_ H]].
  { now apply string_rule_extend. }
  repeat (let E := fresh "E" in
          apply first_rule_cons_inv in H as [[E ->] | [_ H]];
          [ first [ contradiction
                  | cbn [rmatch] in E;
                    match type of E with
                    | match match_lit ?l s with _ => _ end = _ =>
                        let E' := fresh "E" in
                        destruct (match_lit l s) as [s' |] eqn:E';
                        [| discriminate E];
                        injection E as ->; apply match_lit_split in E';
                        subst s; rewrite app_assoc_string; reflexivity
                    end ] | ]).
  discriminate H.
Qed.

(** ** Joining two texts with white space *)

Lemma emit_whitespace lx r : emit WHITESPACE lx r = r.
Proof. destruct r; reflexivity. Qed.

Lemma prepend_nil r : prepend [] r = r.
Proof. destruct r; reflexivity. Qed.

Lemma emit_prepend ty lx t0 rb :
  emit ty lx (prepend t0 rb) =
  prepend (if TokenType_eqb ty WHITESPACE then t0 else (ty, lx) :: t0) rb.
Proof.
  destruct rb; cbn; [| reflexivity | reflexivity].
  now destruct (TokenType_eqb ty WHITESPACE).
Qed.

Lemma lexes_inv_step s r ty rest :
  lexes s r ->
  first_rule TOKEN_TYPES s = Some (ty, rest) ->
  exists lx r0, s = (lx ++ rest)%string /\ lexes rest r0 /\ r = emit ty lx r0.
Proof.
  intros H Hrule. destruct H as [| c s Hnone | s ty' lx rest' r Hs Hrule' Hr].
  - discriminate Hrule.
  - rewrite Hnone in Hrule. discriminate Hrule.
  - rewrite Hrule' in Hrule. injection Hrule as -> ->. now exists lx, r.
Qed.

Lemma lexes_empty r : lexes "" r -> r = Ok [].
Proof. intros H. exact (lexes_deterministic _ _ _ H lexes_end). Qed.

Lemma whitespace_rule_won s rest :
  first_rule TOKEN_TYPES s = Some (WHITESPACE, rest) ->
  rmatch (Plus cls_s) s (fun r => Some r) = Some rest.
Proof.
  intros H. unfold TOKEN_TYPES in H.
  apply first_rule_cons_inv in H as [[E _] | [_ H]]; [exact E |].
  repeat (apply first_rule_cons_inv in H as [[_ E] | [_ H]];
          [discriminate E |]).
  discriminate H.
Qed.

Lemma space_run_rule c pre rest :
  is_space c = true ->
  string_forall is_space pre = true ->
  starts_with is_space rest = false ->
  first_rule TOKEN_TYPES (String c (pre ++ rest)) = Some (WHITESPACE, rest).
Proof.
  intros Hc Hpre Hrest. unfold TOKEN_TYPES.
  cbn [first_rule rmatch in_class]. rewrite Hc.
  now rewrite (star_greedy_run (in_class cls_s) pre rest Hpre Hrest).
Qed.

(** White space before a text changes nothing. *)
Lemma lexes_skip_space c b r :
  is_space c = true -> lexes b r -> lexes (String c b) r.
Proof.
  intros Hc Hb.
  destruct (star_greedy_Some (in_class cls_s) b) as [rest Hg].
  pose proof (star_greedy_max _ _ _ Hg) as Hmax.
  apply star_greedy_spec in Hg as (lead & -> & Hlead).
  assert (Hrest : lexes rest r).
  { destruct lead as [| x lead]; [exact Hb |].
    cbn [string_forall] in Hlead. apply andb_true_iff in Hlead as [Hx Hlead].
    cbn [append] in Hb.
    destruct (lexes_inv_step _ _ _ _ Hb (space_run_rule x lead rest Hx Hlead Hmax))
      as (lx & r0 & _ & Hr0 & ->).
    now rewrite emit_whitespace. }
  rewrite <- (emit_whitespace (String c lead) r).
  apply (lexes_step _ WHITESPACE (String c lead) rest r);
    [reflexivity | | exact Hrest].
  now apply space_run_rule.
Qed.

Lemma lexes_skip_spaces ws b r :
  string_forall is_space ws = true -> lexes b r -> lexes (ws ++ b)%string r.
Proof.
  induction ws as [| c ws IH]; intros Hws Hb; [exact Hb |].
  cbn in Hws. apply andb_true_iff in Hws as [Hc Hws].
  cbn [append]. apply lexes_skip_space; auto.
Qed.

Lemma lexes_join a ra :
  lexes a ra ->
  forall ta c b rb,
    ra = Ok ta ->
    is_space c = true ->
    lexes b rb ->
    lexes (a ++ String c b)%string (prepend ta rb).
Proof.
  induction 1 as [| c0 s Hnone | s ty lx rest r Hs Hrule Hr IH];
    intros ta c b rb Hra Hc Hb.
  - injection Hra as <-. rewrite prepend_nil. cbn [append].
    now apply lexes_skip_space.
  - discriminate Hra.
  - destruct r as [t0 | e |]; try discriminate Hra.
    cbn [emit] in Hra. injection Hra as <-.
    specialize (IH t0 c b rb eq_refl Hc Hb).
    destruct (TokenType_eqb ty WHITESPACE) eqn:Ety.
    + apply TokenType_eqb_eq in Ety. subst ty.
      destruct rest as [| x rest'].
      * apply lexes_empty in Hr. injection Hr as ->. rewrite prepend_nil.
        apply whitespace_rule_won in Hrule. cbn [rmatch] in Hrule.
        destruct s as [| c1 s1]; [discriminate |]. cbn [in_class] in Hrule.
        destruct (is_space c1) eqn:Hc1; [| discriminate].
        apply star_greedy_spec in Hrule as (pre & Hs1 & Hpre).
        apply lexes_skip_spaces; [| now apply lexes_skip_space].
        cbn [string_forall]. rewrite Hc1. subst s1.
        now rewrite append_empty_r.
      * rewrite <- (emit_whitespace lx (prepend t0 rb)).
        apply (lexes_step _ WHITESPACE lx (String x rest' ++ String c b)%string).
        -- rewrite Hs. apply app_assoc_string.
        -- apply first_rule_extend; [exact Hrule | exact Hc | discriminate].
        -- exact IH.
    + replace (prepend ((ty, lx) :: t0) rb)
        with (emit ty lx (prepend t0 rb))
        by (rewrite emit_prepend; now rewrite Ety).
      apply (lexes_step _ ty lx (rest ++ String c b)%string).
      * rewrite Hs. apply app_assoc_string.
      * apply first_rule_extend; [exact Hrule | exact Hc |].
        intros ->. discriminate Ety.
      * exact IH.
Qed.

(** X17. White space separates.  When the text [a] has the tokens [ta],
    the text made of [a], a white-space character and the text [b] has
    the tokens [ta] followed by those of [b], and fails as [b] fails: no
    token reaches over the white space and none is changed by it.  In
    particular white space before a text changes neither its tokens nor
    what the pipeline returns for it. *)
Theorem white_space_separates_texts :
  (forall a c b ta,
      is_space c = true ->
      tokenize a = Ok ta ->
      tokenize (a ++ String c b) = prepend ta (tokenize b)) /\
  (forall c b,
      is_space c = true ->
      tokenize (String c b) = tokenize b /\
      parse_text (String c b) = parse_text b).
Proof.
  assert (Hjoin : forall a c b ta,
             is_space c = true ->
             tokenize a = Ok ta ->
             tokenize (a ++ String c b) = prepend ta (tokenize b)).
  { intros a c b ta Hc Ha. apply lexes_tokenize.
    apply (lexes_join a (tokenize a) (tokenize_lexes a) ta c b _ Ha Hc).
    apply tokenize_lexes. }
  split; [exact Hjoin |].
  intros c b Hc.
  assert (E : tokenize (String c b) = tokenize b).
  { rewrite <- (prepend_nil (tokenize b)).
    apply (Hjoin ""%string c b [] Hc). reflexivity. }
  split; [exact E |]. unfold parse_text. now rewrite E.
Qed.

Lemma white_space_separates_texts_witness :
  tokenize ("[tag=a]" ++ String " " "@x") =
    prepend [(LBRACKET, "["); (WORD, "tag"); (EQUALS, "="); (STRING, "a");
             (RBRACKET, "]")]
            (tokenize "@x") /\
  (tokenize (String "009" "[]") = tokenize "[]" /\
   parse_text (String "009" "[]") = parse_text "[]").
Proof.
  split.
  - apply (proj1 white_space_separates_texts); reflexivity.
  - apply (proj2 white_space_separates_texts). reflexivity.
Defined.

(* ================================================================== *)
(** * The tokens cover the text *)

Lemma string_forall_app p a b :
  string_forall p (a ++ b)%string = string_forall p a && string_forall p b.
Proof.
  induction a as [| c a IH]; cbn; [reflexivity |].
  now rewrite IH, andb_assoc.
Qed.

Lemma spaced_skip ws s toks :
  string_forall is_space ws = true -> spaced s toks ->
  spaced (ws ++ s)%string toks.
Proof.
  intros Hws H. destruct H as [ws' Hws' | ws' ty lx rest toks Hws' Hrest].
  - apply spaced_end. now rewrite string_forall_app, Hws, Hws'.
  - rewrite <- app_assoc_string. apply spaced_token; [| exact Hrest].
    now rewrite string_forall_app, Hws, Hws'.
Qed.

Lemma whitespace_lexeme lx rest :
  first_rule TOKEN_TYPES (lx ++ rest)%string = Some (WHITESPACE, rest) ->
  string_forall is_space lx = true.
Proof.
  intros H. apply whitespace_rule_won in H. cbn [rmatch] in H.
  destruct (lx ++ rest)%string as [| c s] eqn:E; [discriminate |].
  cbn [in_class] in H. destruct (is_space c) eqn:Hc; [| discriminate].
  apply star_greedy_spec in H as (pre & -> & Hpre).
  assert (Hlx : lx = String c pre).
  { apply (app_inv_tail_string _ _ rest). now rewrite E. }
  subst lx. cbn. now rewrite Hc.
Qed.

Lemma lexes_spaced s r :
  lexes s r -> forall toks, r = Ok toks -> spaced s toks.
Proof.
  induction 1 as [| c s Hnone | s ty lx rest r Hs Hrule Hr IH];
    intros toks Hr'.
  - injection Hr' as <-. now apply spaced_end.
  - discriminate Hr'.
  - destruct r as [t0 | e |]; try discriminate Hr'.
    cbn [emit] in Hr'. injection Hr' as <-. subst s.
    specialize (IH t0 eq_refl).
    destruct (TokenType_eqb ty WHITESPACE) eqn:Ety.
    + apply TokenType_eqb_eq in Ety. subst ty.
      apply spaced_skip; [| exact IH]. now apply (whitespace_lexeme lx rest).
    + now apply (spaced_token ""%string ty lx rest t0).
Qed.

Lemma spaced_no_space s toks :
  spaced s toks ->
  string_forall (fun c => negb (is_space c)) s = true ->
  String.concat "" (map snd toks) = s.
Proof.
  induction 1 as [ws Hws | ws ty lx rest toks Hws _ IH]; intros Hs.
  - destruct ws as [| c ws]; [reflexivity |]. cbn in Hws, Hs.
    apply andb_true_iff in Hws as [Hc _]. rewrite Hc in Hs. discriminate Hs.
  - destruct ws as [| c ws].
    + cbn [append] in *. rewrite string_forall_app in Hs.
      apply andb_true_iff in Hs as [_ Hrest]. specialize (IH Hrest).
      cbn [map snd]. destruct toks as [| t toks'].
      * cbn in IH |- *. subst rest. now rewrite append_empty_r.
      * cbn [String.concat map] in IH |- *. now rewrite IH.
    + cbn in Hws, Hs. apply andb_true_iff in Hws as [Hc _].
      rewrite Hc in Hs. discriminate Hs.
Qed.

(** X18. The tokens cover the text: the text that [tokenize] accepts is
    the lexemes of its tokens, in order, with only white space before,
    between and after them; the scan drops nothing else and adds nothing.
    For a text without white space, concatenating the lexemes gives the
    text back. *)
Theorem tokens_cover_the_text text toks :
  tokenize text = Ok toks ->
  spaced text toks /\
  (string_forall (fun c => negb (is_space c)) text = true ->
   String.concat "" (map snd toks) = text).
Proof.
  intros H.
  assert (Hsp : spaced text toks).
  { apply (lexes_spaced text (tokenize text) (tokenize_lexes text)).
    exact H. }
  split; [exact Hsp |]. now apply spaced_no_space.
Qed.

Lemma tokens_cover_the_text_witness :
  spaced "[tag='a b'] @x"
         [(LBRACKET, "["); (WORD, "tag"); (EQUALS, "="); (STRING, "'a b'");
          (RBRACKET, "]"); (AT, "@"); (STRING, "x")] /\
  String.concat ""
    (map snd [(LBRACKET, "["); (WORD, "tag"); (EQUALS, "=");
              (STRING, "a"); (RBRACKET, "]"); (AT, "@"); (STRING, "x")])
  = "[tag=a]@x".
Proof.
  split.
  - apply (tokens_cover_the_text "[tag='a b'] @x"). reflexivity.
  - apply (tokens_cover_the_text "[tag=a]@x"); reflexivity.
Defined.

(* ================================================================== *)
(** * Operands and the capture production *)

Lemma operand_start_fails n l :
  current_in [NOT; WORD; LPAREN] (new_parser l) = false ->
  negated_constraint (S (S n)) (new_parser l) =
    Raise (SyntaxError
             "Expected FieldConstraint or nested DisjunctiveConstraint").
Proof.
  intros H. unfold current_in in H. cbn [existsb] in H.
  apply orb_false_iff in H as [Hn H]. apply orb_false_iff in H as [Hw H].
  apply orb_false_iff in H as [Hp _].
  rewrite negated_constraint_S, Hn, atomic_constraint_S, Hw, Hp.
  reflexivity.
Qed.

(** X19. An operand is required after an opening bracket and after an
    operator of the constraint grammar.  Where an operand must start and
    the token is neither [!], a field keyword nor an opening parenthesis,
    the parser raises "Expected FieldConstraint or nested
    DisjunctiveConstraint": for a bracket whose first token is none of
    these nor the closing bracket, and for a conjunction or a disjunction
    whose operator is followed by such a token or by the end of the
    input. *)
Theorem constraint_operand_is_required :
  (forall lx t l,
      current_in [RBRACKET; NOT; WORD; LPAREN] (new_parser (t :: l)) = false ->
      parse_tokens ((LBRACKET, lx) :: t :: l) =
        Raise (SyntaxError
                 "Expected FieldConstraint or nested DisjunctiveConstraint")) /\
  (forall l0 a lx l1,
      returns negated_constraint (new_parser l0) a
              (new_parser ((AND, lx) :: l1)) ->
      current_in [NOT; WORD; LPAREN] (new_parser l1) = false ->
      raises conjunctive_constraint (new_parser l0)
             (SyntaxError
                "Expected FieldConstraint or nested DisjunctiveConstraint")) /\
  (forall l0 a lx l1,
      returns conjunctive_constraint (new_parser l0) a
              (new_parser ((OR, lx) :: l1)) ->
      current_in [NOT; WORD; LPAREN] (new_parser l1) = false ->
      raises disjunctive_constraint (new_parser l0)
             (SyntaxError
                "Expected FieldConstraint or nested DisjunctiveConstraint")).
Proof.
  split; [| split].
  - intros lx [ty tx] l H.
    assert (Hnr : current_is_not RBRACKET (new_parser ((ty, tx) :: l)) = true).
    { rewrite current_in_cons in H. cbn [existsb] in H.
      apply orb_false_iff in H as [H _]. cbn. now rewrite H. }
    assert (Hop : current_in [NOT; WORD; LPAREN] (new_parser ((ty, tx) :: l))
                  = false).
    { unfold current_in in H |- *. cbn [existsb] in H |- *.
      apply orb_false_iff in H as [_ H]. exact H. }
    apply parse_tokens_of_raises, raises_first_atom. exists 5.
    rewrite atomic_token_pattern_S. rewrite !current_is_cons.
    cbn [TokenType_eqb]. unfold token_constraint.
    rewrite (bind_Ok _ _ _ _ _ (eat_cons LBRACKET lx ((ty, tx) :: l))).
    apply bind_Raise. rewrite Hnr.
    rewrite disjunctive_constraint_S. apply bind_Raise.
    rewrite conjunctive_constraint_S. apply bind_Raise.
    now apply operand_start_fails.
  - intros l0 a lx l1 [n H] Hbad. exists (S (S (S (S n)))).
    rewrite conjunctive_constraint_S.
    rewrite (bind_Ok _ _ _ _ _
               (returns_at negated_constraint _ _ _ n (S (S (S n)))
                  mono_negated_constraint H (le_S _ _ (le_S _ _ (le_S _ _ (le_n _)))))).
    rewrite conjunctive_constraint_loop_S, current_is_cons.
    cbn [TokenType_eqb].
    rewrite (bind_Ok _ _ _ _ _ (eat_cons AND lx l1)).
    apply bind_Raise. now apply operand_start_fails.
  - intros l0 a lx l1 [n H] Hbad. exists (S (S (S (S (S n))))).
    rewrite disjunctive_constraint_S.
    rewrite (bind_Ok _ _ _ _ _
               (returns_at conjunctive_constraint _ _ _ n (S (S (S (S n))))
                  mono_conjunctive_constraint H
                  (le_S _ _ (le_S _ _ (le_S _ _ (le_S _ _ (le_n _))))))).
    rewrite disjunctive_constraint_loop_S, current_is_cons.
    cbn [TokenType_eqb].
    rewrite (bind_Ok _ _ _ _ _ (eat_cons OR lx l1)).
    apply bind_Raise. rewrite conjunctive_constraint_S. apply bind_Raise.
    now apply operand_start_fails.
Qed.

Lemma constraint_operand_is_required_witness :
  parse_tokens [(LBRACKET, "["); (AT, "@"); (RBRACKET, "]")] =
    Raise (SyntaxError
             "Expected FieldConstraint or nested DisjunctiveConstraint") /\
  raises conjunctive_constraint
    (new_parser (field_tokens "tag" "a" ++ [(AND, "&"); (RBRACKET, "]")]))
    (SyntaxError "Expected FieldConstraint or nested DisjunctiveConstraint") /\
  raises disjunctive_constraint
    (new_parser (field_tokens "tag" "a" ++ [(OR, "|")]))
    (SyntaxError "Expected FieldConstraint or nested DisjunctiveConstraint").
Proof.
  destruct constraint_operand_is_required as (H1 & H2 & H3).
  split; [| split].
  - apply H1. reflexivity.
  - apply (H2 _ (Field "tag" (Exact "a")) "&" [(RBRACKET, "]")]).
    + exists 2. reflexivity.
    + reflexivity.
  - apply (H3 _ (Field "tag" (Exact "a")) "|" []).
    + exists 3. reflexivity.
    + reflexivity.
Defined.

(** X20. The capture production, were it reached.  On a capture opener, a
    string-literal token, a capture closer and the tokens of a pattern,
    [capture_token_pattern] (and [atomic_token_pattern], which calls it)
    returns the [Capture] node of the literal's lexeme and the tree of the
    pattern: the closer is eaten before the inner pattern, not after it,
    and nothing is eaten after the pattern.  A capture opener that ends
    the input makes the production raise a TypeError. *)
Theorem capture_production_reads_name_closer_pattern :
  (forall lx name lx' l p l',
      returns disjunctive_token_pattern (new_parser l) p (new_parser l') ->
      returns capture_token_pattern
        (new_parser ((CAPTURE_START, lx) :: (STRING, name)
                     :: (CAPTURE_END, lx') :: l))
        (Capture name p) (new_parser l') /\
      returns atomic_token_pattern
        (new_parser ((CAPTURE_START, lx) :: (STRING, name)
                     :: (CAPTURE_END, lx') :: l))
        (Capture name p) (new_parser l')) /\
  (forall lx n,
      capture_token_pattern (S n) (new_parser [(CAPTURE_START, lx)]) =
        Raise (TypeError "'NoneType' object is not subscriptable")).
Proof.
  split; [| reflexivity].
  intros lx name lx' l p l' [n H].
  assert (Hc : capture_token_pattern (S n)
                 (new_parser ((CAPTURE_START, lx) :: (STRING, name)
                              :: (CAPTURE_END, lx') :: l)) =
               Ok (Capture name p, new_parser l')).
  { rewrite capture_token_pattern_S.
    rewrite (bind_Ok _ _ _ _ _ (eat_cons CAPTURE_START lx _)).
    unfold bind at 1.
    change (current_lexeme (new_parser ((STRING, name) :: (CAPTURE_END, lx') :: l)))
      with (Ok (name, new_parser ((STRING, name) :: (CAPTURE_END, lx') :: l))).
    cbv beta iota.
    rewrite (bind_Ok _ _ _ _ _ (eat_cons STRING name _)).
    rewrite (bind_Ok _ _ _ _ _ (eat_cons CAPTURE_END lx' _)).
    now rewrite (bind_Ok _ _ _ _ _ H). }
  split; [now exists (S n) |].
  exists (S (S n)). rewrite atomic_token_pattern_S.
  rewrite !current_is_cons. cbn [TokenType_eqb]. exact Hc.
Qed.

Lemma capture_production_reads_name_closer_pattern_witness :
  returns capture_token_pattern
    (new_parser [(CAPTURE_START, "(?<"); (STRING, "n"); (CAPTURE_END, ")");
                 (LBRACKET, "["); (RBRACKET, "]"); (RPAREN, ")")])
    (Capture "n" PyNone) (new_parser [(RPAREN, ")")]) /\
  returns atomic_token_pattern
    (new_parser [(CAPTURE_START, "(?<"); (STRING, "n"); (CAPTURE_END, ")");
                 (LBRACKET, "["); (RBRACKET, "]"); (RPAREN, ")")])
    (Capture "n" PyNone) (new_parser [(RPAREN, ")")]).
Proof.
  apply (proj1 capture_production_reads_name_closer_pattern).
  exists 4. reflexivity.
Defined.
